(** * Denoising diffusion notebook: noise schedule, forward noising,
      time encoding and reverse sampler

    A shallow embedding of the numeric code of
    [notebooks/35_denoising_diffusion.ipynb].

    Modelling conventions.
    - Floating-point numbers ([float32]/[float64]) are idealised as real
      numbers [R]; overflow, [inf] and [nan] are outside the model, and so
      is rounding, except for the cast of the schedule to float32, which
      [variance_schedule_float32] models.  Division in [R] is total, so a
      theorem that gives the value of a quotient is stated where its
      divisor is non-zero.
    - One-dimensional arrays are lists; a batch of samples is a list of
      flattened samples.
    - Python integers are [Z]; list positions are [nat].
    - Calls that can raise return a [result]. *)

From Stdlib Require Import Reals Lra Lia ZArith String Bool List Permutation.
Import ListNotations.

Open Scope R_scope.

(** ** Exceptions *)

Inductive exn : Type :=
| AssertionError (msg : string)
| IndexError
| ValueError
| InvalidArgumentError.

Inductive result (A : Type) : Type :=
| Ok (a : A)
| Raise (e : exn).
Arguments Ok {A} a.
Arguments Raise {A} e.

Definition bind {A B} (r : result A) (k : A -> result B) : result B :=
  match r with
  | Ok a => k a
  | Raise e => Raise e
  end.

Notation "x <- r ;; k" := (bind r (fun x => k))
  (at level 61, r at next level, right associativity).

Fixpoint mapM {A B} (f : A -> result B) (l : list A) : result (list B) :=
  match l with
  | [] => Ok []
  | a :: l' => b <- f a ;; bs <- mapM f l' ;; Ok (b :: bs)
  end.

(** ** The part of numpy the notebook uses *)

Module np.

(** [np.arange(n)] for an integer [n]: [0, 1, ..., n-1], empty when [n <= 0]. *)
Definition arange (n : Z) : list Z := map Z.of_nat (seq 0 (Z.to_nat n)).

(** [np.clip(x, lo, hi)] is [minimum(maximum(x, lo), hi)]. *)
Definition clip (x lo hi : R) : R := Rmin (Rmax x lo) hi.

(** Element-wise binary operation on two arrays of the same length. *)
Fixpoint zip_with {A B C} (f : A -> B -> C) (xs : list A) (ys : list B)
  : list C :=
  match xs, ys with
  | x :: xs', y :: ys' => f x y :: zip_with f xs' ys'
  | _, _ => []
  end.

(** [np.cumprod]: running product. *)
Fixpoint cumprod_from (acc : R) (l : list R) : list R :=
  match l with
  | [] => []
  | a :: l' => acc * a :: cumprod_from (acc * a) l'
  end.

Definition cumprod (l : list R) : list R :=
  match l with
  | [] => []
  | a :: l' => a :: cumprod_from a l'
  end.

(** [np.append(x, a)] with a scalar first argument. *)
Definition append (x : R) (a : list R) : list R := x :: a.

End np.

(** Python slices [f[1:]] and [f[:-1]]. *)
Definition slice_from_1 {A} (f : list A) : list A := tl f.
Definition slice_to_last {A} (f : list A) : list A := removelast f.

(** ** Variance scheduling *)

Record schedule : Type := mkSchedule {
  alpha : list R;
  alpha_cumprod : list R;
  beta : list R
}.

(** The argument of the cosine at step [t], and the value [f[t]] of the
    cosine policy. *)
Definition cos_angle (T : Z) (s : R) (t : Z) : R :=
  (IZR t / IZR T + s) / (1 + s) * PI / 2.

Definition cos_f (T : Z) (s : R) (t : Z) : R := cos (cos_angle T s t) ^ 2.

(** [variance_schedule] in exact arithmetic: the cast
    [.astype(np.float32)] is left out here, and modelled by
    [variance_schedule_float32] below. *)
Definition variance_schedule (T : Z) (s max_beta : R) : schedule :=
  let t := np.arange (T + 1) in
  let f := map (cos_f T s) t in
  let alpha :=
    map (fun x => np.clip x (1 - max_beta) 1)
        (np.zip_with Rdiv (slice_from_1 f) (slice_to_last f)) in
  let alpha := np.append 1 alpha in
  let beta := map (fun a => 1 - a) alpha in
  let alpha_cumprod := np.cumprod alpha in
  mkSchedule alpha alpha_cumprod beta.

Definition step_scale : R := 5 / 1000.

(** The value [f[t]] of the linear policy. *)
Definition lin_f (T : Z) (t : Z) : R := 1 - step_scale * IZR t / IZR T.

(** The parameter [s] is accepted and not used, as in the source.  Exact
    arithmetic again, and for [T <> 0]: at [T = 0] the source divides by
    zero and stores nan, which the real numbers do not have. *)
Definition linear_schedule (T : Z) (s max_beta : R) : schedule :=
  let t := np.arange (T + 1) in
  let f := map (lin_f T) t in
  let alpha := map (fun x => np.clip x (1 - max_beta) 1) f in
  let alpha := np.append 1 alpha in
  let beta := map (fun a => 1 - a) alpha in
  let alpha_cumprod := np.cumprod alpha in
  mkSchedule alpha alpha_cumprod beta.

(** ** The schedule as stored: the cast to float32

    [.astype(np.float32)] rounds every entry of [alpha] to the nearest
    number of the binary32 format, ties going to the even mantissa.
    [1 - alpha] and [np.cumprod(alpha)] are then operations on float32
    arrays, each result rounded the same way.  The float64 arithmetic
    before the cast is kept exact. *)

(** The nearest integer, ties to the even one. *)
Definition round_half_even (x : R) : Z :=
  let n := Int_part x in
  let r := x - IZR n in
  if Rlt_dec r (1 / 2) then n
  else if Rlt_dec (1 / 2) r then (n + 1)%Z
  else if Z.even n then n else (n + 1)%Z.

(** The exponent [e] with [2^e <= |x| < 2^(e+1)], and that of the
    subnormal numbers, -126, below them. *)
Definition float32_exponent (x : R) : Z :=
  Z.max (-126) (Int_part (ln (Rabs x) / ln 2)).

(** The binary32 number nearest to [x]: a multiple of [2^(e-23)], the
    spacing of the format at [x].  For [|x| < 2^128], where the format has
    a finite number to give; the schedules cast numbers of [[0, 1]]. *)
Definition float32 (x : R) : R :=
  if Req_EM_T x 0 then 0
  else
    let ulp := powerRZ 2 (float32_exponent x - 23) in
    IZR (round_half_even (x / ulp)) * ulp.

(** [np.cumprod] of a float32 array. *)
Fixpoint cumprod_float32_from (acc : R) (l : list R) : list R :=
  match l with
  | [] => []
  | a :: l' => float32 (acc * a) :: cumprod_float32_from (float32 (acc * a)) l'
  end.

Definition cumprod_float32 (l : list R) : list R :=
  match l with
  | [] => []
  | a :: l' => a :: cumprod_float32_from a l'
  end.

(** [variance_schedule] with the cast, as the source has it. *)
Definition variance_schedule_float32 (T : Z) (s max_beta : R) : schedule :=
  let t := np.arange (T + 1) in
  let f := map (cos_f T s) t in
  let alpha :=
    map (fun x => np.clip x (1 - max_beta) 1)
        (np.zip_with Rdiv (slice_from_1 f) (slice_to_last f)) in
  let alpha := map float32 (np.append 1 alpha) in
  let beta := map (fun a => float32 (1 - a)) alpha in
  let alpha_cumprod := cumprod_float32 alpha in
  mkSchedule alpha alpha_cumprod beta.

(** Entry [t] of an array, for a position known to be in range. *)
Notation "l .[ t ]" := (nth t l 0) (at level 1, format "l .[ t ]").

Definition unit_interval (x : R) : Prop := 0 < x <= 1.

(** ** Tensors and the part of TensorFlow the notebook uses

    A tensor of shape [[n, ...]] is a list of [n] flattened samples; its
    shape is the list of the sample sizes.  Operands of an element-wise
    operation must have the same shape: broadcasting of size-1 dimensions is
    modelled only for scalars and for one scalar per sample, the two forms
    the notebook uses, and any other mismatch raises. *)

Definition tensor : Type := list (list R).
Definition shape : Type := list nat.

Module tf.

Definition shape_of (X : tensor) : shape := map (@length R) X.

Definition zeros (sh : shape) : tensor := map (repeat 0) sh.

Definition shape_eqb (a b : shape) : bool :=
  if list_eq_dec Nat.eq_dec a b then true else false.

(** [c * X] for a scalar [c]. *)
Definition scale (c : R) (X : tensor) : tensor := map (map (Rmult c)) X.

(** An element-wise operation on two tensors of one shape.  Where the
    shapes differ TensorFlow broadcasts when it can and raises when it
    cannot; a batch of flattened samples does not keep the dimensions
    this depends on, so [Raise] stands for both and the theorems use the
    operations on equal shapes only. *)
Definition elementwise (f : R -> R -> R) (X Y : tensor) : result tensor :=
  if shape_eqb (shape_of X) (shape_of Y)
  then Ok (np.zip_with (np.zip_with f) X Y)
  else Raise InvalidArgumentError.

Definition add := elementwise Rplus.
Definition sub := elementwise Rminus.

(** [c * X] and [X / c] where [c] has shape [[n, 1, ..., 1]]: one scalar
    per sample. *)
Definition per_sample (f : R -> R -> R) (X : tensor) (c : list R)
  : result tensor :=
  if (length c =? length X)%nat
  then Ok (np.zip_with (fun x a => map (fun v => f v a) x) X c)
  else Raise InvalidArgumentError.

Definition mul_rows (c : list R) (X : tensor) : result tensor :=
  per_sample (fun v a => a * v) X c.
Definition div_rows (X : tensor) (c : list R) : result tensor :=
  per_sample Rdiv X c.

(** [tf.reshape(a, [n, 1, ..., 1])] of a vector: needs exactly [n] entries. *)
Definition reshape (a : list R) (n : nat) : result (list R) :=
  if (length a =? n)%nat then Ok a else Raise InvalidArgumentError.

(** [tf.gather(params, indices)] on a vector, as on the CPU: every index
    must be in [0, len(params)). *)
Definition gather (params : list R) (indices : list Z) : result (list R) :=
  mapM (fun i =>
          if (i <? 0)%Z then Raise InvalidArgumentError
          else match nth_error params (Z.to_nat i) with
               | Some v => Ok v
               | None => Raise InvalidArgumentError
               end) indices.

(** The global random generator: the stream of standard-normal samples and
    the stream of raw integer words it will produce, and the position
    reached in them. *)
Record generator : Type := mkGenerator {
  normal_src : nat -> R;
  uniform_src : nat -> Z;
  pos : nat
}.

Definition advance (n : nat) (g : generator) : generator :=
  mkGenerator (normal_src g) (uniform_src g) (pos g + n).

(** [tf.random.normal(shape)]: the next samples of the stream, row by row. *)
Fixpoint random_normal (sh : shape) (g : generator) : tensor * generator :=
  match sh with
  | [] => ([], g)
  | m :: sh' =>
      let row := map (fun k => normal_src g (pos g + k)%nat) (seq 0 m) in
      let '(rows, g') := random_normal sh' (advance m g) in
      (row :: rows, g')
  end.

(** [tf.random.uniform([n], minval, maxval, dtype=tf.int32)]: raw words
    reduced modulo [maxval - minval]; needs [minval < maxval] when there is
    a number to draw, and returns the empty tensor for [n = 0] whatever the
    bounds. *)
Definition random_uniform (n : nat) (minval maxval : Z) (g : generator)
  : result (list Z * generator) :=
  if ((minval <? maxval)%Z || (n =? 0)%nat)%bool
  then Ok (map (fun k => (minval
                          + uniform_src g (pos g + k)%nat mod (maxval - minval))%Z)
               (seq 0 n),
           advance n g)
  else Raise InvalidArgumentError.

End tf.

Notation "' pat <- r ;; k" :=
  (bind r (fun x => match x with pat => k end))
  (at level 61, pat pattern, r at next level, right associativity).

(** ** Preparing a batch of noisy training images *)

Record noisy_batch : Type := mkNoisy {
  X_noisy : tensor;
  time : list Z
}.

(** Pixel values from 0..1 to -1..1: [X * 2 - 1]. *)
Definition scale_pixels (X : tensor) : tensor := map (map (fun x => x * 2 - 1)) X.

(** The value of the expression
    [alpha_cm ** 0.5 * X + (1 - alpha_cm) ** 0.5 * noise] once its
    operations have gone through, [alpha_cm] holding one scalar per sample. *)
Definition blend (alpha_cm : list R) (X noise : tensor) : tensor :=
  np.zip_with (np.zip_with Rplus)
    (np.zip_with (fun x a => map (fun v => a * v) x) X (map sqrt alpha_cm))
    (np.zip_with (fun x a => map (fun v => a * v) x) noise
                 (map (fun a => sqrt (1 - a)) alpha_cm)).

(** [T] and [alpha_cumprod] are globals of the notebook. *)
Definition prepare_batch (T : Z) (alpha_cumprod : list R)
    (X : tensor) (g : tf.generator)
  : result (noisy_batch * tensor * tf.generator) :=
  let X := scale_pixels X in
  let X_shape := tf.shape_of X in
  '(t, g) <- tf.random_uniform (length X_shape) 1 (T + 1) g ;;
  alpha_cm <- tf.gather alpha_cumprod t ;;
  alpha_cm <- tf.reshape alpha_cm (length X_shape) ;;
  let '(noise, g) := tf.random_normal X_shape g in
  signal <- tf.mul_rows (map sqrt alpha_cm) X ;;
  fuzz <- tf.mul_rows (map (fun a => sqrt (1 - a)) alpha_cm) noise ;;
  X_t <- tf.add signal fuzz ;;
  Ok (mkNoisy X_t t, noise, g).

Definition subtract_noise (alpha_cumprod : list R)
    (X_noisy : tensor) (time : list Z) (noise : tensor) : result tensor :=
  let X_shape := tf.shape_of X_noisy in
  alpha_cm <- tf.gather alpha_cumprod time ;;
  alpha_cm <- tf.reshape alpha_cm (length X_shape) ;;
  fuzz <- tf.mul_rows (map (fun a => sqrt (1 - a)) alpha_cm) noise ;;
  d <- tf.sub X_noisy fuzz ;;
  tf.div_rows d (map sqrt alpha_cm).

(** ** Time encoding *)

Definition matrix : Type := list (list R).

(** numpy on two-dimensional arrays. *)
Module npm.

(** [np.meshgrid(xs, ys)]: two matrices of [len(ys)] rows and [len(xs)]
    columns. *)
Definition meshgrid {A B} (xs : list A) (ys : list B)
  : list (list A) * list (list B) :=
  (map (fun _ => xs) ys, map (fun y => map (fun _ => y) xs) ys).

(** [np.empty((rows, cols))]: the contents are unspecified, here zeros. *)
Definition empty (rows cols : Z) : result matrix :=
  if ((rows <? 0) || (cols <? 0))%Z then Raise ValueError
  else Ok (repeat (repeat 0 (Z.to_nat cols)) (Z.to_nat rows)).

(** [M.T] for a matrix of [cols] columns. *)
Definition transpose (cols : nat) (M : matrix) : matrix :=
  map (fun k => map (fun row => row.[k]) M) (seq 0 cols).

(** Number of columns selected by the slice [start::2] among [width]. *)
Definition strided (start width : nat) : nat := ((width + 1 - start) / 2)%nat.

(** [A[:, start::2] = M] for [A] of [width] columns. *)
Definition assign_cols (start width : nat) (A M : matrix) : result matrix :=
  if ((length M =? length A)%nat
      && forallb (fun m => (length m =? strided start width)%nat) M)%bool
  then Ok (np.zip_with
             (fun row m =>
                map (fun c => if ((start <=? c)%nat
                                  && Nat.even (c - start))%bool
                              then m.[(c - start) / 2]
                              else row.[c])
                    (seq 0 width))
             A M)
  else Raise ValueError.

End npm.

(** [TimeEncoding.__init__]: the table stored in [self.time_encodings]. *)
Definition TimeEncoding (T embed_size : Z) : result matrix :=
  if negb (embed_size mod 2 =? 0)%Z
  then Raise (AssertionError "embed_size must be even")
  else
    let '(p, i) := npm.meshgrid (np.arange (T + 1))
                                (map (Z.mul 2) (np.arange (embed_size / 2))) in
    t_emb <- npm.empty (T + 1) embed_size ;;
    let angle :=
      np.zip_with
        (np.zip_with (fun p i => IZR p / Rpower 10000 (IZR i / IZR embed_size)))
        p i in
    let cols := length (np.arange (T + 1)) in
    let width := Z.to_nat embed_size in
    t_emb <- npm.assign_cols 0 width t_emb
               (npm.transpose cols (map (map sin) angle)) ;;
    t_emb <- npm.assign_cols 1 width t_emb
               (npm.transpose cols (map (map cos) angle)) ;;
    Ok t_emb.

(** The matrix [p / 10000 ** (i / embed_size)] the constructor takes the
    sine and the cosine of, and the sizes involved. *)
Definition encoding_grid (T embed_size : Z) : matrix :=
  np.zip_with
    (np.zip_with (fun p i => IZR p / Rpower 10000 (IZR i / IZR embed_size)))
    (fst (npm.meshgrid (np.arange (T + 1))
                       (map (Z.mul 2) (np.arange (embed_size / 2)))))
    (snd (npm.meshgrid (np.arange (T + 1))
                       (map (Z.mul 2) (np.arange (embed_size / 2))))).

Definition table_rows (T : Z) : nat := Z.to_nat (T + 1).
Definition table_half (embed_size : Z) : nat := Z.to_nat (embed_size / 2).
Definition table_width (embed_size : Z) : nat := Z.to_nat embed_size.

(** The argument [p / 10000 ** (i / embed_size)] at [p = t] and [i = 2 j],
    and the table with [sin] of it in column [2 j] and [cos] of it in column
    [2 j + 1] of row [t]. *)
Definition encoding_angle (embed_size : Z) (t j : nat) : R :=
  IZR (Z.of_nat t) / Rpower 10000 (IZR (2 * Z.of_nat j) / IZR embed_size).

Definition encoding_table (T embed_size : Z) : matrix :=
  map (fun t =>
         map (fun c => if Nat.even c
                       then sin (encoding_angle embed_size t (c / 2))
                       else cos (encoding_angle embed_size t (c / 2)))
             (seq 0 (Z.to_nat embed_size)))
      (seq 0 (Z.to_nat (T + 1))).

(** ** Generating images: the reverse sampler *)

(** [a[i]] for a Python integer [i]: negative positions count from the end. *)
Definition getitem (a : list R) (i : Z) : result R :=
  let n := Z.of_nat (length a) in
  let j := if (i <? 0)%Z then (i + n)%Z else i in
  if ((0 <=? j) && (j <? n))%Z then Ok a.[Z.to_nat j] else Raise IndexError.

(** [range(start, stop, -1)]. *)
Definition range_down (start stop : Z) : list Z :=
  map (fun k => (start - Z.of_nat k)%Z) (seq 0 (Z.to_nat (start - stop))).

Fixpoint for_each {S A} (body : S -> A -> result S) (l : list A) (st : S)
  : result S :=
  match l with
  | [] => Ok st
  | a :: l' => st' <- body st a ;; for_each body l' st'
  end.

Definition image_size : nat := 28 * 28 * 1.

(** One pass through the loop body of [generate]. *)
Definition generate_body (sch : schedule) (model : tensor -> list Z -> tensor)
    (batch_size : nat) (st : tensor * tf.generator) (t : Z)
  : result (tensor * tf.generator) :=
  let '(X, g) := st in
  let '(noise, g) :=
    if (1 <? t)%Z then tf.random_normal (tf.shape_of X) g
    else (tf.zeros (tf.shape_of X), g) in
  let X_noise := model X (repeat t batch_size) in
  a <- getitem (alpha sch) t ;;
  b <- getitem (beta sch) t ;;
  ac <- getitem (alpha_cumprod sch) t ;;
  d <- tf.sub X (tf.scale (b / sqrt (1 - ac)) X_noise) ;;
  a' <- getitem (alpha sch) t ;;
  X <- tf.add (tf.scale (1 / sqrt a) d) (tf.scale (sqrt (1 - a')) noise) ;;
  Ok (X, g).

(** The new [X] of one pass, operation by operation, for entries of the
    schedule already read. *)
Definition code_update (sch : schedule) (t : nat) (X X_noise noise : tensor)
  : tensor :=
  np.zip_with (np.zip_with Rplus)
    (tf.scale (1 / sqrt (alpha sch).[t])
       (np.zip_with (np.zip_with Rminus) X
          (tf.scale ((beta sch).[t] / sqrt (1 - (alpha_cumprod sch).[t]))
                    X_noise)))
    (tf.scale (sqrt (1 - (alpha sch).[t])) noise).

(** [T] and the schedule are globals of the notebook; the progress display
    is left out. *)
Definition generate (T : Z) (sch : schedule)
    (model : tensor -> list Z -> tensor) (batch_size : nat) (g : tf.generator)
  : result (tensor * tf.generator) :=
  let '(X, g) := tf.random_normal (repeat image_size batch_size) g in
  for_each (generate_body sch model batch_size) (range_down (T - 1) 0) (X, g).

(** *** The reverse sampler as the specification words it *)

(** The update [X <- (1/sqrt(alpha[t])) * (X - beta[t]/sqrt(1 - alpha_bar[t])
    * noise_pred) + sqrt(1 - alpha[t]) * z], entry by entry. *)
Definition spec_update (sch : schedule) (t : nat) (X noise_pred z : tensor)
  : tensor :=
  np.zip_with
    (np.zip_with (fun x ez =>
       1 / sqrt (alpha sch).[t]
       * (x - (beta sch).[t] / sqrt (1 - (alpha_cumprod sch).[t]) * fst ez)
       + sqrt (1 - (alpha sch).[t]) * snd ez))
    X (np.zip_with (@combine R R) noise_pred z).

(** Steps [t, t-1, ..., 1] of the state machine, from the state [X]. *)
Fixpoint spec_reverse (sch : schedule) (predict : tensor -> nat -> tensor)
    (t : nat) (st : tensor * tf.generator) : tensor * tf.generator :=
  match t with
  | O => st
  | S t' =>
      let '(X, g) := st in
      let '(z, g) :=
        if (1 <? t)%nat then tf.random_normal (tf.shape_of X) g
        else (tf.zeros (tf.shape_of X), g) in
      spec_reverse sch predict t' (spec_update sch t X (predict X t) z, g)
  end.

(** The product of [1/sqrt(alpha[t])] for [t = n, n-1, ..., 1]. *)
Fixpoint inv_sqrt_prod (a : list R) (n : nat) : R :=
  match n with
  | O => 1
  | S n' => inv_sqrt_prod a n' * (1 / sqrt a.[n])
  end.

(** ** Concrete instances used to exercise the theorems *)

Definition demo_generator : tf.generator :=
  tf.mkGenerator (fun k => INR k) (fun k => Z.of_nat k) 0.

(** A generator whose normal samples are all zero from position [n] on. *)
Definition quiet_generator (n : nat) : tf.generator :=
  tf.mkGenerator (fun k => if (k <? n)%nat then INR (S k) else 0)
                 (fun k => Z.of_nat k) 0.

Definition zero_model : tensor -> list Z -> tensor :=
  fun X _ => tf.zeros (tf.shape_of X).

(** ** The rest of the notebook *)

(** An index [tf.gather] rejects. *)
Definition bad_index (params : list R) (i : Z) : Prop :=
  (i < 0 \/ Z.of_nat (length params) <= i)%Z.

(** [tf.gather(params, indices)] on the rows of a matrix, as on the CPU. *)
Definition gather_rows (params : matrix) (indices : list Z) : result matrix :=
  mapM (fun i =>
          if (i <? 0)%Z then Raise InvalidArgumentError
          else match nth_error params (Z.to_nat i) with
               | Some row => Ok row
               | None => Raise InvalidArgumentError
               end) indices.

(** [TimeEncoding.call], on the table the constructor stored. *)
Definition TimeEncoding_call (time_encodings : matrix) (inputs : list Z)
  : result matrix :=
  gather_rows time_encodings inputs.

(** [TimeEncoding(T, embed_size)(time_input)], the layer built and applied
    as [build_diffusion_model] does. *)
Definition time_enc (T embed_size : Z) (time_input : list Z) : result matrix :=
  layer <- TimeEncoding T embed_size ;;
  TimeEncoding_call layer time_input.

(** The squared Euclidean norm of a vector. *)
Definition sum_sq (v : list R) : R := fold_right (fun x acc => x * x + acc) 0 v.

(** *** Plotting a grid of images *)

(** [n_cols or len(images)]: [None] and 0 are falsy. *)
Definition or_len (n_cols : option Z) (n : Z) : Z :=
  match n_cols with
  | Some c => if (c =? 0)%Z then n else c
  | None => n
  end.

(** [a // b] on integers; [None] stands for [ZeroDivisionError]. *)
Definition floordiv (a b : Z) : option Z :=
  if (b =? 0)%Z then None else Some (a / b)%Z.

(** [enumerate(l)]. *)
Definition enumerate {A} (l : list A) : list (Z * A) :=
  combine (np.arange (Z.of_nat (length l))) l.

(** A figure: the grid asked of [plt.subplot] and, in order, the cell each
    image was drawn in. *)
Record figure (A : Type) : Type := mkFigure {
  n_rows : Z;
  n_cols : Z;
  subplots : list (Z * A)
}.
Arguments mkFigure {A} n_rows n_cols subplots.
Arguments n_rows {A} f.
Arguments n_cols {A} f.
Arguments subplots {A} f.

(** [plot_multiple_images]: the layout it computes and the calls
    [plt.subplot(n_rows, n_cols, index + 1)] it makes; the drawing and the
    display are left out.  [None] stands for [ZeroDivisionError].  A
    negative [n_cols], which [plt.figure] rejects with [ValueError], is
    outside the model: the layout is computed all the same. *)
Definition plot_multiple_images {A} (images : list A) (n_cols : option Z)
  : option (figure A) :=
  let n_cols := or_len n_cols (Z.of_nat (length images)) in
  match floordiv (Z.of_nat (length images) - 1) n_cols with
  | None => None
  | Some q =>
      let n_rows := (q + 1)%Z in
      Some (mkFigure n_rows n_cols
              (map (fun ii => ((fst ii + 1)%Z, snd ii)) (enumerate images)))
  end.

(** *** The input pipeline

    A dataset is the list of the elements one pass over it yields. *)

Definition remove_at {A} (i : nat) (l : list A) : list A :=
  firstn i l ++ skipn (S i) l.

Definition replace_at {A} (i : nat) (x : A) (l : list A) : list A :=
  firstn i l ++ x :: skipn (S i) l.

(** [Dataset.shuffle(buffer_size)] as documented: a buffer is filled with
    the first [buffer_size] elements; each element yielded is picked at
    random from the buffer and replaced there by the next element of the
    input, while there is one.  The random position is a raw word of the
    generator reduced modulo the number of elements in the buffer. *)
Fixpoint shuffle_emit {A} (n : nat) (buffer rest : list A) (g : tf.generator)
  : list A * tf.generator :=
  match n with
  | O => ([], g)
  | S n' =>
      match buffer with
      | [] => ([], g)
      | d :: _ =>
          let i := Z.to_nat (tf.uniform_src g (tf.pos g)
                             mod Z.of_nat (length buffer)) in
          let x := nth i buffer d in
          let buffer' :=
            match rest with
            | r :: _ => replace_at i r buffer
            | [] => remove_at i buffer
            end in
          let '(out, g') := shuffle_emit n' buffer' (tl rest) (tf.advance 1 g) in
          (x :: out, g')
      end
  end.

Definition dataset_shuffle {A} (buffer_size : nat) (ds : list A)
    (g : tf.generator) : list A * tf.generator :=
  shuffle_emit (length ds) (firstn buffer_size ds) (skipn buffer_size ds) g.

(** [Dataset.batch(batch_size)]: consecutive groups of [batch_size]
    elements, the last one possibly smaller; [batch_size] must be
    positive. *)
Fixpoint batch_from {A} (fuel batch_size : nat) (ds : list A) : list (list A) :=
  match fuel with
  | O => []
  | S fuel' =>
      match ds with
      | [] => []
      | _ :: _ =>
          firstn batch_size ds :: batch_from fuel' batch_size (skipn batch_size ds)
      end
  end.

Definition dataset_batch {A} (batch_size : Z) (ds : list A)
  : result (list (list A)) :=
  if (batch_size <=? 0)%Z then Raise InvalidArgumentError
  else Ok (batch_from (length ds) (Z.to_nat batch_size) ds).

(** [Dataset.map(f)] for an [f] that draws random numbers. *)
Fixpoint dataset_map {A B} (f : A -> tf.generator -> result (B * tf.generator))
    (ds : list A) (g : tf.generator) : result (list B * tf.generator) :=
  match ds with
  | [] => Ok ([], g)
  | a :: ds' =>
      '(b, g) <- f a g ;;
      '(bs, g) <- dataset_map f ds' g ;;
      Ok (b :: bs, g)
  end.

(** [prepare_dataset]: one pass over the dataset it returns ([prefetch]
    changes no element).  [T] and [alpha_cumprod] are globals of the
    notebook. *)
Definition prepare_dataset (T : Z) (alpha_cumprod : list R)
    (X : tensor) (batch_size : Z) (shuffle : bool) (g : tf.generator)
  : result (list (noisy_batch * tensor) * tf.generator) :=
  let ds := X in
  let '(ds, g) :=
    if shuffle then dataset_shuffle (Z.to_nat 10000) ds g else (ds, g) in
  batches <- dataset_batch batch_size ds ;;
  dataset_map (prepare_batch T alpha_cumprod) batches g.

(** What the notebook does with a batch it takes from the dataset:
    [subtract_noise(X_dict["X_noisy"], X_dict["time"], Y_noise)]. *)
Definition recover (alpha_cumprod : list R) (element : noisy_batch * tensor)
  : result tensor :=
  subtract_noise alpha_cumprod (X_noisy (fst element)) (time (fst element))
                 (snd element).

(** An element of the dataset that is the batch [X] with noise blended in
    at steps of [1..T]. *)
Definition noised_from (alpha_cumprod : list R) (T : Z) (X : tensor)
    (element : noisy_batch * tensor) : Prop :=
  X_noisy (fst element)
  = blend (map (fun i => alpha_cumprod.[Z.to_nat i]) (time (fst element)))
          (scale_pixels X) (snd element)
  /\ length (time (fst element)) = length X
  /\ Forall (fun ti => (1 <= ti <= T)%Z) (time (fst element))
  /\ tf.shape_of (snd element) = tf.shape_of X.

(** *** Loading the images *)

(** [X.astype(np.float32) / 255] on images of bytes. *)
Definition to_unit_range (X : list (list Z)) : tensor :=
  map (map (fun p => IZR p / 255)) X.

(** [a[:-k]] and [a[-k:]] for [k > 0]. *)
Definition slice_to_neg {A} (k : nat) (a : list A) : list A :=
  firstn (length a - k) a.
Definition slice_from_neg {A} (k : nat) (a : list A) : list A :=
  skipn (length a - k) a.

(** The cell that loads the data: the training images rescaled and split
    into a training and a validation part, with their labels. *)
Record dataset := mkDataset {
  X_train : tensor;
  X_valid : tensor;
  y_train : list Z;
  y_valid : list Z
}.

Definition load_data (X_train_full : list (list Z)) (y_train_full : list Z)
  : dataset :=
  let X_train_full := to_unit_range X_train_full in
  mkDataset (slice_to_neg 5000 X_train_full) (slice_from_neg 5000 X_train_full)
            (slice_to_neg 5000 y_train_full) (slice_from_neg 5000 y_train_full).

(** *** Building the network

    [build_diffusion_model] creates the layers and wires them on symbolic
    tensors.  Apart from the freshly initialised weights, what it computes
    is the shape of every tensor on the way, and it fails where a layer
    rejects the shape it is given.  A symbolic batch of images
    [[None, height, width, channels]] is kept as its three static
    dimensions, a symbolic batch of vectors [[None, n]] as [n]. *)
Record image_shape := mkShape { height : Z; width : Z; channels : Z }.

(** The model returned: the shape of its image input (the other input is a
    batch of integers) and of its output. *)
Record keras_model := mkModel { X_noisy_input : image_shape;
                                outputs : image_shape }.

Module layers.

Inductive padding := valid | same.

(** Size of a convolved or pooled dimension. *)
Definition output_size (n kernel_size strides : Z) (p : padding) : Z :=
  match p with
  | valid => (n - kernel_size) / strides + 1
  | same => (n + strides - 1) / strides
  end%Z.

Definition window (kernel_size strides : Z) (p : padding) (filters : Z)
    (x : image_shape) : result image_shape :=
  let h := output_size (height x) kernel_size strides p in
  let w := output_size (width x) kernel_size strides p in
  if ((h <=? 0) || (w <=? 0))%Z then Raise ValueError
  else Ok (mkShape h w filters).

Definition Conv2D (filters kernel_size strides : Z) (p : padding)
  : image_shape -> result image_shape :=
  window kernel_size strides p filters.

Definition SeparableConv2D (filters kernel_size : Z) (p : padding)
  : image_shape -> result image_shape :=
  window kernel_size 1 p filters.

Definition MaxPooling2D (pool_size strides : Z) (p : padding)
    (x : image_shape) : result image_shape :=
  window pool_size strides p (channels x) x.

(** [Conv2DTranspose(filters, kernel_size, padding="same")] with the
    default stride 1. *)
Definition Conv2DTranspose (filters kernel_size : Z) (x : image_shape)
  : image_shape :=
  mkShape (height x) (width x) filters.

Definition ZeroPadding2D (pad : Z * Z) (x : image_shape) : image_shape :=
  mkShape (height x + 2 * fst pad) (width x + 2 * snd pad) (channels x).

Definition UpSampling2D (size : Z) (x : image_shape) : image_shape :=
  mkShape (size * height x) (size * width x) (channels x).

Definition BatchNormalization (x : image_shape) : image_shape := x.
Definition Activation (name : string) (x : image_shape) : image_shape := x.

(** [Dense(units)] on a batch of vectors. *)
Definition Dense (units : Z) (x : Z) : Z := units.

(** Two dimensions broadcast when they agree or one of them is 1. *)
Definition broadcast_dim (i j : Z) : result Z :=
  if (i =? 1)%Z then Ok j
  else if ((j =? 1) || (i =? j))%Z then Ok i
  else Raise ValueError.

Definition broadcast (a b : image_shape) : result image_shape :=
  h <- broadcast_dim (height a) (height b) ;;
  w <- broadcast_dim (width a) (width b) ;;
  c <- broadcast_dim (channels a) (channels b) ;;
  Ok (mkShape h w c).

(** [add([a, b])]. *)
Definition add (a b : image_shape) : result image_shape := broadcast a b.

(** [concatenate([a, b], axis=-1)]. *)
Definition concatenate (a b : image_shape) : result image_shape :=
  if ((height a =? height b) && (width a =? width b))%Z
  then Ok (mkShape (height a) (width a) (channels a + channels b))
  else Raise ValueError.

End layers.

(** [time[:, tf.newaxis, tf.newaxis, :] + Z]. *)
Definition add_to_every_pixel (time : Z) (z : image_shape)
  : result image_shape :=
  layers.broadcast (mkShape 1 1 time) z.

(** [Z[:, 2:-2, 2:-2]]. *)
Definition crop (z : image_shape) : image_shape :=
  mkShape (Z.max 0 (height z - 4)) (Z.max 0 (width z - 4)) (channels z).

(** The state the two loops of [build_diffusion_model] carry: [Z], [skip]
    and the stack [cross_skips]. *)
Definition unet_state : Type := image_shape * image_shape * list image_shape.

(** [cross_skips.pop()]. *)
Definition pop (cross_skips : list image_shape)
  : result (image_shape * list image_shape) :=
  match rev cross_skips with
  | [] => Raise IndexError
  | last :: rest => Ok (last, rev rest)
  end.

(** The body of [for dim in (32, 64, 128)]. *)
Definition down_block (time_enc : Z) (st : unet_state) (dim : Z)
  : result unet_state :=
  let '(z, skip, cross_skips) := st in
  let z := layers.Activation "relu" z in
  z <- layers.SeparableConv2D dim 3 layers.same z ;;
  let z := layers.BatchNormalization z in
  let z := layers.Activation "relu" z in
  z <- layers.SeparableConv2D dim 3 layers.same z ;;
  let z := layers.BatchNormalization z in
  let cross_skips := cross_skips ++ [z] in
  z <- layers.MaxPooling2D 3 2 layers.same z ;;
  skip_link <- layers.Conv2D dim 1 2 layers.same skip ;;
  z <- layers.add z skip_link ;;
  let time := layers.Dense dim time_enc in
  z <- add_to_every_pixel time z ;;
  let skip := z in
  Ok (z, skip, cross_skips).

(** The body of [for dim in (64, 32, 16)]. *)
Definition up_block (time_enc : Z) (st : unet_state) (dim : Z)
  : result unet_state :=
  let '(z, skip, cross_skips) := st in
  let z := layers.Activation "relu" z in
  let z := layers.Conv2DTranspose dim 3 z in
  let z := layers.BatchNormalization z in
  let z := layers.Activation "relu" z in
  let z := layers.Conv2DTranspose dim 3 z in
  let z := layers.BatchNormalization z in
  let z := layers.UpSampling2D 2 z in
  let skip_link := layers.UpSampling2D 2 skip in
  skip_link <- layers.Conv2D dim 1 1 layers.same skip_link ;;
  z <- layers.add z skip_link ;;
  let time := layers.Dense dim time_enc in
  z <- add_to_every_pixel time z ;;
  '(crossed, cross_skips) <- pop cross_skips ;;
  z <- layers.concatenate z crossed ;;
  let skip := z in
  Ok (z, skip, cross_skips).

(** [build_diffusion_model()]; [T] and [embed_size] are globals of the
    notebook.  The time-encoding layer is constructed, table and all, and
    applied to the symbolic batch of steps, which gives [[None,
    embed_size]]. *)
Definition build_diffusion_model (T embed_size : Z) : result keras_model :=
  let X_noisy := mkShape 28 28 1 in
  layer <- TimeEncoding T embed_size ;;
  let time_enc := embed_size in
  let dim := 16%Z in
  let z := layers.ZeroPadding2D (3, 3)%Z X_noisy in
  z <- layers.Conv2D dim 3 1 layers.valid z ;;
  let z := layers.BatchNormalization z in
  let z := layers.Activation "relu" z in
  let time := layers.Dense dim time_enc in
  z <- add_to_every_pixel time z ;;
  let skip := z in
  let cross_skips := [] in
  st <- for_each (down_block time_enc) [32; 64; 128]%Z (z, skip, cross_skips) ;;
  '(z, _, _) <- for_each (up_block time_enc) [64; 32; 16]%Z st ;;
  z <- layers.Conv2D 1 3 1 layers.same z ;;
  let outputs := crop z in
  Ok (mkModel X_noisy outputs).

(** ** The embedding on small inputs *)

Example range_down_3 : range_down 3 0 = [3; 2; 1]%Z.
Proof. reflexivity. Qed.

Example range_down_empty : range_down 0 0 = [] /\ range_down (-1) 0 = [].
Proof. split; reflexivity. Qed.

Example arange_3 : np.arange 3 = [0; 1; 2]%Z /\ np.arange (-2) = [].
Proof. split; reflexivity. Qed.

Example cumprod_3 (a b c : R) : np.cumprod [a; b; c] = [a; a * b; a * b * c].
Proof. reflexivity. Qed.

Example getitem_ends (a b c : R) :
  getitem [a; b; c] (-1) = Ok c /\ getitem [a; b; c] 3 = Raise IndexError.
Proof. split; reflexivity. Qed.

Example gather_positions (a b : R) :
  tf.gather [a; b] [1; 0]%Z = Ok [b; a]
  /\ tf.gather [a; b] [2]%Z = Raise InvalidArgumentError.
Proof. split; reflexivity. Qed.

Example meshgrid_3_2 :
  npm.meshgrid [0; 1; 2]%Z [0; 2]%Z
  = ([[0; 1; 2]; [0; 1; 2]]%Z, [[0; 0; 0]; [2; 2; 2]]%Z).
Proof. reflexivity. Qed.

Example random_uniform_demo :
  exists g,
    tf.random_uniform 4 1 (3 + 1) demo_generator = Ok ([1; 2; 3; 1]%Z, g).
Proof. eexists. reflexivity. Qed.

Example TimeEncoding_1_2 :
  TimeEncoding 1 2
  = Ok [[sin (0 / Rpower 10000 (0 / 2)); cos (0 / Rpower 10000 (0 / 2))];
        [sin (1 / Rpower 10000 (0 / 2)); cos (1 / Rpower 10000 (0 / 2))]].
Proof. reflexivity. Qed.

Example TimeEncoding_negative_rows : TimeEncoding (-2) 64 = Raise ValueError.
Proof. reflexivity. Qed.

Example generate_T1 sch model g :
  generate 1 sch model 2 g = Ok (tf.random_normal (repeat image_size 2) g).
Proof. unfold generate. destruct (tf.random_normal _ g). reflexivity. Qed.

(** ** Lists: positions through slices and element-wise operations *)

Section ListFacts.

Context {A B C : Type}.

Lemma length_zip_with (f : A -> B -> C) xs ys :
  length (np.zip_with f xs ys) = Nat.min (length xs) (length ys).
Proof.
  revert ys; induction xs as [|x xs IH]; intros [|y ys]; simpl; auto.
Qed.

Lemma nth_zip_with (f : A -> B -> C) xs ys k da db dc :
  (k < length xs)%nat -> (k < length ys)%nat ->
  nth k (np.zip_with f xs ys) dc = f (nth k xs da) (nth k ys db).
Proof.
  revert ys k; induction xs as [|x xs IH]; intros [|y ys] [|k];
    simpl; intros; try lia; auto.
  apply IH; lia.
Qed.

Lemma nth_tl (l : list A) k d : nth k (tl l) d = nth (S k) l d.
Proof. destruct l; simpl; auto. destruct k; auto. Qed.

Lemma length_removelast (l : list A) :
  length (removelast l) = (length l - 1)%nat.
Proof.
  induction l as [|a [|b l] IH]; simpl in *; auto. rewrite IH. lia.
Qed.

Lemma nth_removelast (l : list A) k d :
  (S k < length l)%nat -> nth k (removelast l) d = nth k l d.
Proof.
  revert k; induction l as [|a [|b l] IH]; intros k H; simpl in *; try lia.
  destruct k; auto. apply IH. lia.
Qed.

Lemma length_tl (l : list A) : length (tl l) = (length l - 1)%nat.
Proof. destruct l; simpl; lia. Qed.

End ListFacts.

Lemma length_arange n : length (np.arange n) = Z.to_nat n.
Proof. unfold np.arange. now rewrite length_map, length_seq. Qed.

Lemma nth_arange n k d :
  (k < Z.to_nat n)%nat -> nth k (np.arange n) d = Z.of_nat k.
Proof.
  intros H. unfold np.arange.
  rewrite (nth_indep _ d (Z.of_nat 0)) by now rewrite length_map, length_seq.
  rewrite map_nth, seq_nth by assumption. reflexivity.
Qed.

(** ** Running products *)

Lemma length_cumprod_from acc l : length (np.cumprod_from acc l) = length l.
Proof. revert acc; induction l; simpl; auto. Qed.

Lemma length_cumprod l : length (np.cumprod l) = length l.
Proof. destruct l; simpl; auto using length_cumprod_from. Qed.

Lemma cumprod_from_step acc l k :
  (k < length l)%nat ->
  (np.cumprod_from acc l).[k] = (acc :: np.cumprod_from acc l).[k] * l.[k].
Proof.
  revert acc k; induction l as [|a l IH]; intros acc k H; simpl in H; [lia|].
  destruct k as [|k]; [reflexivity|].
  change ((np.cumprod_from (acc * a) l).[k]
          = (acc * a :: np.cumprod_from (acc * a) l).[k] * l.[k]).
  apply IH. lia.
Qed.

(** The defining recurrence of the running product. *)
Lemma cumprod_step l t :
  (1 <= t < length l)%nat ->
  (np.cumprod l).[t] = (np.cumprod l).[t - 1] * l.[t].
Proof.
  destruct l as [|a l]; simpl; [lia|]. intros [H1 H2].
  destruct t as [|t]; [lia|]. replace (S t - 1)%nat with t by lia.
  change ((np.cumprod_from a l).[t] = (a :: np.cumprod_from a l).[t] * l.[t]).
  apply cumprod_from_step. lia.
Qed.

Lemma cumprod_head l : (0 < length l)%nat -> (np.cumprod l).[0] = l.[0].
Proof. destruct l; simpl; [lia|reflexivity]. Qed.

Lemma cumprod_unit_interval l :
  Forall unit_interval l ->
  forall t, (t < length l)%nat -> unit_interval (np.cumprod l).[t].
Proof.
  intros Hl t. induction t as [|t IH]; intros Ht.
  - rewrite cumprod_head by lia.
    eapply Forall_forall; [exact Hl|]. apply nth_In; lia.
  - rewrite cumprod_step by lia. replace (S t - 1)%nat with t by lia.
    assert (Ha : unit_interval l.[S t]).
    { eapply Forall_forall; [exact Hl|]. apply nth_In; lia. }
    specialize (IH ltac:(lia)). unfold unit_interval in *. nra.
Qed.

Lemma cumprod_step_le l :
  Forall unit_interval l ->
  forall t, (S t < length l)%nat -> (np.cumprod l).[S t] <= (np.cumprod l).[t].
Proof.
  intros Hl t Ht. rewrite cumprod_step by lia.
  replace (S t - 1)%nat with t by lia.
  assert (Ha : unit_interval l.[S t]).
  { eapply Forall_forall; [exact Hl|]. apply nth_In; lia. }
  pose proof (cumprod_unit_interval l Hl t ltac:(lia)) as Hc.
  unfold unit_interval in *. nra.
Qed.

Lemma cumprod_antitone l :
  Forall unit_interval l ->
  forall i j, (i <= j < length l)%nat -> (np.cumprod l).[j] <= (np.cumprod l).[i].
Proof.
  intros Hl i j [Hij Hj]. induction Hij as [|j Hij IH]; [lra|].
  eapply Rle_trans; [apply cumprod_step_le; auto|]. apply IH. lia.
Qed.

(** ** Clipping *)

Lemma clip_bounds x lo hi : lo <= hi -> lo <= np.clip x lo hi <= hi.
Proof.
  intros H. unfold np.clip, Rmin, Rmax.
  destruct (Rle_dec x lo); destruct (Rle_dec _ hi); lra.
Qed.

Lemma clip_id x lo hi : lo <= x <= hi -> np.clip x lo hi = x.
Proof.
  intros H. unfold np.clip, Rmin, Rmax.
  destruct (Rle_dec x lo); destruct (Rle_dec _ hi); lra.
Qed.

Lemma clip_lt_hi x lo hi : lo < hi -> x < hi -> np.clip x lo hi < hi.
Proof.
  intros H1 H2. unfold np.clip, Rmin, Rmax.
  destruct (Rle_dec x lo); destruct (Rle_dec _ hi); lra.
Qed.

(** ** The schedules, entry by entry *)

Lemma Forall_nth_unit l t :
  Forall unit_interval l -> (t < length l)%nat -> unit_interval l.[t].
Proof. intros Hl Ht. eapply Forall_forall; [exact Hl|]. now apply nth_In. Qed.

Section ScheduleEntries.

Variables (T : Z) (s max_beta : R).

Lemma variance_schedule_lengths :
  let sch := variance_schedule T s max_beta in
  length (alpha sch) = S (Z.to_nat T)
  /\ length (alpha_cumprod sch) = S (Z.to_nat T)
  /\ length (beta sch) = S (Z.to_nat T).
Proof.
  assert (H : length (alpha (variance_schedule T s max_beta)) = S (Z.to_nat T)).
  { cbn [variance_schedule alpha np.append length]. f_equal.
    rewrite length_map, length_zip_with.
    unfold slice_from_1, slice_to_last.
    rewrite length_tl, length_removelast, length_map, length_arange. lia. }
  cbn zeta. repeat split; [exact H| |].
  - cbn [variance_schedule alpha_cumprod]. rewrite length_cumprod. exact H.
  - cbn [variance_schedule beta]. rewrite length_map. exact H.
Qed.

Lemma linear_schedule_lengths :
  let sch := linear_schedule T s max_beta in
  length (alpha sch) = S (Z.to_nat (T + 1))
  /\ length (alpha_cumprod sch) = S (Z.to_nat (T + 1))
  /\ length (beta sch) = S (Z.to_nat (T + 1)).
Proof.
  assert (H : length (alpha (linear_schedule T s max_beta))
              = S (Z.to_nat (T + 1))).
  { cbn [linear_schedule alpha np.append length]. f_equal.
    now rewrite !length_map, length_arange. }
  cbn zeta. repeat split; [exact H| |].
  - cbn [linear_schedule alpha_cumprod]. rewrite length_cumprod. exact H.
  - cbn [linear_schedule beta]. rewrite length_map. exact H.
Qed.

(** [alpha[0] = 1] and [alpha[t] = clip(f[t] / f[t-1], 1 - max_beta, 1)]. *)
Lemma variance_schedule_alpha_0 :
  (alpha (variance_schedule T s max_beta)).[0] = 1.
Proof. reflexivity. Qed.

Lemma variance_schedule_alpha_S k :
  (k < Z.to_nat T)%nat ->
  (alpha (variance_schedule T s max_beta)).[S k]
  = np.clip (cos_f T s (Z.of_nat (S k)) / cos_f T s (Z.of_nat k))
            (1 - max_beta) 1.
Proof.
  intros Hk. cbn [variance_schedule alpha np.append nth].
  set (f := map (cos_f T s) (np.arange (T + 1))).
  assert (Hf : length f = S (Z.to_nat T)).
  { unfold f. rewrite length_map, length_arange. lia. }
  assert (Hn : forall j, (j <= Z.to_nat T)%nat -> f.[j] = cos_f T s (Z.of_nat j)).
  { intros j Hj. unfold f.
    rewrite (nth_indep _ 0 (cos_f T s 0%Z))
      by (rewrite length_map, length_arange; lia).
    rewrite map_nth, nth_arange by lia. reflexivity. }
  set (g := fun x => np.clip x (1 - max_beta) 1).
  rewrite (nth_indep _ 0 (g 0)).
  2:{ rewrite length_map, length_zip_with. unfold slice_from_1, slice_to_last.
      rewrite length_tl, length_removelast, Hf. lia. }
  rewrite map_nth. unfold g. f_equal.
  unfold slice_from_1, slice_to_last.
  rewrite (nth_zip_with Rdiv _ _ k 0 0 0)
    by (rewrite ?length_tl, ?length_removelast, Hf; lia).
  rewrite nth_tl, nth_removelast by (rewrite Hf; lia).
  rewrite !Hn by lia. reflexivity.
Qed.

(** The linear policy stores [f[k]] at position [k + 1]: the clipped array
    already has an entry for [t = 0] when the leading [1] is prepended. *)
Lemma linear_schedule_alpha_S k :
  (k <= Z.to_nat T)%nat -> (0 <= T)%Z ->
  (alpha (linear_schedule T s max_beta)).[S k]
  = np.clip (lin_f T (Z.of_nat k)) (1 - max_beta) 1.
Proof.
  intros Hk HT. cbn [linear_schedule alpha np.append nth].
  set (g := fun x => np.clip x (1 - max_beta) 1).
  rewrite (nth_indep _ 0 (g (lin_f T 0%Z)))
    by (rewrite !length_map, length_arange; lia).
  rewrite map_nth. unfold g. f_equal.
  rewrite map_nth, nth_arange by lia. reflexivity.
Qed.

Lemma schedule_beta_nth (sch : schedule) t :
  beta sch = map (fun a => 1 - a) (alpha sch) ->
  (t < length (alpha sch))%nat -> (beta sch).[t] = 1 - (alpha sch).[t].
Proof.
  intros -> Ht. rewrite (nth_indep _ 0 (1 - 0)) by now rewrite length_map.
  now rewrite (map_nth (fun a => 1 - a)).
Qed.

Hypothesis max_beta_range : 0 < max_beta < 1.

Lemma variance_schedule_alpha_unit :
  Forall unit_interval (alpha (variance_schedule T s max_beta)).
Proof.
  cbn [variance_schedule alpha np.append]. constructor.
  - unfold unit_interval; lra.
  - apply Forall_forall. intros x Hx. apply in_map_iff in Hx.
    destruct Hx as [y [<- _]].
    pose proof (clip_bounds y (1 - max_beta) 1 ltac:(lra)).
    unfold unit_interval; lra.
Qed.

Lemma linear_schedule_alpha_unit :
  Forall unit_interval (alpha (linear_schedule T s max_beta)).
Proof.
  cbn [linear_schedule alpha np.append]. constructor.
  - unfold unit_interval; lra.
  - apply Forall_forall. intros x Hx. apply in_map_iff in Hx.
    destruct Hx as [y [<- _]].
    pose proof (clip_bounds y (1 - max_beta) 1 ltac:(lra)).
    unfold unit_interval; lra.
Qed.

End ScheduleEntries.

(** What the three invariants of a running product come to, for any array
    of factors in (0, 1] that starts with 1. *)
Lemma cumprod_invariants (a : list R) :
  Forall unit_interval a -> a.[0] = 1 -> (0 < length a)%nat ->
  (np.cumprod a).[0] = 1
  /\ (forall t, (1 <= t < length a)%nat ->
        (np.cumprod a).[t] = (np.cumprod a).[t - 1] * a.[t])
  /\ (forall i j, (i <= j < length a)%nat ->
        (np.cumprod a).[j] <= (np.cumprod a).[i])
  /\ (forall t, (t < length a)%nat -> 0 < (np.cumprod a).[t] <= 1).
Proof.
  intros Hu H0 Hlen. repeat split.
  - now rewrite cumprod_head.
  - intros t Ht. now apply cumprod_step.
  - intros i j Hij. now apply cumprod_antitone.
  - now apply cumprod_unit_interval.
  - now apply cumprod_unit_interval.
Qed.

(** ** The cosine ramp is positive and strictly decreasing *)

Section CosineRamp.

Variables (T : Z) (s : R).
Hypothesis T_pos : (1 <= T)%Z.
Hypothesis s_nonneg : 0 <= s.

Lemma cos_f_angle t : cos_f T s t = cos (cos_angle T s t) ^ 2.
Proof. reflexivity. Qed.

Lemma cos_angle_lt t u :
  (0 <= t < u)%Z -> (u <= T)%Z -> 0 <= cos_angle T s t < cos_angle T s u /\ cos_angle T s u <= PI / 2.
Proof.
  intros [H0 Htu] HuT. unfold cos_angle.
  assert (HT : 0 < IZR T) by (apply IZR_lt; lia).
  assert (Ht0 : 0 <= IZR t) by (apply IZR_le; lia).
  assert (Htu' : IZR t < IZR u) by (apply IZR_lt; lia).
  assert (HuT' : IZR u <= IZR T) by (apply IZR_le; lia).
  assert (Hi : 0 < / IZR T) by now apply Rinv_0_lt_compat.
  assert (Hs : 0 < / (1 + s)) by (apply Rinv_0_lt_compat; lra).
  assert (Ha : 0 <= IZR t / IZR T) by (unfold Rdiv; nra).
  assert (Hb : IZR t / IZR T < IZR u / IZR T) by (unfold Rdiv; nra).
  assert (Hc : IZR u / IZR T <= 1).
  { apply (Rmult_le_reg_r (IZR T)); [lra|]. unfold Rdiv.
    rewrite Rmult_assoc, Rinv_l by lra. lra. }
  set (x := IZR t / IZR T) in *. set (y := IZR u / IZR T) in *.
  assert (Hx : 0 <= (x + s) / (1 + s)) by (unfold Rdiv; nra).
  assert (Hxy : (x + s) / (1 + s) < (y + s) / (1 + s)) by (unfold Rdiv; nra).
  assert (Hy : (y + s) / (1 + s) <= 1).
  { apply (Rmult_le_reg_r (1 + s)); [lra|]. unfold Rdiv.
    rewrite Rmult_assoc, Rinv_l by lra. lra. }
  pose proof PI_RGT_0 as Hpi.
  repeat split; nra.
Qed.

Lemma cos_f_pos t : (0 <= t < T)%Z -> 0 < cos_f T s t.
Proof.
  intros Ht. destruct (cos_angle_lt t (t + 1)) as [[H1 H2] H3]; try lia.
  rewrite cos_f_angle. pose proof PI_RGT_0 as Hpi.
  assert (0 < cos (cos_angle T s t)) by (apply cos_gt_0; lra).
  nra.
Qed.

Lemma cos_f_decreasing t u :
  (0 <= t < u)%Z -> (u <= T)%Z -> cos_f T s u < cos_f T s t.
Proof.
  intros Htu HuT. destruct (cos_angle_lt t u) as [[H1 H2] H3]; try lia.
  rewrite !cos_f_angle. pose proof PI_RGT_0 as Hpi.
  assert (Hu : 0 <= cos (cos_angle T s u)) by (apply cos_ge_0; lra).
  assert (Hd : cos (cos_angle T s u) < cos (cos_angle T s t))
    by (apply cos_decreasing_1; lra).
  nra.
Qed.

(** Every quotient [f[t] / f[t-1]] the cosine policy forms has a positive
    divisor and is below 1. *)
Lemma cos_f_ratio k :
  (k < Z.to_nat T)%nat ->
  0 < cos_f T s (Z.of_nat k)
  /\ cos_f T s (Z.of_nat (S k)) / cos_f T s (Z.of_nat k) < 1.
Proof.
  intros Hk.
  assert (Hp : 0 < cos_f T s (Z.of_nat k)) by (apply cos_f_pos; lia).
  split; [exact Hp|].
  assert (Hd : cos_f T s (Z.of_nat (S k)) < cos_f T s (Z.of_nat k))
    by (apply cos_f_decreasing; lia).
  apply (Rmult_lt_reg_r (cos_f T s (Z.of_nat k))); [exact Hp|].
  unfold Rdiv. rewrite Rmult_assoc, Rinv_l by lra. lra.
Qed.

End CosineRamp.

(** The cosine schedule of one step, [variance_schedule(1, 0, 0.5)]:
    [f = [1, 0]], so the single ratio is clipped up to [1 - max_beta]. *)
Example variance_schedule_T1 :
  variance_schedule 1 0 (1 / 2) = mkSchedule [1; 1 / 2] [1; 1 / 2] [0; 1 / 2].
Proof.
  assert (H0 : cos_f 1 0 0 = 1).
  { unfold cos_f, cos_angle.
    replace ((0 / 1 + 0) / (1 + 0) * PI / 2) with 0 by field.
    rewrite cos_0. ring. }
  assert (H1 : cos_f 1 0 1 = 0).
  { unfold cos_f, cos_angle.
    replace ((1 / 1 + 0) / (1 + 0) * PI / 2) with (PI / 2) by field.
    rewrite cos_PI2. ring. }
  assert (Hc : np.clip (cos_f 1 0 1 / cos_f 1 0 0) (1 - 1 / 2) 1 = 1 / 2).
  { rewrite H0, H1. unfold np.clip, Rmin, Rmax.
    destruct (Rle_dec (0 / 1) (1 - 1 / 2)); destruct (Rle_dec _ 1); lra. }
  unfold variance_schedule. change (np.arange (1 + 1)) with [0; 1]%Z.
  cbn [map slice_from_1 slice_to_last tl removelast np.zip_with np.append
       np.cumprod np.cumprod_from].
  rewrite Hc.
  f_equal; repeat (apply (f_equal2 cons); [lra|]); reflexivity.
Qed.

(** ** Positions read by Python indexing and visited by the loop *)

Lemma getitem_in_range (a : list R) (t : Z) :
  (0 <= t < Z.of_nat (length a))%Z -> getitem a t = Ok a.[Z.to_nat t].
Proof.
  intros Ht. unfold getitem.
  destruct (Z.ltb_spec t 0); [lia|].
  destruct (Z.leb_spec 0 t); [|lia].
  destruct (Z.ltb_spec t (Z.of_nat (length a))); [|lia]. reflexivity.
Qed.

Lemma range_down_In (start stop t : Z) :
  In t (range_down start stop) <-> (stop < t <= start)%Z.
Proof.
  unfold range_down. rewrite in_map_iff. split.
  - intros [k [<- Hk]]. apply in_seq in Hk. lia.
  - intros Ht. exists (Z.to_nat (start - t)). split; [lia|].
    apply in_seq. lia.
Qed.

Lemma range_down_S (start stop : Z) :
  (stop < start)%Z ->
  range_down start stop = start :: range_down (start - 1) stop.
Proof.
  intros H. unfold range_down.
  replace (Z.to_nat (start - stop)) with (S (Z.to_nat (start - 1 - stop))) by lia.
  cbn [seq map]. f_equal; [lia|].
  rewrite <- seq_shift, map_map. apply map_ext. intros k. lia.
Qed.

Lemma range_down_nil (start stop : Z) :
  (start <= stop)%Z -> range_down start stop = [].
Proof.
  intros H. unfold range_down.
  replace (Z.to_nat (start - stop)) with 0%nat by lia. reflexivity.
Qed.

(** ** Properties of the schedules *)

Lemma variance_schedule_alpha_bar_lt_1 (T : Z) (s max_beta : R) :
  (1 <= T)%Z -> 0 <= s -> 0 < max_beta < 1 ->
  forall t, (1 <= t <= Z.to_nat T)%nat ->
    (alpha_cumprod (variance_schedule T s max_beta)).[t] < 1.
Proof.
  intros HT Hs Hb t Ht.
  pose proof (variance_schedule_lengths T s max_beta) as [Hla _].
  cbn zeta in Hla.
  pose proof (variance_schedule_alpha_unit T s max_beta Hb) as Hu.
  change (alpha_cumprod (variance_schedule T s max_beta))
    with (np.cumprod (alpha (variance_schedule T s max_beta))).
  set (a := alpha (variance_schedule T s max_beta)) in *.
  apply Rle_lt_trans with (np.cumprod a).[1].
  - apply cumprod_antitone; [assumption|lia].
  - rewrite cumprod_step by lia. cbn [Nat.sub].
    rewrite cumprod_head by lia. unfold a.
    rewrite variance_schedule_alpha_0, variance_schedule_alpha_S by lia.
    destruct (cos_f_ratio T s HT Hs 0) as [_ Hr]; [lia|].
    pose proof (clip_lt_hi _ (1 - max_beta) 1 ltac:(lra) Hr). lra.
Qed.

(** C5.  For [T >= 1], [s >= 0] and [max_beta] in (0,1), under the cosine
    policy and under the linear policy alike: [alpha_bar[0] = 1];
    [alpha_bar[t] = alpha_bar[t-1] * alpha[t]] for every [t >= 1];
    [alpha_bar] never increases; every entry lies in (0, 1].  The array has
    an entry for every step [0..T]. *)
Theorem schedule_alpha_bar_invariants (T : Z) (s max_beta : R) (sch : schedule) :
  (1 <= T)%Z -> 0 <= s -> 0 < max_beta < 1 ->
  sch = variance_schedule T s max_beta \/ sch = linear_schedule T s max_beta ->
  (Z.to_nat T < length (alpha_cumprod sch))%nat
  /\ (alpha_cumprod sch).[0] = 1
  /\ (forall t, (1 <= t < length (alpha_cumprod sch))%nat ->
        (alpha_cumprod sch).[t] = (alpha_cumprod sch).[t - 1] * (alpha sch).[t])
  /\ (forall t u, (t <= u < length (alpha_cumprod sch))%nat ->
        (alpha_cumprod sch).[u] <= (alpha_cumprod sch).[t])
  /\ (forall t, (t < length (alpha_cumprod sch))%nat ->
        0 < (alpha_cumprod sch).[t] <= 1).
Proof.
  intros HT Hs Hb Hsch.
  assert (Hc : alpha_cumprod sch = np.cumprod (alpha sch))
    by (destruct Hsch; subst; reflexivity).
  assert (Hu : Forall unit_interval (alpha sch)).
  { destruct Hsch; subst;
      auto using variance_schedule_alpha_unit, linear_schedule_alpha_unit. }
  assert (H0 : (alpha sch).[0] = 1) by (destruct Hsch; subst; reflexivity).
  assert (Hlen : (Z.to_nat T < length (alpha sch))%nat).
  { destruct Hsch; subst.
    - pose proof (variance_schedule_lengths T s max_beta) as [-> _]. lia.
    - pose proof (linear_schedule_lengths T s max_beta) as [-> _]. lia. }
  rewrite Hc, length_cumprod. split; [exact Hlen|].
  apply cumprod_invariants; auto. lia.
Qed.

(** The invariants at the notebook's own configuration. *)
Lemma schedule_alpha_bar_invariants_witness :
  let sch := variance_schedule 4000 (8 / 1000) (999 / 1000) in
  (alpha_cumprod sch).[0] = 1
  /\ (forall t, (t < length (alpha_cumprod sch))%nat ->
        0 < (alpha_cumprod sch).[t] <= 1).
Proof.
  pose proof (schedule_alpha_bar_invariants 4000 (8 / 1000) (999 / 1000)
                (variance_schedule 4000 (8 / 1000) (999 / 1000))
                ltac:(lia) ltac:(lra) ltac:(lra) (or_introl eq_refl)) as H.
  cbn zeta. split; [apply H|apply H].
Defined.


(** The cosine policy returns [T + 1] entries per array. *)
Lemma variance_schedule_length (T : Z) (s max_beta : R) :
  (0 <= T)%Z ->
  let sch := variance_schedule T s max_beta in
  Z.of_nat (length (alpha sch)) = (T + 1)%Z
  /\ Z.of_nat (length (alpha_cumprod sch)) = (T + 1)%Z
  /\ Z.of_nat (length (beta sch)) = (T + 1)%Z.
Proof.
  intros HT. pose proof (variance_schedule_lengths T s max_beta) as (H1 & H2 & H3).
  cbn zeta in *. rewrite H1, H2, H3. lia.
Qed.

(** The linear policy returns [T + 2] entries per array. *)
Lemma linear_schedule_length (T : Z) (s max_beta : R) :
  (0 <= T)%Z ->
  let sch := linear_schedule T s max_beta in
  Z.of_nat (length (alpha sch)) = (T + 2)%Z
  /\ Z.of_nat (length (alpha_cumprod sch)) = (T + 2)%Z
  /\ Z.of_nat (length (beta sch)) = (T + 2)%Z.
Proof.
  intros HT. pose proof (linear_schedule_lengths T s max_beta) as (H1 & H2 & H3).
  cbn zeta in *. rewrite H1, H2, H3. lia.
Qed.

(** C4, at [T = 1].  The cosine policy returns arrays of [T + 1 = 2]
    entries; the linear policy returns arrays of 3 entries, one more than
    the steps [0..T]: its [alpha] is [1, 1, 0.995]. *)
Theorem linear_schedule_length_T1 :
  let cosine := variance_schedule 1 (8 / 1000) (999 / 1000) in
  let linear := linear_schedule 1 (8 / 1000) (999 / 1000) in
  (length (alpha cosine) = 2 /\ length (alpha_cumprod cosine) = 2
   /\ length (beta cosine) = 2)%nat
  /\ (length (alpha linear) = 3 /\ length (alpha_cumprod linear) = 3
      /\ length (beta linear) = 3)%nat
  /\ alpha linear = [1; 1; 995 / 1000].
Proof.
  split; [|split].
  - exact (variance_schedule_lengths 1 (8 / 1000) (999 / 1000)).
  - exact (linear_schedule_lengths 1 (8 / 1000) (999 / 1000)).
  - unfold linear_schedule. cbn [alpha].
    change (np.arange (1 + 1)) with [0; 1]%Z. cbn [map np.append].
    unfold lin_f, step_scale. rewrite !clip_id by lra.
    repeat (apply (f_equal2 cons); [lra|]). reflexivity.
Qed.

(** C6, at [T = 10], [step_scale = 0.005], [max_beta = 0.999].  The linear
    policy has [alpha[10] = 0.9955] and [beta[10] = 0.0045]; the values
    [0.995] and [0.005] sit one position later, at index 11. *)
Theorem linear_schedule_T10 :
  let sch := linear_schedule 10 (8 / 1000) (999 / 1000) in
  nth_error (alpha sch) 10 = Some (9955 / 10000)
  /\ nth_error (beta sch) 10 = Some (45 / 10000)
  /\ nth_error (alpha sch) 11 = Some (995 / 1000)
  /\ nth_error (beta sch) 11 = Some (5 / 1000).
Proof.
  cbn zeta.
  set (sch := linear_schedule 10 (8 / 1000) (999 / 1000)).
  pose proof (linear_schedule_lengths 10 (8 / 1000) (999 / 1000)) as (Hla & _ & Hlb).
  cbn zeta in Hla, Hlb. fold sch in Hla, Hlb.
  assert (Hn : forall (l : list R) k v,
             (k < length l)%nat -> l.[k] = v -> nth_error l k = Some v).
  { intros l k v Hk <-. now apply nth_error_nth'. }
  assert (Ha : forall k, (k <= 10)%nat ->
             (alpha sch).[S k] = 1 - step_scale * INR k / 10).
  { intros k Hk. unfold sch. rewrite linear_schedule_alpha_S by lia.
    unfold lin_f. rewrite <- INR_IZR_INZ.
    assert (0 <= INR k <= 10).
    { split; [apply pos_INR|].
      replace 10 with (INR 10) by (simpl; lra). now apply le_INR. }
    apply clip_id. unfold step_scale. lra. }
  assert (Hb : forall k, (k <= 11)%nat -> (beta sch).[k] = 1 - (alpha sch).[k]).
  { intros k Hk. apply schedule_beta_nth; [reflexivity|].
    rewrite Hla. change (Z.to_nat (10 + 1)) with 11%nat. lia. }
  change (Z.to_nat (10 + 1)) with 11%nat in Hla, Hlb.
  assert (H9 : INR 9 = 9) by (simpl; lra).
  assert (H10 : INR 10 = 10) by (simpl; lra).
  repeat split; apply Hn; rewrite ?Hla, ?Hlb; try lia;
    rewrite ?Hb by lia; rewrite Ha by lia; unfold step_scale;
    rewrite ?H9, ?H10; lra.
Qed.

(** ** The time-encoding table *)

Lemma nth_map_in_range {A B} (f : A -> B) (l : list A) k da db :
  (k < length l)%nat -> nth k (map f l) db = f (nth k l da).
Proof.
  intros Hk. rewrite (nth_indep _ db (f da)) by now rewrite length_map.
  apply map_nth.
Qed.

Lemma nth_map_seq {B} (f : nat -> B) n k d :
  (k < n)%nat -> nth k (map f (seq 0 n)) d = f k.
Proof.
  intros Hk. rewrite (nth_map_in_range f _ k 0%nat) by now rewrite length_seq.
  now rewrite seq_nth.
Qed.

Lemma length_transpose cols M : length (npm.transpose cols M) = cols.
Proof. unfold npm.transpose. now rewrite length_map, length_seq. Qed.

Lemma transpose_row cols M k :
  (k < cols)%nat ->
  nth k (npm.transpose cols M) [] = map (fun row => row.[k]) M.
Proof. intros Hk. unfold npm.transpose. now rewrite nth_map_seq. Qed.

Lemma assign_cols_ok start width A M :
  length M = length A ->
  (forall m, In m M -> length m = npm.strided start width) ->
  npm.assign_cols start width A M
  = Ok (np.zip_with
          (fun row m =>
             map (fun c => if ((start <=? c)%nat && Nat.even (c - start))%bool
                           then m.[(c - start) / 2] else row.[c])
                 (seq 0 width))
          A M).
Proof.
  intros Hl Hm. unfold npm.assign_cols.
  rewrite Hl, Nat.eqb_refl. cbn [andb].
  replace (forallb _ M) with true; [reflexivity|].
  symmetry. apply forallb_forall. intros m Hin. apply Nat.eqb_eq. auto.
Qed.

Section TimeEncodingTable.

Variables (T embed_size : Z).
Hypothesis T_nonneg : (0 <= T)%Z.
Hypothesis size_nonneg : (0 <= embed_size)%Z.
Hypothesis size_even : (embed_size mod 2 = 0)%Z.

Lemma width_half : (table_width embed_size) = (2 * (table_half embed_size))%nat.
Proof.
  unfold table_width, table_half.
  rewrite (Z.div_mod embed_size 2) at 1 by lia. rewrite size_even.
  assert (0 <= embed_size / 2)%Z by (apply Z.div_pos; lia). lia.
Qed.

Lemma length_grid : length (encoding_grid T embed_size) = (table_half embed_size).
Proof.
  unfold encoding_grid, npm.meshgrid. cbn [fst snd].
  rewrite length_zip_with, !length_map, length_arange. fold (table_half embed_size). lia.
Qed.

Lemma grid_row j :
  (j < (table_half embed_size))%nat ->
  nth j (encoding_grid T embed_size) [] = map (fun t => encoding_angle embed_size t j) (seq 0 (table_rows T)).
Proof.
  intros Hj. unfold encoding_grid, npm.meshgrid. cbn [fst snd].
  rewrite (nth_zip_with _ _ _ j [] [] [])
    by (rewrite ?length_map, length_arange; exact Hj).
  rewrite (nth_map_in_range _ _ j 0%Z)
    by (rewrite length_map, length_arange; exact Hj).
  rewrite (nth_map_in_range _ _ j 0%Z)
    by (rewrite length_map, length_arange; exact Hj).
  rewrite (nth_map_in_range _ _ j 0%Z) by (rewrite length_arange; exact Hj).
  rewrite nth_arange by exact Hj.
  unfold np.arange. fold (table_rows T).
  generalize (seq 0 (table_rows T)). intros l. induction l as [|t l IH]; [reflexivity|].
  cbn [map np.zip_with]. now rewrite IH.
Qed.

Lemma grid_entry (f : R -> R) j t :
  (j < (table_half embed_size))%nat -> (t < (table_rows T))%nat ->
  (nth t (npm.transpose (table_rows T) (map (map f) (encoding_grid T embed_size))) []).[j]
  = f (encoding_angle embed_size t j).
Proof.
  intros Hj Ht. rewrite transpose_row by exact Ht.
  rewrite (nth_map_in_range _ _ j [])
    by (rewrite length_map, length_grid; exact Hj).
  rewrite (nth_map_in_range _ _ j []) by (rewrite length_grid; exact Hj).
  rewrite grid_row by exact Hj.
  rewrite (nth_map_in_range _ _ t 0) by (rewrite length_map, length_seq; exact Ht).
  now rewrite nth_map_seq.
Qed.

Lemma transpose_grid_shape (f : R -> R) m :
  In m (npm.transpose (table_rows T) (map (map f) (encoding_grid T embed_size))) -> length m = (table_half embed_size).
Proof.
  unfold npm.transpose. intros Hin. apply in_map_iff in Hin.
  destruct Hin as [k [<- _]]. now rewrite !length_map, length_grid.
Qed.

Lemma TimeEncoding_returns :
  TimeEncoding T embed_size = Ok (encoding_table T embed_size).
Proof.
  unfold TimeEncoding. rewrite size_even. cbn [Z.eqb negb].
  rewrite (surjective_pairing (npm.meshgrid _ _)).
  unfold npm.empty.
  destruct (Z.ltb_spec (T + 1) 0); [lia|].
  destruct (Z.ltb_spec embed_size 0); [lia|]. cbn [orb bind].
  rewrite length_arange. fold (table_rows T) (table_width embed_size) (encoding_grid T embed_size).
  rewrite assign_cols_ok.
  2:{ now rewrite length_transpose, repeat_length. }
  2:{ intros m Hm. rewrite (transpose_grid_shape sin m Hm).
      unfold npm.strided. rewrite width_half.
      replace (2 * (table_half embed_size) + 1 - 0)%nat with (1 + (table_half embed_size) * 2)%nat by lia.
      rewrite Nat.div_add by lia. reflexivity. }
  cbn [bind].
  rewrite assign_cols_ok.
  2:{ rewrite length_transpose, length_zip_with, length_transpose,
        repeat_length. lia. }
  2:{ intros m Hm. rewrite (transpose_grid_shape cos m Hm).
      unfold npm.strided. rewrite width_half.
      replace (2 * (table_half embed_size) + 1 - 1)%nat with ((table_half embed_size) * 2)%nat by lia.
      now rewrite Nat.div_mul by lia. }
  cbn [bind]. f_equal.
  apply (nth_ext _ _ [] []).
  { rewrite !length_zip_with, !length_transpose, repeat_length.
    unfold encoding_table. rewrite length_map, length_seq. fold (table_rows T). lia. }
  intros t Ht.
  rewrite !length_zip_with, !length_transpose, repeat_length in Ht.
  assert (Htr : (t < (table_rows T))%nat) by lia.
  rewrite (nth_zip_with _ _ _ t [] [] [])
    by (rewrite ?length_zip_with, ?length_transpose, ?repeat_length; lia).
  rewrite (nth_zip_with _ _ _ t [] [] [])
    by (rewrite ?length_transpose, ?repeat_length; lia).
  unfold encoding_table. fold (table_rows T) (table_width embed_size). rewrite nth_map_seq by exact Htr.
  apply map_ext_in. intros c Hc. apply in_seq in Hc.
  assert (Hcw : (c < 2 * (table_half embed_size))%nat) by (rewrite <- width_half; lia).
  assert (Hsel : ((1 <=? c)%nat && Nat.even (c - 1))%bool = negb (Nat.even c)).
  { destruct c as [|c]; [reflexivity|]. cbn [Nat.leb andb].
    replace (S c - 1)%nat with c by lia.
    now rewrite Nat.even_succ, Nat.negb_odd. }
  rewrite Hsel. destruct (Nat.even c) eqn:Hev; cbn [negb].
  - rewrite nth_map_seq by lia.
    cbn [Nat.leb andb]. rewrite Nat.sub_0_r, Hev.
    apply grid_entry; [|exact Htr].
    apply Nat.Div0.div_lt_upper_bound. lia.
  - assert (Hd : ((c - 1) / 2 = c / 2)%nat).
    { assert (Ho : Nat.odd c = true) by now rewrite <- Nat.negb_even, Hev.
      apply Nat.odd_spec in Ho. destruct Ho as [q Hq].
      replace c with (1 + q * 2)%nat by lia.
      replace (1 + q * 2 - 1)%nat with (q * 2)%nat by lia.
      rewrite Nat.div_mul, Nat.div_add by lia. reflexivity. }
    rewrite Hd. apply grid_entry; [|exact Htr].
    apply Nat.Div0.div_lt_upper_bound. lia.
Qed.

End TimeEncodingTable.

Lemma encoding_table_row (T embed_size : Z) (t : nat) :
  (t < Z.to_nat (T + 1))%nat ->
  nth t (encoding_table T embed_size) []
  = map (fun c => if Nat.even c
                  then sin (encoding_angle embed_size t (c / 2))
                  else cos (encoding_angle embed_size t (c / 2)))
        (seq 0 (Z.to_nat embed_size)).
Proof. intros Ht. unfold encoding_table. now rewrite nth_map_seq. Qed.

Lemma encoding_table_pair (T embed_size : Z) (t i : nat) :
  (t < Z.to_nat (T + 1))%nat -> (2 * i + 1 < Z.to_nat embed_size)%nat ->
  (nth t (encoding_table T embed_size) []).[2 * i]
  = sin (encoding_angle embed_size t i)
  /\ (nth t (encoding_table T embed_size) []).[2 * i + 1]
     = cos (encoding_angle embed_size t i).
Proof.
  intros Ht Hi. rewrite encoding_table_row by exact Ht.
  rewrite !nth_map_seq by lia.
  replace (2 * i)%nat with (i * 2)%nat by lia.
  replace (i * 2 + 1)%nat with (1 + i * 2)%nat by lia.
  rewrite Nat.div_mul, Nat.div_add by lia.
  replace (Nat.even (i * 2)) with true
    by (symmetry; apply Nat.even_spec; exists i; lia).
  replace (Nat.even (1 + i * 2)) with false.
  2:{ symmetry. rewrite <- Nat.negb_odd.
      replace (Nat.odd (1 + i * 2)) with true; [reflexivity|].
      symmetry. apply Nat.odd_spec. exists i. lia. }
  split; reflexivity.
Qed.

(** C9.  For [T >= 1] and an even width [embed_size >= 0] the constructor
    returns a table of [T + 1] rows; every row [t] has [embed_size] columns
    and, for [i = 0..embed_size/2 - 1], holds
    [sin(t / 10000^(2i/embed_size))] in column [2i] and
    [cos(t / 10000^(2i/embed_size))] in column [2i + 1]; row 0 is
    [0, 1, 0, 1, ...]. *)
Theorem TimeEncoding_table (T embed_size : Z) :
  (1 <= T)%Z -> (0 <= embed_size)%Z -> (embed_size mod 2 = 0)%Z ->
  exists table,
    TimeEncoding T embed_size = Ok table
    /\ Z.of_nat (length table) = (T + 1)%Z
    /\ (forall t, (Z.of_nat t <= T)%Z ->
          Z.of_nat (length (nth t table [])) = embed_size
          /\ forall i, (Z.of_nat i < embed_size / 2)%Z ->
               (nth t table []).[2 * i]
               = sin (IZR (Z.of_nat t)
                      / Rpower 10000 (IZR (2 * Z.of_nat i) / IZR embed_size))
               /\ (nth t table []).[2 * i + 1]
                  = cos (IZR (Z.of_nat t)
                         / Rpower 10000 (IZR (2 * Z.of_nat i) / IZR embed_size)))
    /\ (forall i, (Z.of_nat i < embed_size / 2)%Z ->
          (nth 0 table []).[2 * i] = 0 /\ (nth 0 table []).[2 * i + 1] = 1).
Proof.
  intros HT HE Hev. exists (encoding_table T embed_size).
  assert (Hpair : forall t i, (Z.of_nat t <= T)%Z ->
            (Z.of_nat i < embed_size / 2)%Z ->
            (nth t (encoding_table T embed_size) []).[2 * i]
            = sin (encoding_angle embed_size t i)
            /\ (nth t (encoding_table T embed_size) []).[2 * i + 1]
               = cos (encoding_angle embed_size t i)).
  { intros t i Ht Hi. apply encoding_table_pair; [lia|].
    pose proof (Z.div_mod embed_size 2 ltac:(lia)) as Hdm. lia. }
  split; [apply TimeEncoding_returns; lia|].
  split; [unfold encoding_table; rewrite length_map, length_seq; lia|].
  split.
  - intros t Ht. split.
    + rewrite encoding_table_row by lia. rewrite length_map, length_seq. lia.
    + intros i Hi. exact (Hpair t i Ht Hi).
  - intros i Hi. destruct (Hpair 0%nat i ltac:(lia) Hi) as [-> ->].
    unfold encoding_angle. cbn [Z.of_nat]. unfold Rdiv.
    rewrite Rmult_0_l. split; [apply sin_0|apply cos_0].
Qed.

(** The notebook's table: [T = 4000], [embed_size = 64]. *)
Lemma TimeEncoding_table_witness :
  exists table,
    TimeEncoding 4000 64 = Ok table
    /\ Z.of_nat (length table) = 4001%Z
    /\ (nth 0 table []).[0] = 0 /\ (nth 0 table []).[1] = 1.
Proof.
  destruct (TimeEncoding_table 4000 64 ltac:(lia) ltac:(lia) ltac:(reflexivity))
    as (table & H1 & H2 & _ & H4).
  exists table. split; [exact H1|]. split; [exact H2|].
  exact (H4 0%nat ltac:(reflexivity)).
Defined.

(** ** Configuration checks *)

Lemma variance_schedule_degenerate (T : Z) (s max_beta : R) :
  (T < 1)%Z -> variance_schedule T s max_beta = mkSchedule [1] [1] [1 - 1].
Proof.
  intros HT. unfold variance_schedule, np.arange.
  destruct (Z.to_nat (T + 1)) as [|[|n]] eqn:Hn; [reflexivity|reflexivity|lia].
Qed.

(** C8, refuted as stated: with [T = -1] and [max_beta = 2], a step count
    below 1 and a noise cap outside (0,1), the schedule computation returns
    a schedule. *)
Lemma variance_schedule_accepts_invalid_configuration :
  (-1 < 1)%Z /\ ~ (0 < 2 < 1)
  /\ variance_schedule (-1) (8 / 1000) 2 = mkSchedule [1] [1] [1 - 1].
Proof.
  split; [lia|]. split; [lra|]. reflexivity.
Qed.

(** C8, amended.  The constructor of the time encoding raises an
    [AssertionError] whenever [embed_size] is odd, whatever [T] is, and so
    returns no table.  The schedule computation checks nothing: for every
    [T < 1] it returns the one-entry schedule [alpha = alpha_bar = [1]],
    [beta = [0]], and for every [T >= 1] it returns [T + 1] entries per
    array whatever [max_beta] is. *)
Theorem configuration_checks (T embed_size : Z) (s max_beta : R) :
  ((embed_size mod 2 <> 0)%Z ->
     TimeEncoding T embed_size = Raise (AssertionError "embed_size must be even"))
  /\ ((T < 1)%Z ->
        variance_schedule T s max_beta = mkSchedule [1] [1] [1 - 1])
  /\ ((1 <= T)%Z ->
        let sch := variance_schedule T s max_beta in
        Z.of_nat (length (alpha sch)) = (T + 1)%Z
        /\ Z.of_nat (length (alpha_cumprod sch)) = (T + 1)%Z
        /\ Z.of_nat (length (beta sch)) = (T + 1)%Z).
Proof.
  split; [|split].
  - intros Hodd. unfold TimeEncoding.
    destruct (Z.eqb_spec (embed_size mod 2) 0); [contradiction|reflexivity].
  - apply variance_schedule_degenerate.
  - intros HT. apply variance_schedule_length. lia.
Qed.

Lemma configuration_checks_witness :
  TimeEncoding 4000 63 = Raise (AssertionError "embed_size must be even")
  /\ variance_schedule 0 (8 / 1000) (999 / 1000) = mkSchedule [1] [1] [1 - 1]
  /\ Z.of_nat (length (alpha (variance_schedule 4000 (8 / 1000) 2))) = 4001%Z.
Proof.
  destruct (configuration_checks 4000 63 (8 / 1000) 2) as (H1 & _ & H3).
  destruct (configuration_checks 0 63 (8 / 1000) (999 / 1000)) as (_ & H2 & _).
  split; [apply H1; discriminate|].
  split; [apply H2; lia|]. apply (H3 ltac:(lia)).
Defined.

(** ** Tensors: shapes and entries *)

Lemma shape_eqb_refl sh : tf.shape_eqb sh sh = true.
Proof. unfold tf.shape_eqb. destruct (list_eq_dec Nat.eq_dec sh sh); congruence. Qed.

Lemma length_shape_of X : length (tf.shape_of X) = length X.
Proof. apply length_map. Qed.

Lemma shape_of_row X b :
  (b < length X)%nat -> nth b (tf.shape_of X) 0%nat = length (nth b X []).
Proof. intros Hb. unfold tf.shape_of. now rewrite (nth_map_in_range _ _ b []). Qed.

Lemma shape_eq_length X Y : tf.shape_of X = tf.shape_of Y -> length X = length Y.
Proof. intros H. now rewrite <- !length_shape_of, H. Qed.

Lemma shape_eq_row X Y b :
  tf.shape_of X = tf.shape_of Y -> (b < length X)%nat ->
  length (nth b X []) = length (nth b Y []).
Proof.
  intros H Hb. rewrite <- !shape_of_row; [now rewrite H| |assumption].
  now rewrite <- (shape_eq_length X Y H).
Qed.

(** Two tensors of one shape with the same entries are equal. *)
Lemma tensor_ext (X Y : tensor) :
  tf.shape_of X = tf.shape_of Y ->
  (forall b k, (b < length X)%nat -> (k < length (nth b X []))%nat ->
     (nth b X []).[k] = (nth b Y []).[k]) ->
  X = Y.
Proof.
  intros Hs He. apply (nth_ext _ _ [] []); [now apply shape_eq_length|].
  intros b Hb. apply (nth_ext _ _ 0 0); [now apply shape_eq_row|].
  intros k Hk. now apply He.
Qed.

Lemma shape_of_zeros sh : tf.shape_of (tf.zeros sh) = sh.
Proof.
  unfold tf.shape_of, tf.zeros. rewrite map_map.
  rewrite (map_ext _ (fun n => n)); [apply map_id|].
  intros n. apply repeat_length.
Qed.

Lemma shape_of_scale c X : tf.shape_of (tf.scale c X) = tf.shape_of X.
Proof.
  unfold tf.shape_of, tf.scale. rewrite map_map. apply map_ext.
  intros x. apply length_map.
Qed.

Section Elementwise.

Variable f : R -> R -> R.

Lemma elementwise_ok X Y :
  tf.shape_of X = tf.shape_of Y ->
  tf.elementwise f X Y = Ok (np.zip_with (np.zip_with f) X Y).
Proof. intros H. unfold tf.elementwise. now rewrite H, shape_eqb_refl. Qed.

Lemma elementwise_row X Y b :
  tf.shape_of X = tf.shape_of Y -> (b < length X)%nat ->
  nth b (np.zip_with (np.zip_with f) X Y) []
  = np.zip_with f (nth b X []) (nth b Y []).
Proof.
  intros H Hb. apply nth_zip_with; [exact Hb|].
  now rewrite <- (shape_eq_length X Y H).
Qed.

Lemma shape_of_elementwise X Y :
  tf.shape_of X = tf.shape_of Y ->
  tf.shape_of (np.zip_with (np.zip_with f) X Y) = tf.shape_of X.
Proof.
  intros H. apply (nth_ext _ _ 0%nat 0%nat).
  - rewrite !length_shape_of, length_zip_with, (shape_eq_length X Y H). lia.
  - intros b Hb. rewrite length_shape_of, length_zip_with in Hb.
    rewrite !shape_of_row by (rewrite ?length_zip_with; lia).
    rewrite elementwise_row by (auto; lia).
    rewrite length_zip_with, <- (shape_eq_row X Y b H) by lia. lia.
Qed.

Lemma elementwise_entry X Y b k :
  tf.shape_of X = tf.shape_of Y ->
  (b < length X)%nat -> (k < length (nth b X []))%nat ->
  (nth b (np.zip_with (np.zip_with f) X Y) []).[k]
  = f (nth b X []).[k] (nth b Y []).[k].
Proof.
  intros H Hb Hk. rewrite elementwise_row by assumption.
  apply nth_zip_with; [exact Hk|].
  now rewrite <- (shape_eq_row X Y b H).
Qed.

Lemma per_sample_ok X c :
  length c = length X ->
  tf.per_sample f X c
  = Ok (np.zip_with (fun x a => map (fun v => f v a) x) X c).
Proof. intros H. unfold tf.per_sample. now rewrite H, Nat.eqb_refl. Qed.

Lemma per_sample_row X c b :
  length c = length X -> (b < length X)%nat ->
  nth b (np.zip_with (fun x a => map (fun v => f v a) x) X c) []
  = map (fun v => f v c.[b]) (nth b X []).
Proof.
  intros H Hb.
  now rewrite (nth_zip_with _ _ _ b [] 0 []) by (rewrite ?H; exact Hb).
Qed.

Lemma shape_of_per_sample X c :
  length c = length X ->
  tf.shape_of (np.zip_with (fun x a => map (fun v => f v a) x) X c)
  = tf.shape_of X.
Proof.
  intros H. apply (nth_ext _ _ 0%nat 0%nat).
  - rewrite !length_shape_of, length_zip_with, H. lia.
  - intros b Hb. rewrite length_shape_of, length_zip_with, H in Hb.
    rewrite !shape_of_row by (rewrite ?length_zip_with, ?H; lia).
    rewrite per_sample_row by (auto; lia). apply length_map.
Qed.

Lemma per_sample_entry X c b k :
  length c = length X ->
  (b < length X)%nat -> (k < length (nth b X []))%nat ->
  (nth b (np.zip_with (fun x a => map (fun v => f v a) x) X c) []).[k]
  = f (nth b X []).[k] c.[b].
Proof.
  intros H Hb Hk. rewrite per_sample_row by assumption.
  now rewrite (nth_map_in_range _ _ k 0).
Qed.

End Elementwise.

(** ** Gathering schedule entries and drawing random numbers *)

Lemma gather_in_range (params : list R) (indices : list Z) :
  Forall (fun i => (0 <= i < Z.of_nat (length params))%Z) indices ->
  tf.gather params indices = Ok (map (fun i => params.[Z.to_nat i]) indices).
Proof.
  unfold tf.gather. induction 1 as [|i l Hi Hl IH]; [reflexivity|].
  cbn [mapM map]. destruct (Z.ltb_spec i 0); [lia|].
  destruct (nth_error params (Z.to_nat i)) as [v|] eqn:Hv.
  - cbn [bind]. rewrite IH. cbn [bind].
    now rewrite (nth_error_nth _ _ 0 Hv).
  - apply nth_error_None in Hv. lia.
Qed.

Lemma random_uniform_range n minval maxval g :
  (minval < maxval)%Z ->
  exists t,
    tf.random_uniform n minval maxval g = Ok (t, tf.advance n g)
    /\ length t = n
    /\ Forall (fun ti => (minval <= ti < maxval)%Z) t
    /\ forall b, (b < n)%nat ->
         nth b t 0%Z
         = (minval + tf.uniform_src g (tf.pos g + b) mod (maxval - minval))%Z.
Proof.
  intros H. unfold tf.random_uniform.
  rewrite (proj2 (Z.ltb_lt minval maxval) H). cbn [orb].
  eexists. split; [reflexivity|]. split; [|split].
  - now rewrite length_map, length_seq.
  - apply Forall_forall. intros ti Hin. apply in_map_iff in Hin.
    destruct Hin as [k [<- _]].
    pose proof (Z.mod_pos_bound (tf.uniform_src g (tf.pos g + k))
                  (maxval - minval) ltac:(lia)). lia.
  - intros b Hb. now rewrite nth_map_seq.
Qed.

Lemma shape_of_random_normal sh g :
  tf.shape_of (fst (tf.random_normal sh g)) = sh.
Proof.
  revert g. induction sh as [|m sh IH]; intros g; [reflexivity|].
  cbn [tf.random_normal]. specialize (IH (tf.advance m g)).
  destruct (tf.random_normal sh (tf.advance m g)) as [rows g'].
  cbn [fst tf.shape_of map] in *. rewrite length_map, length_seq.
  now f_equal.
Qed.

Lemma shape_of_scale_pixels X : tf.shape_of (scale_pixels X) = tf.shape_of X.
Proof.
  unfold tf.shape_of, scale_pixels. rewrite map_map. apply map_ext.
  intros x. apply length_map.
Qed.

Lemma scale_pixels_entry X b k :
  (b < length X)%nat -> (k < length (nth b X []))%nat ->
  (nth b (scale_pixels X) []).[k] = (nth b X []).[k] * 2 - 1.
Proof.
  intros Hb Hk. unfold scale_pixels.
  rewrite (nth_map_in_range _ _ b []) by exact Hb.
  now rewrite (nth_map_in_range _ _ k 0).
Qed.

(** ** Forward noising and its inverse *)

Lemma blend_shape (alpha_cm : list R) (X noise : tensor) :
  length alpha_cm = length X -> tf.shape_of noise = tf.shape_of X ->
  tf.shape_of (blend alpha_cm X noise) = tf.shape_of X.
Proof.
  intros Hl Hs. unfold blend.
  assert (Hln : length noise = length X) by now apply shape_eq_length.
  rewrite shape_of_elementwise.
  - apply shape_of_per_sample. now rewrite length_map.
  - rewrite !shape_of_per_sample by (rewrite length_map; congruence).
    congruence.
Qed.

Lemma blend_entry (alpha_cm : list R) (X noise : tensor) b k :
  length alpha_cm = length X -> tf.shape_of noise = tf.shape_of X ->
  (b < length X)%nat -> (k < length (nth b X []))%nat ->
  (nth b (blend alpha_cm X noise) []).[k]
  = sqrt alpha_cm.[b] * (nth b X []).[k]
    + sqrt (1 - alpha_cm.[b]) * (nth b noise []).[k].
Proof.
  intros Hl Hs Hb Hk. unfold blend.
  assert (Hln : length noise = length X) by now apply shape_eq_length.
  assert (Hkn : (k < length (nth b noise []))%nat)
    by (rewrite (shape_eq_row _ X b Hs) by lia; exact Hk).
  set (signal := np.zip_with _ X _). set (fuzz := np.zip_with _ noise _).
  assert (Hss : tf.shape_of signal = tf.shape_of X)
    by (apply shape_of_per_sample; now rewrite length_map).
  assert (Hsf : tf.shape_of fuzz = tf.shape_of X).
  { unfold fuzz. rewrite shape_of_per_sample by (rewrite length_map; congruence).
    exact Hs. }
  rewrite elementwise_entry.
  2:{ congruence. }
  2:{ rewrite (shape_eq_length _ _ Hss). exact Hb. }
  2:{ rewrite (shape_eq_row _ X b Hss)
        by (rewrite (shape_eq_length _ _ Hss); exact Hb). exact Hk. }
  unfold signal, fuzz.
  rewrite !per_sample_entry by (rewrite ?length_map; congruence || lia).
  now rewrite !(nth_map_in_range _ _ b 0) by lia.
Qed.

(** [prepare_batch] does not raise: it returns the steps and the noise it
    drew and the blend of the rescaled images with that noise. *)
Lemma prepare_batch_returns (T : Z) (ab : list R) (X : tensor) (g : tf.generator) :
  (1 <= T)%Z -> Z.of_nat (length ab) = (T + 1)%Z ->
  exists t noise g',
    prepare_batch T ab X g
    = Ok (mkNoisy (blend (map (fun i => ab.[Z.to_nat i]) t)
                         (scale_pixels X) noise) t,
          noise, g')
    /\ length t = length X
    /\ Forall (fun ti => (1 <= ti <= T)%Z) t
    /\ (forall b, (b < length X)%nat ->
          nth b t 0%Z = (1 + tf.uniform_src g (tf.pos g + b) mod T)%Z)
    /\ tf.shape_of noise = tf.shape_of X.
Proof.
  intros HT Hab. unfold prepare_batch.
  destruct (random_uniform_range (length (tf.shape_of (scale_pixels X)))
              1 (T + 1) g ltac:(lia)) as (t & Hu & Hlt & Hrt & Hnt).
  rewrite Hu. cbn [bind].
  rewrite length_shape_of in Hlt |- *.
  assert (HlX : length (scale_pixels X) = length X) by apply length_map.
  rewrite HlX in Hlt |- *.
  rewrite gather_in_range.
  2:{ eapply Forall_impl; [|exact Hrt]. cbn beta. intros; lia. }
  cbn [bind]. set (acm := map (fun i => ab.[Z.to_nat i]) t).
  assert (Hla : length acm = length X) by (unfold acm; now rewrite length_map).
  unfold tf.reshape. rewrite Hla, Nat.eqb_refl. cbn [bind].
  pose proof (shape_of_random_normal (tf.shape_of (scale_pixels X))
                (tf.advance (length X) g)) as Hsn.
  destruct (tf.random_normal (tf.shape_of (scale_pixels X))
              (tf.advance (length X) g)) as [noise g'].
  cbn [fst] in Hsn.
  assert (Hln : length noise = length X).
  { rewrite <- HlX. now apply shape_eq_length. }
  unfold tf.mul_rows.
  rewrite !per_sample_ok by (rewrite length_map; congruence). cbn [bind].
  unfold tf.add. rewrite elementwise_ok.
  2:{ rewrite !shape_of_per_sample by (rewrite length_map; congruence).
      congruence. }
  cbn [bind]. exists t, noise, g'. split; [reflexivity|].
  split; [exact Hlt|].
  split; [eapply Forall_impl; [|exact Hrt]; cbn beta; intros; lia|].
  split.
  - intros b Hb. rewrite Hnt by (rewrite length_shape_of, HlX; exact Hb).
    now replace (T + 1 - 1)%Z with T by lia.
  - now rewrite Hsn, shape_of_scale_pixels.
Qed.

(** [subtract_noise] undoes the blend wherever the gathered [alpha_bar]
    entries are positive. *)
Lemma subtract_noise_inverts (ab : list R) (X X_t noise : tensor) (t : list Z) :
  Forall (fun ti => (0 <= ti < Z.of_nat (length ab))%Z
                    /\ 0 < ab.[Z.to_nat ti]) t ->
  length t = length X ->
  tf.shape_of noise = tf.shape_of X ->
  tf.shape_of X_t = tf.shape_of X ->
  (forall b k, (b < length X)%nat -> (k < length (nth b X []))%nat ->
     (nth b X_t []).[k]
     = sqrt ab.[Z.to_nat (nth b t 0%Z)] * (nth b X []).[k]
       + sqrt (1 - ab.[Z.to_nat (nth b t 0%Z)]) * (nth b noise []).[k]) ->
  subtract_noise ab X_t t noise = Ok X.
Proof.
  intros Ht Hlt Hsn Hsx He. unfold subtract_noise.
  rewrite gather_in_range by (eapply Forall_impl; [|exact Ht]; cbn beta; tauto).
  cbn [bind]. set (acm := map (fun i => ab.[Z.to_nat i]) t).
  assert (HlXt : length X_t = length X) by now apply shape_eq_length.
  assert (Hln : length noise = length X) by now apply shape_eq_length.
  assert (Hla : length acm = length X) by (unfold acm; now rewrite length_map).
  unfold tf.reshape. rewrite length_shape_of, Hla, HlXt, Nat.eqb_refl. cbn [bind].
  unfold tf.mul_rows, tf.div_rows, tf.sub.
  rewrite per_sample_ok by (rewrite length_map; congruence). cbn [bind].
  set (fuzz := np.zip_with _ noise _).
  assert (Hsf : tf.shape_of fuzz = tf.shape_of X).
  { unfold fuzz. rewrite shape_of_per_sample by (rewrite length_map; congruence).
    exact Hsn. }
  rewrite elementwise_ok by congruence. cbn [bind].
  set (d := np.zip_with _ X_t fuzz).
  assert (Hsd : tf.shape_of d = tf.shape_of X).
  { unfold d. rewrite shape_of_elementwise by congruence. exact Hsx. }
  assert (Hld : length d = length X) by now apply shape_eq_length.
  rewrite per_sample_ok by (rewrite length_map; congruence).
  apply (f_equal (@Ok tensor)). apply tensor_ext.
  { rewrite shape_of_per_sample by (rewrite length_map; congruence). exact Hsd. }
  intros b k Hb Hk.
  rewrite length_zip_with, length_map, Hla, Hld in Hb.
  assert (Hb' : (b < length X)%nat) by lia.
  rewrite per_sample_row in Hk by (rewrite ?length_map; congruence || lia).
  rewrite length_map in Hk.
  assert (Hkx : (k < length (nth b X []))%nat).
  { rewrite <- (shape_eq_row _ X b Hsd) by lia. exact Hk. }
  rewrite per_sample_entry by (rewrite ?length_map; congruence || lia).
  unfold d. rewrite elementwise_entry.
  2:{ congruence. }
  2:{ lia. }
  2:{ rewrite (shape_eq_row _ X b Hsx) by lia. exact Hkx. }
  unfold fuzz. rewrite per_sample_entry.
  2:{ rewrite length_map; congruence. }
  2:{ lia. }
  2:{ rewrite (shape_eq_row _ X b Hsn) by lia. exact Hkx. }
  rewrite !(nth_map_in_range _ _ b 0) by lia.
  unfold acm. rewrite (nth_map_in_range _ _ b 0%Z) by lia.
  rewrite He by assumption.
  assert (Hpos : 0 < ab.[Z.to_nat (nth b t 0%Z)]).
  { eapply (proj1 (Forall_forall _ t) Ht). apply nth_In. lia. }
  assert (Hsq : 0 < sqrt ab.[Z.to_nat (nth b t 0%Z)]) by now apply sqrt_lt_R0.
  field. lra.
Qed.

(** C2.  For [T >= 1] and an [alpha_bar] array of [T + 1] entries,
    [prepare_batch] returns, for every batch and every state of the random
    generator: one step [t] per sample, each in [1..T] and so never 0, the
    step of sample [b] being [1 + w mod T] for the [b]-th raw word [w] of
    the generator and nothing else; a noise tensor of the shape of the
    batch; and noisy images whose every entry is the single blend
    [sqrt(alpha_bar[t]) * X + sqrt(1 - alpha_bar[t]) * noise], with [t] the
    step of that sample, read off the array directly.  [X] is the sample as
    the function blends it, after its rescaling of the pixels to -1..1.
    How the raw words are distributed is a property of the generator and is
    not expressed here. *)
Theorem prepare_batch_closed_form (T : Z) (alpha_bar : list R)
    (X : tensor) (g : tf.generator) :
  (1 <= T)%Z -> Z.of_nat (length alpha_bar) = (T + 1)%Z ->
  exists X_t t noise g',
    prepare_batch T alpha_bar X g = Ok (mkNoisy X_t t, noise, g')
    /\ length t = length X
    /\ Forall (fun ti => (1 <= ti <= T)%Z) t
    /\ (forall b, (b < length X)%nat ->
          nth b t 0%Z = (1 + tf.uniform_src g (tf.pos g + b) mod T)%Z)
    /\ tf.shape_of noise = tf.shape_of X
    /\ tf.shape_of X_t = tf.shape_of X
    /\ forall b k, (b < length X)%nat -> (k < length (nth b X []))%nat ->
         (nth b X_t []).[k]
         = sqrt alpha_bar.[Z.to_nat (nth b t 0%Z)]
           * (nth b (scale_pixels X) []).[k]
           + sqrt (1 - alpha_bar.[Z.to_nat (nth b t 0%Z)])
             * (nth b noise []).[k].
Proof.
  intros HT Hab.
  destruct (prepare_batch_returns T alpha_bar X g HT Hab)
    as (t & noise & g' & Hp & Hlt & Ht & Hraw & Hsn).
  set (alpha_cm := map (fun i => alpha_bar.[Z.to_nat i]) t) in Hp.
  assert (Hla : length alpha_cm = length (scale_pixels X)).
  { unfold alpha_cm, scale_pixels. now rewrite !length_map. }
  assert (Hsn' : tf.shape_of noise = tf.shape_of (scale_pixels X))
    by now rewrite shape_of_scale_pixels.
  exists (blend alpha_cm (scale_pixels X) noise), t, noise, g'.
  split; [exact Hp|]. split; [exact Hlt|]. split; [exact Ht|].
  split; [exact Hraw|]. split; [exact Hsn|]. split.
  - rewrite blend_shape by assumption. apply shape_of_scale_pixels.
  - intros b k Hb Hk.
    rewrite blend_entry; try assumption.
    + unfold alpha_cm. now rewrite (nth_map_in_range _ _ b 0%Z) by lia.
    + unfold scale_pixels. now rewrite length_map.
    + rewrite (shape_eq_row _ X b (shape_of_scale_pixels X)); [exact Hk|].
      unfold scale_pixels. now rewrite length_map.
Qed.

Lemma prepare_batch_closed_form_witness :
  exists X_t t noise g',
    prepare_batch 2 [1; 1 / 2; 1 / 4] [[0; 1]; [1 / 2; 1]] demo_generator
    = Ok (mkNoisy X_t t, noise, g')
    /\ length t = 2%nat
    /\ Forall (fun ti => (1 <= ti <= 2)%Z) t.
Proof.
  destruct (prepare_batch_closed_form 2 [1; 1 / 2; 1 / 4] [[0; 1]; [1 / 2; 1]]
              demo_generator ltac:(lia) ltac:(reflexivity))
    as (X_t & t & noise & g' & H1 & H2 & H3 & _).
  exists X_t, t, noise, g'. auto.
Defined.

(** C3.  With the [alpha_bar] of the cosine schedule for [T >= 1], [s >= 0]
    and [max_beta] in (0,1): for every [X], every choice of steps in
    [1..T], one per sample, and every noise of the shape of [X],
    [subtract_noise] applied to the blend of [X] and the noise at those
    steps, with the same steps and noise, returns [X] exactly.  In
    particular it returns the rescaled images out of what [prepare_batch]
    produced, for every batch and generator state. *)
Theorem subtract_noise_round_trip (T : Z) (s max_beta : R) :
  (1 <= T)%Z -> 0 <= s -> 0 < max_beta < 1 ->
  let alpha_bar := alpha_cumprod (variance_schedule T s max_beta) in
  (forall (X noise X_t : tensor) (t : list Z),
      length t = length X ->
      Forall (fun ti => (1 <= ti <= T)%Z) t ->
      tf.shape_of noise = tf.shape_of X ->
      tf.shape_of X_t = tf.shape_of X ->
      (forall b k, (b < length X)%nat -> (k < length (nth b X []))%nat ->
         (nth b X_t []).[k]
         = sqrt alpha_bar.[Z.to_nat (nth b t 0%Z)] * (nth b X []).[k]
           + sqrt (1 - alpha_bar.[Z.to_nat (nth b t 0%Z)])
             * (nth b noise []).[k]) ->
      subtract_noise alpha_bar X_t t noise = Ok X)
  /\ (forall (X : tensor) (g : tf.generator),
        exists X_t t noise g',
          prepare_batch T alpha_bar X g = Ok (mkNoisy X_t t, noise, g')
          /\ subtract_noise alpha_bar X_t t noise = Ok (scale_pixels X)).
Proof.
  intros HT Hs Hb alpha_bar.
  pose proof (variance_schedule_lengths T s max_beta) as (_ & Hlen & _).
  cbn zeta in Hlen. fold alpha_bar in Hlen.
  assert (Hpos : forall t, Forall (fun ti => (1 <= ti <= T)%Z) t ->
            Forall (fun ti => (0 <= ti < Z.of_nat (length alpha_bar))%Z
                              /\ 0 < alpha_bar.[Z.to_nat ti]) t).
  { intros t Ht. eapply Forall_impl; [|exact Ht]. cbn beta. intros ti Hti.
    split; [lia|].
    apply (cumprod_unit_interval (alpha (variance_schedule T s max_beta))).
    - now apply variance_schedule_alpha_unit.
    - pose proof (variance_schedule_lengths T s max_beta) as (Hla & _).
      cbn zeta in Hla. lia. }
  split.
  - intros X noise X_t t Hlt Ht Hsn Hsx He.
    apply subtract_noise_inverts; auto.
  - intros X g.
    destruct (prepare_batch_returns T alpha_bar X g HT ltac:(lia))
      as (t & noise & g' & Hp & Hlt & Ht & _ & Hsn).
    set (alpha_cm := map (fun i => alpha_bar.[Z.to_nat i]) t) in Hp.
    assert (HlX : length (scale_pixels X) = length X) by apply length_map.
    assert (Hla : length alpha_cm = length (scale_pixels X)).
    { unfold alpha_cm. rewrite length_map. congruence. }
    assert (Hsn' : tf.shape_of noise = tf.shape_of (scale_pixels X))
      by now rewrite shape_of_scale_pixels.
    exists (blend alpha_cm (scale_pixels X) noise), t, noise, g'.
    split; [exact Hp|].
    apply subtract_noise_inverts; auto.
    + congruence.
    + now apply blend_shape.
    + intros b k Hb' Hk. rewrite blend_entry by assumption.
      unfold alpha_cm. now rewrite (nth_map_in_range _ _ b 0%Z) by lia.
Qed.

Lemma subtract_noise_round_trip_witness :
  exists X_t t noise g',
    prepare_batch 2 (alpha_cumprod (variance_schedule 2 0 (1 / 2)))
                  [[0; 1]; [1 / 2; 1]] demo_generator
    = Ok (mkNoisy X_t t, noise, g')
    /\ subtract_noise (alpha_cumprod (variance_schedule 2 0 (1 / 2)))
                      X_t t noise
       = Ok (scale_pixels [[0; 1]; [1 / 2; 1]]).
Proof.
  exact (proj2 (subtract_noise_round_trip 2 0 (1 / 2)
                  ltac:(lia) ltac:(lra) ltac:(lra))
               [[0; 1]; [1 / 2; 1]] demo_generator).
Defined.

(** ** The reverse sampler *)

Lemma random_normal_state sh g :
  snd (tf.random_normal sh g) = tf.advance (list_sum sh) g.
Proof.
  revert g. induction sh as [|m sh IH]; intros g.
  - destruct g as [n u p]. unfold tf.advance. cbn. f_equal. lia.
  - cbn [tf.random_normal]. specialize (IH (tf.advance m g)).
    destruct (tf.random_normal sh (tf.advance m g)) as [rows g'].
    cbn [snd] in *. rewrite IH. unfold tf.advance.
    cbn [tf.normal_src tf.uniform_src tf.pos].
    change (list_sum (m :: sh)) with (m + list_sum sh)%nat. f_equal. lia.
Qed.

Lemma list_sum_repeat m n : list_sum (repeat m n) = (n * m)%nat.
Proof.
  induction n as [|n IH]; [reflexivity|].
  change (list_sum (repeat m (S n))) with (m + list_sum (repeat m n))%nat. lia.
Qed.

(** A generator whose remaining normal samples are all zero draws zeros. *)
Lemma random_normal_quiet sh g :
  (forall k, (tf.pos g <= k)%nat -> tf.normal_src g k = 0) ->
  fst (tf.random_normal sh g) = tf.zeros sh.
Proof.
  revert g. induction sh as [|m sh IH]; intros g Hq; [reflexivity|].
  cbn [tf.random_normal]. specialize (IH (tf.advance m g)).
  destruct (tf.random_normal sh (tf.advance m g)) as [rows g'].
  cbn [fst tf.zeros map] in *. f_equal.
  - apply (nth_ext _ _ 0 0).
    + now rewrite length_map, length_seq, repeat_length.
    + intros k Hk. rewrite length_map, length_seq in Hk.
      rewrite nth_map_seq, nth_repeat_lt by exact Hk. apply Hq. lia.
  - apply IH. intros k Hk. cbn in Hk |- *. apply Hq. lia.
Qed.

Section ReverseSampler.

Variables (sch : schedule) (model : tensor -> list Z -> tensor).
Variable batch_size : nat.

Lemma generate_body_returns (X : tensor) (g : tf.generator) (t : nat) :
  (t < length (alpha sch))%nat ->
  (t < length (beta sch))%nat ->
  (t < length (alpha_cumprod sch))%nat ->
  tf.shape_of (model X (repeat (Z.of_nat t) batch_size)) = tf.shape_of X ->
  generate_body sch model batch_size (X, g) (Z.of_nat t)
  = let zg := if (1 <? t)%nat then tf.random_normal (tf.shape_of X) g
              else (tf.zeros (tf.shape_of X), g) in
    Ok (code_update sch t X (model X (repeat (Z.of_nat t) batch_size)) (fst zg),
        snd zg).
Proof.
  intros Ha Hb Hc Hm. unfold generate_body.
  assert (Hif : (1 <? Z.of_nat t)%Z = (1 <? t)%nat).
  { destruct (Z.ltb_spec 1 (Z.of_nat t)), (Nat.ltb_spec 1 t); auto; lia. }
  rewrite Hif.
  assert (Hz : tf.shape_of
                 (fst (if (1 <? t)%nat
                       then tf.random_normal (tf.shape_of X) g
                       else (tf.zeros (tf.shape_of X), g)))
               = tf.shape_of X).
  { destruct (1 <? t)%nat.
    - apply shape_of_random_normal.
    - apply shape_of_zeros. }
  destruct (if (1 <? t)%nat then _ else _) as [noise g'].
  cbn [fst snd] in *.
  rewrite !getitem_in_range by lia. cbn [bind]. rewrite Nat2Z.id.
  unfold tf.sub, tf.add.
  rewrite elementwise_ok by (rewrite shape_of_scale; congruence).
  cbn [bind].
  rewrite elementwise_ok.
  2:{ rewrite !shape_of_scale, shape_of_elementwise
        by (rewrite shape_of_scale; congruence). congruence. }
  reflexivity.
Qed.

(** The code's chain of tensor operations is the specification's update. *)
Lemma code_update_spec t X X_noise noise :
  code_update sch t X X_noise noise = spec_update sch t X X_noise noise.
Proof.
  unfold code_update, spec_update, tf.scale.
  set (c1 := 1 / sqrt _). set (c2 := _ / sqrt _). set (c3 := sqrt _).
  revert X_noise noise.
  induction X as [|x X IH]; intros [|e E] [|z Z]; try reflexivity.
  cbn [map np.zip_with]. f_equal; [|apply IH].
  clear. revert e z.
  induction x as [|a x IHx]; intros [|b e] [|c z]; try reflexivity.
  cbn [map np.zip_with combine fst snd]. f_equal. apply IHx.
Qed.

(** With a zero prediction and zero noise the update only rescales. *)
Lemma code_update_zero t X :
  code_update sch t X (tf.zeros (tf.shape_of X)) (tf.zeros (tf.shape_of X))
  = tf.scale (1 / sqrt (alpha sch).[t]) X.
Proof.
  unfold code_update, tf.scale, tf.zeros, tf.shape_of.
  set (c1 := 1 / sqrt _). set (c2 := _ / sqrt _). set (c3 := sqrt _).
  induction X as [|x X IH]; [reflexivity|].
  cbn [map np.zip_with]. f_equal; [|apply IH].
  clear. induction x as [|a x IHx]; [reflexivity|].
  cbn [length repeat map np.zip_with]. f_equal; [ring|apply IHx].
Qed.

End ReverseSampler.

Lemma scale_scale a b X : tf.scale a (tf.scale b X) = tf.scale (a * b) X.
Proof.
  unfold tf.scale. rewrite map_map. apply map_ext. intros x.
  rewrite map_map. apply map_ext. intros v. ring.
Qed.

Section ReverseLoop.

Variables (sch : schedule) (model : tensor -> list Z -> tensor).
Variable batch_size : nat.

(** The loop over [range(n, 0, -1)] runs the steps [n, n-1, ..., 1] of
    the specification's state machine, without raising. *)
Lemma generate_loop_spec (n : nat) :
  (n < length (alpha sch))%nat ->
  (n < length (beta sch))%nat ->
  (n < length (alpha_cumprod sch))%nat ->
  (forall X ts, tf.shape_of (model X ts) = tf.shape_of X) ->
  forall X g,
    for_each (generate_body sch model batch_size)
             (range_down (Z.of_nat n) 0) (X, g)
    = Ok (spec_reverse sch
            (fun X t => model X (repeat (Z.of_nat t) batch_size)) n (X, g)).
Proof.
  intros Ha Hb Hc Hm. induction n as [|n IH]; intros X g.
  - rewrite range_down_nil by lia. reflexivity.
  - rewrite range_down_S by lia. cbn [for_each].
    replace (Z.of_nat (S n) - 1)%Z with (Z.of_nat n) by lia.
    rewrite generate_body_returns by auto. cbn zeta. cbn [bind].
    rewrite code_update_spec. cbn [spec_reverse].
    destruct (if (1 <? S n)%nat then _ else _) as [z g1]. cbn [fst snd].
    apply IH; lia.
Qed.

(** With a zero prediction and a generator that only draws zeros, the
    loop multiplies the sample by the factors [1/sqrt(alpha[t])]. *)
Lemma generate_loop_zero (n : nat) :
  (n < length (alpha sch))%nat ->
  (n < length (beta sch))%nat ->
  (n < length (alpha_cumprod sch))%nat ->
  (forall X ts, model X ts = tf.zeros (tf.shape_of X)) ->
  forall X g,
    (forall k, (tf.pos g <= k)%nat -> tf.normal_src g k = 0) ->
    exists g',
      for_each (generate_body sch model batch_size)
               (range_down (Z.of_nat n) 0) (X, g)
      = Ok (tf.scale (inv_sqrt_prod (alpha sch) n) X, g').
Proof.
  intros Ha Hb Hc Hm. induction n as [|n IH]; intros X g Hq.
  - rewrite range_down_nil by lia. exists g. cbn [for_each inv_sqrt_prod].
    do 2 f_equal. unfold tf.scale. symmetry.
    rewrite (map_ext _ (fun x => x)); [apply map_id|].
    intros x. rewrite (map_ext _ (fun v => v)); [apply map_id|].
    intros v. ring.
  - rewrite range_down_S by lia. cbn [for_each].
    replace (Z.of_nat (S n) - 1)%Z with (Z.of_nat n) by lia.
    rewrite generate_body_returns; auto.
    2:{ rewrite Hm. apply shape_of_zeros. }
    cbn zeta. cbn [bind]. rewrite Hm.
    set (zg := if (1 <? S n)%nat then _ else _).
    assert (Hz : fst zg = tf.zeros (tf.shape_of X)).
    { unfold zg. destruct (1 <? S n)%nat; [|reflexivity].
      now apply random_normal_quiet. }
    assert (Hq' : forall k, (tf.pos (snd zg) <= k)%nat ->
                            tf.normal_src (snd zg) k = 0).
    { unfold zg. destruct (1 <? S n)%nat; [|exact Hq].
      rewrite random_normal_state. cbn. intros k Hk. apply Hq. lia. }
    rewrite Hz, code_update_zero.
    destruct (IH ltac:(lia) ltac:(lia) ltac:(lia)
                (tf.scale (1 / sqrt (alpha sch).[S n]) X) (snd zg) Hq')
      as [g' Hg'].
    exists g'. rewrite Hg', scale_scale. reflexivity.
Qed.

End ReverseLoop.

(** Every entry of the specification's update is the stated formula. *)
Lemma spec_update_entry (sch : schedule) (t : nat) (X E Z : tensor) b k :
  tf.shape_of E = tf.shape_of X -> tf.shape_of Z = tf.shape_of X ->
  (b < length X)%nat -> (k < length (nth b X []))%nat ->
  (nth b (spec_update sch t X E Z) []).[k]
  = 1 / sqrt (alpha sch).[t]
    * ((nth b X []).[k]
       - (beta sch).[t] / sqrt (1 - (alpha_cumprod sch).[t]) * (nth b E []).[k])
    + sqrt (1 - (alpha sch).[t]) * (nth b Z []).[k].
Proof.
  intros HE HZ Hb Hk. unfold spec_update.
  assert (HlE : length E = length X) by now apply shape_eq_length.
  assert (HlZ : length Z = length X) by now apply shape_eq_length.
  assert (HkE : length (nth b E []) = length (nth b X []))
    by (apply shape_eq_row; [exact HE|lia]).
  assert (HkZ : length (nth b Z []) = length (nth b X []))
    by (apply shape_eq_row; [exact HZ|lia]).
  rewrite (nth_zip_with _ _ _ b [] [] []) by (rewrite ?length_zip_with; lia).
  rewrite (nth_zip_with _ _ _ b [] [] []) by lia.
  rewrite (nth_zip_with _ _ _ k 0 (0, 0) 0)
    by (rewrite ?length_combine; lia).
  rewrite combine_nth by congruence. reflexivity.
Qed.

(** C1.  For [T >= 1], a schedule whose three arrays have [T + 1] entries
    and a predictor that returns the shape it is given, [generate] returns
    the final state of the reverse sampler: the state starts as a fresh
    standard-normal draw of [batch_size] images, the steps
    [t = T-1, ..., 1] are taken in that order, and each one replaces [X] by
    [(1/sqrt(alpha[t])) * (X - beta[t]/sqrt(1 - alpha_bar[t]) * noise_pred)
     + sqrt(1 - alpha[t]) * z], with [noise_pred] the prediction at [(X, t)]
    and [z] a fresh normal draw when [t > 1] and the zero tensor when
    [t = 1]. *)
Theorem generate_reverse_sampler (T : Z) (sch : schedule)
    (model : tensor -> list Z -> tensor) (batch_size : nat) (g : tf.generator) :
  (1 <= T)%Z ->
  Z.of_nat (length (alpha sch)) = (T + 1)%Z ->
  Z.of_nat (length (alpha_cumprod sch)) = (T + 1)%Z ->
  Z.of_nat (length (beta sch)) = (T + 1)%Z ->
  (forall X ts, tf.shape_of (model X ts) = tf.shape_of X) ->
  generate T sch model batch_size g
  = Ok (spec_reverse sch
          (fun X t => model X (repeat (Z.of_nat t) batch_size))
          (Z.to_nat (T - 1))
          (tf.random_normal (repeat image_size batch_size) g)).
Proof.
  intros HT Ha Hc Hb Hm. unfold generate.
  destruct (tf.random_normal (repeat image_size batch_size) g) as [X g1].
  pose proof (generate_loop_spec sch model batch_size (Z.to_nat (T - 1))
                ltac:(lia) ltac:(lia) ltac:(lia) Hm X g1) as Hloop.
  rewrite Z2Nat.id in Hloop by lia. exact Hloop.
Qed.

Lemma generate_reverse_sampler_witness :
  generate 3 (variance_schedule 3 0 (1 / 2)) zero_model 1 demo_generator
  = Ok (spec_reverse (variance_schedule 3 0 (1 / 2))
          (fun X t => zero_model X (repeat (Z.of_nat t) 1))
          2 (tf.random_normal (repeat image_size 1) demo_generator)).
Proof.
  apply (generate_reverse_sampler 3 (variance_schedule 3 0 (1 / 2))
           zero_model 1 demo_generator); try reflexivity; try lia.
  intros X ts. apply shape_of_zeros.
Defined.

(** C7.  For [T >= 1] and a schedule of [T + 1] entries per array whose
    divisors [sqrt(alpha[t])] and [sqrt(1 - alpha_bar[t])] are non-zero at
    the steps visited: if the predictor returns the zero tensor at every
    step and every normal sample after the initial draw is zero, [generate]
    returns the initial sample multiplied by the product of
    [1/sqrt(alpha[t])] for [t = T-1, ..., 1]. *)
Theorem generate_zero_predictor (T : Z) (sch : schedule)
    (model : tensor -> list Z -> tensor) (batch_size : nat)
    (g : tf.generator) (X_init : tensor) :
  (1 <= T)%Z ->
  Z.of_nat (length (alpha sch)) = (T + 1)%Z ->
  Z.of_nat (length (alpha_cumprod sch)) = (T + 1)%Z ->
  Z.of_nat (length (beta sch)) = (T + 1)%Z ->
  (forall t, (1 <= t <= Z.to_nat (T - 1))%nat ->
             0 < (alpha sch).[t] /\ (alpha_cumprod sch).[t] < 1) ->
  (forall X ts, model X ts = tf.zeros (tf.shape_of X)) ->
  (forall k, (tf.pos g + batch_size * image_size <= k)%nat ->
             tf.normal_src g k = 0) ->
  fst (tf.random_normal (repeat image_size batch_size) g) = X_init ->
  exists g',
    generate T sch model batch_size g
    = Ok (tf.scale (inv_sqrt_prod (alpha sch) (Z.to_nat (T - 1))) X_init, g').
Proof.
  intros HT Ha Hc Hb Hdiv Hm Hq Hinit. unfold generate.
  pose proof (random_normal_state (repeat image_size batch_size) g) as Hst.
  destruct (tf.random_normal (repeat image_size batch_size) g) as [X g1].
  cbn [fst snd] in *. subst X g1. rewrite list_sum_repeat.
  destruct (generate_loop_zero sch model batch_size (Z.to_nat (T - 1))
              ltac:(lia) ltac:(lia) ltac:(lia) Hm X_init
              (tf.advance (batch_size * image_size) g)) as [g' Hg'].
  { intros k Hk. cbn in Hk |- *. apply Hq. exact Hk. }
  rewrite Z2Nat.id in Hg' by lia. exists g'. exact Hg'.
Qed.

Lemma generate_zero_predictor_witness :
  exists g',
    generate 3 (variance_schedule 3 0 (1 / 2)) zero_model 1
             (quiet_generator image_size)
    = Ok (tf.scale (inv_sqrt_prod (alpha (variance_schedule 3 0 (1 / 2))) 2)
                   (fst (tf.random_normal (repeat image_size 1)
                           (quiet_generator image_size))),
          g').
Proof.
  apply (generate_zero_predictor 3 (variance_schedule 3 0 (1 / 2)) zero_model 1
           (quiet_generator image_size)); try reflexivity; try lia.
  - intros t Ht. split.
    + apply (Forall_nth_unit (alpha (variance_schedule 3 0 (1 / 2)))).
      * apply variance_schedule_alpha_unit. lra.
      * simpl in Ht |- *. lia.
    + apply variance_schedule_alpha_bar_lt_1; try lra; simpl in Ht |- *; lia.
  - intros k Hk. cbn [quiet_generator tf.normal_src tf.pos] in *.
    destruct (Nat.ltb_spec k image_size); [lia|reflexivity].
Defined.

(** * Further properties of the schedules *)

Lemma clip_at_lo x lo hi : x <= lo -> lo <= hi -> np.clip x lo hi = lo.
Proof.
  intros H1 H2. unfold np.clip, Rmin, Rmax.
  destruct (Rle_dec x lo); destruct (Rle_dec _ hi); lra.
Qed.

Lemma schedule_alpha_clipped (T : Z) (s max_beta : R) (sch : schedule) :
  0 <= max_beta ->
  sch = variance_schedule T s max_beta \/ sch = linear_schedule T s max_beta ->
  Forall (fun a => 1 - max_beta <= a <= 1) (alpha sch).
Proof.
  intros Hb [-> | ->].
  - cbn [variance_schedule alpha np.append]. constructor; [lra|].
    apply Forall_forall. intros x Hx. apply in_map_iff in Hx.
    destruct Hx as [y [<- _]]. apply clip_bounds. lra.
  - cbn [linear_schedule alpha np.append]. constructor; [lra|].
    apply Forall_forall. intros x Hx. apply in_map_iff in Hx.
    destruct Hx as [y [<- _]]. apply clip_bounds. lra.
Qed.

(** X1.  Under both policies, for [T >= 1], [s >= 0] and every
    [max_beta >= 0], in exact arithmetic: [beta] has as many entries as
    [alpha], and at every position [beta[t] = 1 - alpha[t]],
    [1 - max_beta <= alpha[t] <= 1] and [0 <= beta[t] <= max_beta]: no step
    injects more than [max_beta]. *)
Theorem schedule_alpha_beta_bounds (T : Z) (s max_beta : R) (sch : schedule) :
  (1 <= T)%Z -> 0 <= s -> 0 <= max_beta ->
  sch = variance_schedule T s max_beta \/ sch = linear_schedule T s max_beta ->
  length (beta sch) = length (alpha sch)
  /\ forall t, (t < length (alpha sch))%nat ->
       (beta sch).[t] = 1 - (alpha sch).[t]
       /\ 1 - max_beta <= (alpha sch).[t] <= 1
       /\ 0 <= (beta sch).[t] <= max_beta.
Proof.
  intros HT Hs Hb Hsch.
  assert (Hbeta : beta sch = map (fun a => 1 - a) (alpha sch))
    by (destruct Hsch; subst; reflexivity).
  pose proof (schedule_alpha_clipped T s max_beta sch Hb Hsch) as Hc.
  split; [rewrite Hbeta; apply length_map|].
  intros t Ht.
  assert (Ha : 1 - max_beta <= (alpha sch).[t] <= 1).
  { eapply (proj1 (Forall_forall _ (alpha sch)) Hc). now apply nth_In. }
  rewrite schedule_beta_nth by assumption.
  split; [reflexivity|]. split; [exact Ha|lra].
Qed.

Lemma schedule_alpha_beta_bounds_witness :
  let sch := linear_schedule 4000 (8 / 1000) (999 / 1000) in
  (beta sch).[1] = 1 - (alpha sch).[1]
  /\ 0 <= (beta sch).[1] <= 999 / 1000.
Proof.
  destruct (schedule_alpha_beta_bounds 4000 (8 / 1000) (999 / 1000)
              (linear_schedule 4000 (8 / 1000) (999 / 1000))
              ltac:(lia) ltac:(lra) ltac:(lra) (or_intror eq_refl)) as [_ H].
  destruct (H 1%nat) as (H1 & _ & H3).
  - pose proof (linear_schedule_lengths 4000 (8 / 1000) (999 / 1000)) as [Hl _].
    cbn zeta in Hl. rewrite Hl. lia.
  - cbn zeta. split; assumption.
Defined.

Lemma cos_f_last (T : Z) (s : R) : (1 <= T)%Z -> 0 <= s -> cos_f T s T = 0.
Proof.
  intros HT Hs. unfold cos_f, cos_angle.
  assert (H0 : IZR T <> 0) by (apply not_0_IZR; lia).
  replace ((IZR T / IZR T + s) / (1 + s) * PI / 2) with (PI / 2)
    by (field; split; lra).
  rewrite cos_PI2. ring.
Qed.

(** X2.  The last step of the cosine policy is always the clipped one: for
    [T >= 1], [s >= 0] and [max_beta] in (0,1), [f[T] = 0], so
    [alpha[T] = 1 - max_beta] and [beta[T] = max_beta], and the signal left
    after all steps is [alpha_bar[T] = alpha_bar[T-1] * (1 - max_beta)],
    positive and at most [1 - max_beta]. *)
Theorem variance_schedule_last_step (T : Z) (s max_beta : R) :
  (1 <= T)%Z -> 0 <= s -> 0 < max_beta < 1 ->
  let sch := variance_schedule T s max_beta in
  let n := Z.to_nat T in
  (alpha sch).[n] = 1 - max_beta
  /\ (beta sch).[n] = max_beta
  /\ (alpha_cumprod sch).[n] = (alpha_cumprod sch).[n - 1] * (1 - max_beta)
  /\ 0 < (alpha_cumprod sch).[n] <= 1 - max_beta.
Proof.
  intros HT Hs Hb sch n.
  pose proof (variance_schedule_lengths T s max_beta) as (Hla & Hlc & Hlb).
  cbn zeta in Hla, Hlc, Hlb. fold sch in Hla, Hlc, Hlb.
  assert (Hn : n = S (n - 1)) by (unfold n; lia).
  assert (Ha : (alpha sch).[n] = 1 - max_beta).
  { rewrite Hn. unfold sch. rewrite variance_schedule_alpha_S by (unfold n; lia).
    rewrite <- Hn. unfold n. rewrite Z2Nat.id by lia.
    rewrite cos_f_last by assumption.
    apply clip_at_lo; [|lra]. unfold Rdiv. rewrite Rmult_0_l. lra. }
  pose proof (variance_schedule_alpha_unit T s max_beta Hb) as Hu. fold sch in Hu.
  assert (Hstep : (alpha_cumprod sch).[n]
                  = (alpha_cumprod sch).[n - 1] * (1 - max_beta)).
  { change (alpha_cumprod sch) with (np.cumprod (alpha sch)).
    rewrite cumprod_step by (rewrite Hla; unfold n; lia). now rewrite Ha. }
  assert (Hprev : unit_interval (alpha_cumprod sch).[n - 1]).
  { change (alpha_cumprod sch) with (np.cumprod (alpha sch)).
    apply cumprod_unit_interval; [exact Hu|]. rewrite Hla. unfold n. lia. }
  split; [exact Ha|]. split.
  - rewrite schedule_beta_nth; [rewrite Ha; ring|reflexivity|].
    rewrite Hla. unfold n. lia.
  - split; [exact Hstep|]. rewrite Hstep. unfold unit_interval in Hprev. nra.
Qed.

Lemma variance_schedule_last_step_witness :
  let sch := variance_schedule 4000 (8 / 1000) (999 / 1000) in
  (alpha sch).[4000] = 1 - 999 / 1000 /\ (beta sch).[4000] = 999 / 1000.
Proof.
  destruct (variance_schedule_last_step 4000 (8 / 1000) (999 / 1000)
              ltac:(lia) ltac:(lra) ltac:(lra)) as (H1 & H2 & _).
  cbn zeta. split; [exact H1|exact H2].
Defined.


(** X4.  Where no ratio has been clipped the running product telescopes:
    for [T >= 1], [s >= 0], [max_beta >= 0] and [t <= T], if
    [f[k] / f[k-1] >= 1 - max_beta] for every [k] in [1..t], then
    [alpha_bar[t] = f[t] / f[0]], the cosine curve itself. *)
Theorem variance_schedule_telescopes (T : Z) (s max_beta : R) (t : nat) :
  (1 <= T)%Z -> 0 <= s -> 0 <= max_beta ->
  (t <= Z.to_nat T)%nat ->
  (forall k, (k < t)%nat ->
     1 - max_beta <= cos_f T s (Z.of_nat (S k)) / cos_f T s (Z.of_nat k)) ->
  (alpha_cumprod (variance_schedule T s max_beta)).[t]
  = cos_f T s (Z.of_nat t) / cos_f T s 0.
Proof.
  intros HT Hs Hb Ht Hclip.
  pose proof (variance_schedule_lengths T s max_beta) as (Hla & _).
  cbn zeta in Hla.
  assert (H0 : 0 < cos_f T s 0) by (apply cos_f_pos; auto; lia).
  change (alpha_cumprod (variance_schedule T s max_beta))
    with (np.cumprod (alpha (variance_schedule T s max_beta))).
  induction t as [|t IH].
  - rewrite cumprod_head by (rewrite Hla; lia).
    rewrite variance_schedule_alpha_0. cbn [Z.of_nat]. field. lra.
  - rewrite cumprod_step by (rewrite Hla; lia).
    replace (S t - 1)%nat with t by lia.
    rewrite IH by (try lia; intros k Hk; apply Hclip; lia).
    rewrite variance_schedule_alpha_S by lia.
    destruct (cos_f_ratio T s HT Hs t ltac:(lia)) as [Hp Hr].
    rewrite clip_id by (split; [apply Hclip; lia|lra]).
    field. split; lra.
Qed.

Lemma variance_schedule_telescopes_witness :
  (alpha_cumprod (variance_schedule 2 0 (3 / 4))).[1]
  = cos_f 2 0 1 / cos_f 2 0 0.
Proof.
  apply (variance_schedule_telescopes 2 0 (3 / 4) 1); try lia; try lra.
  intros k Hk. assert (k = 0)%nat by lia. subst k. cbn [Z.of_nat Pos.of_succ_nat].
  assert (H0 : cos_f 2 0 0 = 1).
  { unfold cos_f, cos_angle.
    replace ((0 / 2 + 0) / (1 + 0) * PI / 2) with 0 by field.
    rewrite cos_0. ring. }
  assert (H1 : cos_f 2 0 1 = 1 / 2).
  { unfold cos_f, cos_angle.
    replace ((1 / 2 + 0) / (1 + 0) * PI / 2) with (PI / 4) by field.
    rewrite cos_PI4. unfold Rdiv. rewrite Rmult_1_l.
    assert (Hq : sqrt 2 * sqrt 2 = 2) by (apply sqrt_sqrt; lra).
    assert (Hs2 : 0 < sqrt 2) by (apply sqrt_lt_R0; lra).
    field_simplify; [|lra]. rewrite <- Rsqr_pow2. unfold Rsqr. rewrite Hq. lra. }
  rewrite H0, H1. lra.
Defined.

(** X5.  Under the linear policy the entry at index 1 is the [f[0] = 1]
    the leading 1 was prepended to: for [T >= 1] and [max_beta >= 0],
    [alpha[1] = 1], [beta[1] = 0] and [alpha_bar[1] = 1].  Read by
    [generate] at its last step [t = 1], they make the divisor
    [sqrt(1 - alpha_bar[1])] of the update zero. *)
Theorem linear_schedule_first_step (T : Z) (s max_beta : R) :
  (1 <= T)%Z -> 0 <= max_beta ->
  let sch := linear_schedule T s max_beta in
  getitem (alpha sch) 1 = Ok 1
  /\ getitem (beta sch) 1 = Ok 0
  /\ getitem (alpha_cumprod sch) 1 = Ok 1
  /\ sqrt (1 - (alpha_cumprod sch).[1]) = 0.
Proof.
  intros HT Hb sch.
  pose proof (linear_schedule_lengths T s max_beta) as (Hla & Hlc & Hlb).
  cbn zeta in Hla, Hlc, Hlb. fold sch in Hla, Hlc, Hlb.
  assert (Ha : (alpha sch).[1] = 1).
  { unfold sch. rewrite (linear_schedule_alpha_S T s max_beta 0) by lia.
    unfold lin_f. cbn [Z.of_nat].
    replace (1 - step_scale * 0 / IZR T) with 1 by (unfold Rdiv; ring).
    apply clip_id. lra. }
  assert (Hc : (alpha_cumprod sch).[1] = 1).
  { change (alpha_cumprod sch) with (np.cumprod (alpha sch)).
    rewrite cumprod_step by (rewrite Hla; lia). cbn [Nat.sub].
    rewrite cumprod_head by (rewrite Hla; lia). rewrite Ha.
    unfold sch. cbn [linear_schedule alpha np.append nth]. ring. }
  rewrite !getitem_in_range by (rewrite ?Hla, ?Hlb, ?Hlc; lia).
  change (Z.to_nat 1) with 1%nat.
  split; [now rewrite Ha|]. split.
  - rewrite schedule_beta_nth; [|reflexivity|rewrite Hla; lia].
    rewrite Ha. apply (f_equal Ok). ring.
  - split; [now rewrite Hc|]. rewrite Hc.
    replace (1 - 1) with 0 by ring. apply sqrt_0.
Qed.

Lemma linear_schedule_first_step_witness :
  getitem (alpha_cumprod (linear_schedule 4000 (8 / 1000) (999 / 1000))) 1
  = Ok 1.
Proof.
  destruct (linear_schedule_first_step 4000 (8 / 1000) (999 / 1000)
              ltac:(lia) ltac:(lra)) as (_ & _ & H & _).
  exact H.
Defined.

(** * Further properties of the reverse sampler *)

Lemma getitem_short (a : list R) (t : Z) :
  (0 <= t)%Z -> (Z.of_nat (length a) <= t)%Z -> getitem a t = Raise IndexError.
Proof.
  intros H0 Hl. unfold getitem.
  destruct (Z.ltb_spec t 0); [lia|].
  destruct (Z.leb_spec 0 t); [|lia].
  destruct (Z.ltb_spec t (Z.of_nat (length a))); [lia|]. reflexivity.
Qed.

Lemma getitem_outcome (a : list R) (t : Z) :
  getitem a t = Raise IndexError \/ exists v, getitem a t = Ok v.
Proof.
  unfold getitem. destruct (_ && _)%bool; [right; eexists; reflexivity|now left].
Qed.

(** X6.  [generate] raises [IndexError] at its first step whenever [T >= 2]
    and one of the three schedule arrays has no entry [T - 1], whatever the
    model and the generator. *)
Theorem generate_index_error (T : Z) (sch : schedule)
    (model : tensor -> list Z -> tensor) (batch_size : nat) (g : tf.generator) :
  (2 <= T)%Z ->
  (Z.of_nat (length (alpha sch)) <= T - 1
   \/ Z.of_nat (length (beta sch)) <= T - 1
   \/ Z.of_nat (length (alpha_cumprod sch)) <= T - 1)%Z ->
  generate T sch model batch_size g = Raise IndexError.
Proof.
  intros HT Hshort. unfold generate.
  destruct (tf.random_normal (repeat image_size batch_size) g) as [X g1].
  rewrite range_down_S by lia. cbn [for_each]. unfold generate_body.
  destruct (if (1 <? T - 1)%Z then _ else _) as [noise g2].
  destruct (getitem_outcome (alpha sch) (T - 1)) as [->|[a Ha]]; [reflexivity|].
  rewrite Ha. cbn [bind].
  destruct (getitem_outcome (beta sch) (T - 1)) as [->|[b Hb]]; [reflexivity|].
  rewrite Hb. cbn [bind].
  destruct (getitem_outcome (alpha_cumprod sch) (T - 1)) as [->|[c Hc]];
    [reflexivity|].
  exfalso. destruct Hshort as [H|[H|H]].
  - rewrite getitem_short in Ha by lia. discriminate.
  - rewrite getitem_short in Hb by lia. discriminate.
  - rewrite getitem_short in Hc by lia. discriminate.
Qed.

Lemma generate_index_error_witness :
  generate 3 (variance_schedule 1 0 (1 / 2)) zero_model 4 demo_generator
  = Raise IndexError.
Proof.
  apply generate_index_error; [lia|]. left.
  pose proof (variance_schedule_lengths 1 0 (1 / 2)) as [Hl _].
  cbn zeta in Hl. rewrite Hl. simpl. lia.
Defined.

Lemma advance_0 g : tf.advance 0 g = g.
Proof. destruct g as [n u p]. unfold tf.advance. cbn. f_equal. lia. Qed.

Lemma advance_advance a b g :
  tf.advance a (tf.advance b g) = tf.advance (b + a) g.
Proof. unfold tf.advance. cbn. f_equal. lia. Qed.

Lemma code_update_shape sch t X X_noise noise :
  tf.shape_of X_noise = tf.shape_of X -> tf.shape_of noise = tf.shape_of X ->
  tf.shape_of (code_update sch t X X_noise noise) = tf.shape_of X.
Proof.
  intros H1 H2. unfold code_update.
  rewrite shape_of_elementwise.
  - rewrite shape_of_scale, shape_of_elementwise
      by (rewrite shape_of_scale; congruence). reflexivity.
  - rewrite !shape_of_scale, shape_of_elementwise
      by (rewrite shape_of_scale; congruence). congruence.
Qed.

(** The loop keeps the shape of [X] and draws one tensor of that shape at
    every step but the last. *)
Lemma generate_loop_shape (sch : schedule) (model : tensor -> list Z -> tensor)
    (batch_size n : nat) :
  (n = 0 \/ n < length (alpha sch))%nat ->
  (n = 0 \/ n < length (beta sch))%nat ->
  (n = 0 \/ n < length (alpha_cumprod sch))%nat ->
  (forall X ts, tf.shape_of (model X ts) = tf.shape_of X) ->
  forall X g,
  exists X',
    for_each (generate_body sch model batch_size)
             (range_down (Z.of_nat n) 0) (X, g)
    = Ok (X', tf.advance (list_sum (tf.shape_of X) * (n - 1)) g)
    /\ tf.shape_of X' = tf.shape_of X.
Proof.
  intros Ha Hb Hc Hm. induction n as [|n IH]; intros X g.
  - rewrite range_down_nil by lia. exists X. cbn [for_each].
    rewrite Nat.mul_0_r, advance_0. auto.
  - rewrite range_down_S by lia. cbn [for_each].
    replace (Z.of_nat (S n) - 1)%Z with (Z.of_nat n) by lia.
    rewrite generate_body_returns by (auto; lia). cbn zeta. cbn [bind].
    set (zg := if (1 <? S n)%nat then _ else _).
    assert (Hz : tf.shape_of (fst zg) = tf.shape_of X).
    { unfold zg. destruct (1 <? S n)%nat;
        [apply shape_of_random_normal|apply shape_of_zeros]. }
    assert (Hg : snd zg
                 = tf.advance (if (1 <? S n)%nat
                               then list_sum (tf.shape_of X) else 0) g).
    { unfold zg. destruct (1 <? S n)%nat.
      - apply random_normal_state.
      - cbn [snd]. now rewrite advance_0. }
    set (X1 := code_update sch (S n) X _ (fst zg)).
    assert (H1 : tf.shape_of X1 = tf.shape_of X)
      by (apply code_update_shape; auto).
    destruct (IH ltac:(lia) ltac:(lia) ltac:(lia) X1 (snd zg)) as (X' & He & Hs).
    exists X'. rewrite He, Hg, H1, advance_advance. split; [|congruence].
    do 3 f_equal.
    destruct (Nat.ltb_spec 1 (S n)); destruct n; try lia; cbn [Nat.sub]; nia.
Qed.

(** X7.  Whenever the schedule arrays reach index [T - 1] (nothing is
    required of them for [T <= 1]) and the model returns the shape it is
    given, [generate] returns [batch_size] images of [28 * 28 * 1] entries
    and leaves the generator advanced by exactly [max(1, T - 1)] tensors of
    that size: the initial draw and one per step [t > 1]. *)
Theorem generate_returns (T : Z) (sch : schedule)
    (model : tensor -> list Z -> tensor) (batch_size : nat) (g : tf.generator) :
  (T <= Z.max 1 (Z.of_nat (length (alpha sch))))%Z ->
  (T <= Z.max 1 (Z.of_nat (length (beta sch))))%Z ->
  (T <= Z.max 1 (Z.of_nat (length (alpha_cumprod sch))))%Z ->
  (forall X ts, tf.shape_of (model X ts) = tf.shape_of X) ->
  exists X,
    generate T sch model batch_size g
    = Ok (X, tf.advance (batch_size * image_size
                         * Z.to_nat (Z.max 1 (T - 1))) g)
    /\ tf.shape_of X = repeat image_size batch_size.
Proof.
  intros Ha Hb Hc Hm. unfold generate.
  pose proof (shape_of_random_normal (repeat image_size batch_size) g) as Hs0.
  pose proof (random_normal_state (repeat image_size batch_size) g) as Hg0.
  destruct (tf.random_normal (repeat image_size batch_size) g) as [X0 g0].
  cbn [fst snd] in Hs0, Hg0. rewrite list_sum_repeat in Hg0.
  set (n := Z.to_nat (T - 1)).
  destruct (generate_loop_shape sch model batch_size n
              ltac:(unfold n; lia) ltac:(unfold n; lia) ltac:(unfold n; lia)
              Hm X0 g0) as (X & He & Hs).
  exists X. split; [|congruence].
  assert (Hr : range_down (T - 1) 0 = range_down (Z.of_nat n) 0).
  { destruct (Z.le_gt_cases (T - 1) 0).
    - rewrite !range_down_nil by (unfold n; lia). reflexivity.
    - unfold n. now rewrite Z2Nat.id by lia. }
  rewrite Hr, He, Hg0, Hs0, list_sum_repeat, advance_advance.
  do 3 f_equal.
  assert (Hm1 : Z.to_nat (Z.max 1 (T - 1)) = Nat.max 1 n) by (unfold n; lia).
  rewrite Hm1. destruct n as [|[|n]]; cbn [Nat.sub Nat.max]; nia.
Qed.

Lemma generate_returns_witness :
  exists X,
    generate 3 (variance_schedule 3 0 (1 / 2)) zero_model 4 demo_generator
    = Ok (X, tf.advance (4 * image_size * 2) demo_generator)
    /\ tf.shape_of X = repeat image_size 4.
Proof.
  apply (generate_returns 3 (variance_schedule 3 0 (1 / 2)) zero_model 4
           demo_generator).
  - pose proof (variance_schedule_lengths 3 0 (1 / 2)) as (-> & _). simpl. lia.
  - pose proof (variance_schedule_lengths 3 0 (1 / 2)) as (_ & _ & ->). simpl. lia.
  - pose proof (variance_schedule_lengths 3 0 (1 / 2)) as (_ & -> & _). simpl. lia.
  - intros X ts. apply shape_of_zeros.
Defined.

(** * Error behaviour of the batch functions *)

Lemma gather_outcome (params : list R) (indices : list Z) :
  tf.gather params indices = Raise InvalidArgumentError
  \/ exists vs, tf.gather params indices = Ok vs /\ length vs = length indices.
Proof.
  unfold tf.gather. induction indices as [|i l IH]; [right; exists []; auto|].
  cbn [mapM]. destruct (i <? 0)%Z; [now left|].
  destruct (nth_error params (Z.to_nat i)) as [v|]; [|now left].
  cbn [bind]. destruct IH as [->|(vs & -> & Hl)]; [now left|].
  right. exists (v :: vs). cbn [bind length]. auto.
Qed.

Lemma gather_raises (params : list R) (indices : list Z) :
  Exists (bad_index params) indices ->
  tf.gather params indices = Raise InvalidArgumentError.
Proof.
  unfold tf.gather. induction 1 as [i l Hbad|i l _ IH]; cbn [mapM].
  - destruct (Z.ltb_spec i 0); [reflexivity|].
    destruct (nth_error params (Z.to_nat i)) eqn:Hn; [|reflexivity].
    assert (Z.to_nat i < length params)%nat
      by (apply nth_error_Some; congruence).
    unfold bad_index in Hbad. lia.
  - destruct (i <? 0)%Z; [reflexivity|].
    destruct (nth_error params (Z.to_nat i)); [|reflexivity].
    cbn [bind]. now rewrite IH.
Qed.

(** X8.  On a non-empty batch [prepare_batch] raises
    [InvalidArgumentError] when [T <= 0] (there is no step to draw from
    [1..T]) and when a step it draws, [1 + w mod T] for the raw word [w] of
    some sample, has no entry in [alpha_cumprod]. *)
Theorem prepare_batch_raises (T : Z) (alpha_bar : list R)
    (X : tensor) (g : tf.generator) :
  X <> [] ->
  (T <= 0)%Z
  \/ (exists b, (b < length X)%nat
        /\ (Z.of_nat (length alpha_bar)
            <= 1 + tf.uniform_src g (tf.pos g + b) mod T)%Z) ->
  prepare_batch T alpha_bar X g = Raise InvalidArgumentError.
Proof.
  intros Hne Hbad. unfold prepare_batch.
  destruct (Z.le_gt_cases T 0) as [HT|HT].
  - unfold tf.random_uniform. destruct (Z.ltb_spec 1 (T + 1)); [lia|].
    destruct (Nat.eqb_spec (length (tf.shape_of (scale_pixels X))) 0)
      as [Hempty|_]; [|reflexivity].
    rewrite length_shape_of in Hempty. unfold scale_pixels in Hempty.
    rewrite length_map in Hempty. apply length_zero_iff_nil in Hempty.
    contradiction.
  - destruct Hbad as [Hbad|(b & Hb & Hlen)]; [lia|].
    destruct (random_uniform_range (length (tf.shape_of (scale_pixels X)))
                1 (T + 1) g ltac:(lia)) as (t & Hu & Hlt & _ & Hnt).
    rewrite Hu. cbn [bind].
    assert (HlX : length (tf.shape_of (scale_pixels X)) = length X).
    { rewrite length_shape_of. apply length_map. }
    rewrite HlX in Hlt, Hnt.
    rewrite gather_raises; [reflexivity|].
    apply Exists_exists. exists (nth b t 0%Z). split.
    + apply nth_In. lia.
    + rewrite Hnt by exact Hb. replace (T + 1 - 1)%Z with T by lia.
      unfold bad_index. lia.
Qed.

Lemma prepare_batch_raises_witness :
  prepare_batch 0 [1] [[1 / 2]] demo_generator = Raise InvalidArgumentError
  /\ prepare_batch 2 [1; 1 / 2] [[1 / 2]; [1 / 4]] demo_generator
     = Raise InvalidArgumentError.
Proof.
  split.
  - apply prepare_batch_raises; [discriminate|]. left. lia.
  - apply prepare_batch_raises; [discriminate|]. right.
    exists 1%nat. split; [simpl; lia|]. vm_compute. discriminate.
Defined.

(** X9.  [subtract_noise] raises [InvalidArgumentError] when a step is
    negative or has no entry in [alpha_cumprod], and when there is not
    exactly one step per image, whatever the images and the noise. *)
Theorem subtract_noise_raises (alpha_bar : list R)
    (X_t : tensor) (t : list Z) (noise : tensor) :
  Exists (bad_index alpha_bar) t \/ length t <> length X_t ->
  subtract_noise alpha_bar X_t t noise = Raise InvalidArgumentError.
Proof.
  intros Hbad. unfold subtract_noise.
  destruct (gather_outcome alpha_bar t) as [->|(vs & Hg & Hl)]; [reflexivity|].
  destruct Hbad as [Hbad|Hbad].
  - rewrite gather_raises in Hg by exact Hbad. discriminate.
  - rewrite Hg. cbn [bind]. unfold tf.reshape. rewrite length_shape_of, Hl.
    destruct (Nat.eqb_spec (length t) (length X_t)); [contradiction|reflexivity].
Qed.

Lemma subtract_noise_raises_witness :
  subtract_noise [1; 1 / 2] [[0]; [1]] [1; 2]%Z [[0]; [0]]
  = Raise InvalidArgumentError
  /\ subtract_noise [1; 1 / 2] [[0]; [1]] [1]%Z [[0]; [0]]
     = Raise InvalidArgumentError.
Proof.
  split; apply subtract_noise_raises.
  - left. apply Exists_cons_tl, Exists_cons_hd. unfold bad_index. simpl. lia.
  - right. simpl. lia.
Defined.

(** * Further properties of the time encoding *)

Lemma TimeEncoding_no_rows (embed_size : Z) :
  (0 <= embed_size)%Z -> (embed_size mod 2 = 0)%Z ->
  TimeEncoding (-1) embed_size = Ok [].
Proof.
  intros HE Hev. unfold TimeEncoding. rewrite Hev. cbn [Z.eqb negb].
  change (np.arange (-1 + 1)) with (@nil Z).
  unfold npm.meshgrid, npm.empty. change (-1 + 1 <? 0)%Z with false.
  destruct (Z.ltb_spec embed_size 0); [lia|]. cbn [orb bind].
  change (Z.to_nat (-1 + 1)) with 0%nat. cbn [repeat length].
  unfold npm.transpose, npm.assign_cols. cbn [seq map length Nat.eqb forallb andb].
  cbn [bind np.zip_with]. reflexivity.
Qed.

(** X10.  With an even [embed_size] the constructor of the time encoding
    succeeds exactly for [T >= -1] and [embed_size >= 0], and then stores
    the table of [T + 1] rows (none for [T = -1]); for [T < -1] or a
    negative even [embed_size] it raises [ValueError] when it allocates the
    table. *)
Theorem TimeEncoding_outcome (T embed_size : Z) :
  (embed_size mod 2 = 0)%Z ->
  ((-1 <= T)%Z /\ (0 <= embed_size)%Z ->
     TimeEncoding T embed_size = Ok (encoding_table T embed_size)
     /\ length (encoding_table T embed_size) = Z.to_nat (T + 1))
  /\ ((T < -1)%Z \/ (embed_size < 0)%Z ->
        TimeEncoding T embed_size = Raise ValueError).
Proof.
  intros Hev. split.
  - intros [HT HE]. split.
    + destruct (Z.eq_dec T (-1)) as [->|Hne].
      * rewrite TimeEncoding_no_rows by assumption. reflexivity.
      * apply TimeEncoding_returns; lia.
    + unfold encoding_table. now rewrite length_map, length_seq.
  - intros Hneg. unfold TimeEncoding. rewrite Hev. cbn [Z.eqb negb].
    rewrite (surjective_pairing (npm.meshgrid _ _)). unfold npm.empty.
    destruct (Z.ltb_spec (T + 1) 0); [reflexivity|].
    destruct (Z.ltb_spec embed_size 0); [reflexivity|]. lia.
Qed.

Lemma TimeEncoding_outcome_witness :
  TimeEncoding (-1) 64 = Ok (encoding_table (-1) 64)
  /\ TimeEncoding 4000 (-2) = Raise ValueError.
Proof.
  split.
  - apply (TimeEncoding_outcome (-1) 64 ltac:(reflexivity)). lia.
  - apply (TimeEncoding_outcome 4000 (-2) ltac:(reflexivity)). lia.
Defined.

Lemma gather_rows_in_range (params : matrix) (indices : list Z) :
  Forall (fun i => (0 <= i < Z.of_nat (length params))%Z) indices ->
  gather_rows params indices
  = Ok (map (fun i => nth (Z.to_nat i) params []) indices).
Proof.
  unfold gather_rows. induction 1 as [|i l Hi Hl IH]; [reflexivity|].
  cbn [mapM map]. destruct (Z.ltb_spec i 0); [lia|].
  destruct (nth_error params (Z.to_nat i)) as [row|] eqn:Hrow.
  - cbn [bind]. rewrite IH. cbn [bind].
    now rewrite (nth_error_nth _ _ [] Hrow).
  - apply nth_error_None in Hrow. lia.
Qed.

Lemma gather_rows_raises (params : matrix) (indices : list Z) :
  Exists (fun i => (i < 0 \/ Z.of_nat (length params) <= i)%Z) indices ->
  gather_rows params indices = Raise InvalidArgumentError.
Proof.
  unfold gather_rows. induction 1 as [i l Hbad|i l _ IH]; cbn [mapM].
  - destruct (Z.ltb_spec i 0); [reflexivity|].
    destruct (nth_error params (Z.to_nat i)) eqn:Hn; [|reflexivity].
    assert (Z.to_nat i < length params)%nat
      by (apply nth_error_Some; congruence).
    lia.
  - destruct (i <? 0)%Z; [reflexivity|].
    destruct (nth_error params (Z.to_nat i)); [|reflexivity].
    cbn [bind]. now rewrite IH.
Qed.

Lemma time_enc_in_range (T embed_size : Z) (time_input : list Z) :
  (0 <= T)%Z -> (0 <= embed_size)%Z -> (embed_size mod 2 = 0)%Z ->
  Forall (fun t => (0 <= t <= T)%Z) time_input ->
  time_enc T embed_size time_input
  = Ok (map (fun i => nth (Z.to_nat i) (encoding_table T embed_size) [])
            time_input).
Proof.
  intros HT HE Hev Hin. unfold time_enc, TimeEncoding_call.
  rewrite TimeEncoding_returns by assumption. cbn [bind].
  apply gather_rows_in_range.
  eapply Forall_impl; [|exact Hin]. cbn beta. intros t Ht.
  unfold encoding_table. rewrite length_map, length_seq. lia.
Qed.

(** X11.  For [T >= 0] and an even [embed_size >= 0], the layer applied to
    steps that all lie in [0..T] returns one row per step, of [embed_size]
    entries, row [b] holding [sin(t / 10000^(2i/embed_size))] and the
    cosine of the same at columns [2i] and [2i + 1] for the step [t] of
    position [b]; applied to steps of which one is negative or above [T] it
    raises [InvalidArgumentError]. *)
Theorem time_enc_lookup (T embed_size : Z) (time_input : list Z) :
  (0 <= T)%Z -> (0 <= embed_size)%Z -> (embed_size mod 2 = 0)%Z ->
  (Forall (fun t => (0 <= t <= T)%Z) time_input ->
     exists rows,
       time_enc T embed_size time_input = Ok rows
       /\ length rows = length time_input
       /\ forall b, (b < length time_input)%nat ->
            Z.of_nat (length (nth b rows [])) = embed_size
            /\ forall i, (Z.of_nat i < embed_size / 2)%Z ->
                 let w := Rpower 10000 (IZR (2 * Z.of_nat i) / IZR embed_size) in
                 (nth b rows []).[2 * i] = sin (IZR (nth b time_input 0%Z) / w)
                 /\ (nth b rows []).[2 * i + 1]
                    = cos (IZR (nth b time_input 0%Z) / w))
  /\ (Exists (fun t => (t < 0 \/ T < t)%Z) time_input ->
        time_enc T embed_size time_input = Raise InvalidArgumentError).
Proof.
  intros HT HE Hev. unfold time_enc, TimeEncoding_call.
  rewrite TimeEncoding_returns by assumption. cbn [bind].
  assert (Hlen : Z.of_nat (length (encoding_table T embed_size)) = (T + 1)%Z).
  { unfold encoding_table. rewrite length_map, length_seq. lia. }
  split.
  - intros Hin. rewrite gather_rows_in_range
      by (eapply Forall_impl; [|exact Hin]; cbn beta; intros; lia).
    eexists. split; [reflexivity|]. split; [apply length_map|].
    intros b Hb.
    rewrite (nth_map_in_range _ _ b 0%Z) by exact Hb.
    assert (Ht : (0 <= nth b time_input 0 <= T)%Z).
    { eapply (proj1 (Forall_forall _ time_input) Hin). now apply nth_In. }
    set (t := nth b time_input 0%Z) in *. split.
    + rewrite encoding_table_row by lia. rewrite length_map, length_seq. lia.
    + intros i Hi. cbn zeta.
      pose proof (Z.div_mod embed_size 2 ltac:(lia)) as Hdm.
      destruct (encoding_table_pair T embed_size (Z.to_nat t) i
                  ltac:(lia) ltac:(lia)) as [-> ->].
      unfold encoding_angle. rewrite Z2Nat.id by lia. split; reflexivity.
  - intros Hbad. apply gather_rows_raises.
    eapply Exists_impl; [|exact Hbad]. cbn beta. intros; lia.
Qed.

Lemma time_enc_lookup_witness :
  (exists rows, time_enc 4000 64 [1; 4000; 0]%Z = Ok rows
                /\ length rows = 3%nat)
  /\ time_enc 4000 64 [1; 4001]%Z = Raise InvalidArgumentError.
Proof.
  destruct (time_enc_lookup 4000 64 [1; 4000; 0]%Z
              ltac:(lia) ltac:(lia) ltac:(reflexivity)) as [H _].
  destruct (time_enc_lookup 4000 64 [1; 4001]%Z
              ltac:(lia) ltac:(lia) ltac:(reflexivity)) as [_ H'].
  split.
  - destruct H as (rows & H1 & H2 & _).
    + repeat constructor; lia.
    + exists rows. auto.
  - apply H'. apply Exists_cons_tl, Exists_cons_hd. lia.
Defined.

(** X12.  The table built for [T] covers every step the notebook encodes:
    for [T >= 1], an [alpha_cumprod] of [T + 1] entries and an even
    [embed_size >= 0], the steps [prepare_batch] returns with a batch are
    encoded without error into one row per image, and so are the steps
    [t = T-1, ..., 1] that [generate] repeats [batch_size] times. *)
Theorem time_enc_covers_steps (T embed_size : Z) (alpha_bar : list R) :
  (1 <= T)%Z -> Z.of_nat (length alpha_bar) = (T + 1)%Z ->
  (0 <= embed_size)%Z -> (embed_size mod 2 = 0)%Z ->
  (forall X g,
      exists X_t t noise g' rows,
        prepare_batch T alpha_bar X g = Ok (mkNoisy X_t t, noise, g')
        /\ time_enc T embed_size t = Ok rows
        /\ length rows = length X)
  /\ (forall t batch_size,
        In t (range_down (T - 1) 0) ->
        exists rows,
          time_enc T embed_size (repeat t batch_size) = Ok rows
          /\ length rows = batch_size).
Proof.
  intros HT Hab HE Hev. split.
  - intros X g.
    destruct (prepare_batch_returns T alpha_bar X g HT Hab)
      as (t & noise & g' & Hp & Hlt & Ht & _ & _).
    eexists _, t, noise, g', _. split; [exact Hp|]. split.
    + apply time_enc_in_range; [lia | exact HE | exact Hev |].
      eapply Forall_impl; [|exact Ht]. cbn beta. intros; lia.
    + rewrite length_map. congruence.
  - intros t batch_size Hin. apply range_down_In in Hin.
    eexists. split.
    + apply time_enc_in_range; [lia | exact HE | exact Hev |].
      apply Forall_forall. intros x Hx. apply repeat_spec in Hx. lia.
    + now rewrite length_map, repeat_length.
Qed.

Lemma time_enc_covers_steps_witness :
  exists X_t t noise g' rows,
    prepare_batch 2 [1; 1 / 2; 1 / 4] [[0; 1]; [1 / 2; 1]] demo_generator
    = Ok (mkNoisy X_t t, noise, g')
    /\ time_enc 2 64 t = Ok rows
    /\ length rows = 2%nat.
Proof.
  exact (proj1 (time_enc_covers_steps 2 64 [1; 1 / 2; 1 / 4]
                  ltac:(lia) ltac:(reflexivity) ltac:(lia) ltac:(reflexivity))
               [[0; 1]; [1 / 2; 1]] demo_generator).
Defined.

Lemma sum_sq_app (u v : list R) : sum_sq (u ++ v) = sum_sq u + sum_sq v.
Proof.
  unfold sum_sq. induction u as [|x u IH]; cbn [app fold_right]; [ring|].
  rewrite IH. ring.
Qed.

(** A row of sine and cosine pairs of [h] angles has squared norm [h]. *)
Lemma sum_sq_pairs (angle : nat -> R) (h : nat) :
  sum_sq (map (fun c => if Nat.even c then sin (angle (c / 2)%nat)
                        else cos (angle (c / 2)%nat))
              (seq 0 (2 * h)))
  = INR h.
Proof.
  induction h as [|h IH]; [reflexivity|].
  replace (2 * S h)%nat with (2 * h + 2)%nat by lia.
  rewrite seq_app, map_app, sum_sq_app, IH. cbn [Nat.add seq map].
  replace (Nat.even (2 * h)) with true
    by (symmetry; apply Nat.even_spec; exists h; lia).
  replace (Nat.even (S (2 * h))) with false.
  2:{ symmetry. rewrite Nat.even_succ, <- Nat.negb_even.
      replace (Nat.even (2 * h)) with true; [reflexivity|].
      symmetry. apply Nat.even_spec. exists h. lia. }
  replace (2 * h)%nat with (h * 2)%nat by lia.
  replace (S (h * 2)) with (1 + h * 2)%nat by lia.
  rewrite Nat.div_mul, Nat.div_add by lia. change (1 / 2)%nat with 0%nat.
  cbn [Nat.add]. unfold sum_sq. cbn [fold_right]. rewrite S_INR.
  pose proof (sin2_cos2 (angle h)) as Hsc. unfold Rsqr in Hsc. lra.
Qed.

(** X13.  For [T >= 0] and an even [embed_size >= 0], every pair of
    columns [2i], [2i + 1] of every row of the table is a point of the unit
    circle, so every step [0..T] is encoded by a vector of the same squared
    norm, [embed_size / 2]. *)
Theorem TimeEncoding_unit_pairs (T embed_size : Z) (t : nat) :
  (0 <= T)%Z -> (0 <= embed_size)%Z -> (embed_size mod 2 = 0)%Z ->
  (Z.of_nat t <= T)%Z ->
  exists table,
    TimeEncoding T embed_size = Ok table
    /\ (forall i, (Z.of_nat i < embed_size / 2)%Z ->
          (nth t table []).[2 * i] * (nth t table []).[2 * i]
          + (nth t table []).[2 * i + 1] * (nth t table []).[2 * i + 1] = 1)
    /\ sum_sq (nth t table []) = IZR embed_size / 2.
Proof.
  intros HT HE Hev Ht. exists (encoding_table T embed_size).
  split; [now apply TimeEncoding_returns|].
  pose proof (Z.div_mod embed_size 2 ltac:(lia)) as Hdm. split.
  - intros i Hi.
    destruct (encoding_table_pair T embed_size t i ltac:(lia) ltac:(lia))
      as [-> ->].
    pose proof (sin2_cos2 (encoding_angle embed_size t i)) as Hsc.
    unfold Rsqr in Hsc. exact Hsc.
  - rewrite encoding_table_row by lia.
    assert (Hw : Z.to_nat embed_size = (2 * Z.to_nat (embed_size / 2))%nat).
    { assert (0 <= embed_size / 2)%Z by (apply Z.div_pos; lia). lia. }
    rewrite Hw, (sum_sq_pairs (encoding_angle embed_size t)).
    rewrite INR_IZR_INZ, Z2Nat.id by (apply Z.div_pos; lia).
    rewrite Hdm at 2. rewrite Hev, Z.add_0_r, mult_IZR. field.
Qed.

Lemma TimeEncoding_unit_pairs_witness :
  exists table,
    TimeEncoding 4000 64 = Ok table /\ sum_sq (nth 17 table []) = 64 / 2.
Proof.
  destruct (TimeEncoding_unit_pairs 4000 64 17
              ltac:(lia) ltac:(lia) ltac:(reflexivity) ltac:(lia))
    as (table & H1 & _ & H3).
  exists table. split; [exact H1|exact H3].
Defined.

(** * The grid of [plot_multiple_images] *)

Lemma length_enumerate {A} (l : list A) : length (enumerate l) = length l.
Proof.
  unfold enumerate. rewrite length_combine, length_arange. lia.
Qed.

Lemma nth_enumerate {A} (l : list A) k d :
  (k < length l)%nat -> nth k (enumerate l) (0%Z, d) = (Z.of_nat k, nth k l d).
Proof.
  intros Hk. unfold enumerate.
  rewrite combine_nth by (rewrite length_arange; lia).
  now rewrite nth_arange by lia.
Qed.

Lemma combine_snd {A B} (a : list A) (b : list B) :
  length a = length b -> map snd (combine a b) = b.
Proof.
  revert b. induction a as [|x a IH]; intros [|y b] H; cbn in *;
    try discriminate; [reflexivity|].
  f_equal. apply IH. lia.
Qed.

Lemma enumerate_snd {A} (l : list A) : map snd (enumerate l) = l.
Proof. unfold enumerate. apply combine_snd. rewrite length_arange. lia. Qed.

Lemma enumerate_cells {A} (l : list A) :
  map (fun ii : Z * A => (fst ii + 1)%Z) (enumerate l)
  = map (fun k => Z.of_nat (S k)) (seq 0 (length l)).
Proof.
  unfold enumerate, np.arange. rewrite Nat2Z.id. generalize 0%nat.
  induction l as [|x l IH]; intros k; [reflexivity|].
  cbn [length seq map combine fst]. f_equal; [lia|]. apply IH.
Qed.

(** X14.  For at least one image and [n_cols] left out, 0, or positive,
    [plot_multiple_images] lays the images out on a grid of at least one
    row and one column that has room for all of them and no empty row:
    [(n_rows - 1) * n_cols < len(images) <= n_rows * n_cols].  The images
    are drawn in their order in the cells [1, 2, ..., len(images)], each a
    valid cell of the grid; with [n_cols] left out or 0 they share one
    row. *)
Theorem plot_multiple_images_grid {A} (images : list A) (cols : option Z) :
  images <> [] ->
  (forall c, cols = Some c -> (0 <= c)%Z) ->
  exists fig,
    plot_multiple_images images cols = Some fig
    /\ (1 <= n_cols fig)%Z /\ (1 <= n_rows fig)%Z
    /\ ((n_rows fig - 1) * n_cols fig < Z.of_nat (length images)
        <= n_rows fig * n_cols fig)%Z
    /\ map snd (subplots fig) = images
    /\ map fst (subplots fig)
       = map (fun k => Z.of_nat (S k)) (seq 0 (length images))
    /\ Forall (fun cell => (1 <= fst cell <= n_rows fig * n_cols fig)%Z)
              (subplots fig)
    /\ (cols = None \/ cols = Some 0%Z ->
        n_rows fig = 1%Z /\ n_cols fig = Z.of_nat (length images)).
Proof.
  intros Hne Hc. unfold plot_multiple_images.
  set (n := Z.of_nat (length images)).
  assert (Hn : (1 <= n)%Z) by (unfold n; destruct images; [contradiction|cbn; lia]).
  set (c := or_len cols n).
  assert (Hcpos : (1 <= c)%Z).
  { unfold c, or_len. destruct cols as [c0|]; [|exact Hn].
    specialize (Hc c0 eq_refl). destruct (Z.eqb_spec c0 0); lia. }
  unfold floordiv. destruct (Z.eqb_spec c 0); [lia|].
  pose proof (Z.div_mod (n - 1) c ltac:(lia)) as Hdm.
  pose proof (Z.mod_pos_bound (n - 1) c ltac:(lia)) as Hmod.
  assert (Hq : (0 <= (n - 1) / c)%Z) by (apply Z.div_pos; lia).
  eexists. split; [reflexivity|]. cbn [n_rows n_cols subplots].
  assert (Hgrid : ((((n - 1) / c + 1 - 1) * c < n <= ((n - 1) / c + 1) * c))%Z)
    by nia.
  split; [exact Hcpos|]. split; [lia|]. split; [exact Hgrid|].
  split; [rewrite map_map; cbn [snd]; apply enumerate_snd|].
  assert (Hfst : map fst (map (fun ii : Z * A => ((fst ii + 1)%Z, snd ii))
                              (enumerate images))
                 = map (fun k => Z.of_nat (S k)) (seq 0 (length images))).
  { rewrite map_map. cbn [fst]. apply enumerate_cells. }
  split; [exact Hfst|]. split.
  - apply Forall_forall. intros cell Hin.
    assert (Hcell : In (fst cell)
                       (map (fun k => Z.of_nat (S k)) (seq 0 (length images)))).
    { rewrite <- Hfst. now apply in_map. }
    apply in_map_iff in Hcell. destruct Hcell as (k & Hk & Hin').
    apply in_seq in Hin'. fold n in Hgrid. unfold n in *. lia.
  - intros Hnone. assert (Hcn : c = n)
      by (unfold c, or_len; destruct Hnone as [->| ->]; reflexivity).
    rewrite Hcn. split; [|reflexivity].
    rewrite Z.div_small by lia. reflexivity.
Qed.

Lemma plot_multiple_images_grid_witness :
  exists fig,
    plot_multiple_images (repeat tt 32) (Some 8%Z) = Some fig
    /\ ((n_rows fig - 1) * n_cols fig < 32 <= n_rows fig * n_cols fig)%Z.
Proof.
  destruct (plot_multiple_images_grid (repeat tt 32) (Some 8%Z))
    as (fig & H1 & _ & _ & H4 & _).
  - discriminate.
  - intros c Hc. injection Hc as <-. lia.
  - exists fig. split; [exact H1|exact H4].
Defined.

(** X15.  [plot_multiple_images] raises [ZeroDivisionError] exactly when
    there is no image and [n_cols] is left out or 0: the number of columns
    then falls back to [len(images) = 0], the divisor of the row count. *)
Theorem plot_multiple_images_zero_division {A} (images : list A)
    (cols : option Z) :
  plot_multiple_images images cols = None
  <-> images = [] /\ (cols = None \/ cols = Some 0%Z).
Proof.
  unfold plot_multiple_images, floordiv, or_len. split.
  - destruct cols as [c|].
    + destruct (Z.eqb_spec c 0) as [Hc|Hc].
      * destruct (Z.eqb_spec (Z.of_nat (length images)) 0) as [H0|H0];
          intros H; [|discriminate].
        split; [|right; now subst c].
        destruct images; [reflexivity|cbn in H0; lia].
      * destruct (Z.eqb_spec c 0); [contradiction|]. intros H. discriminate.
    + destruct (Z.eqb_spec (Z.of_nat (length images)) 0) as [H0|H0];
        intros H; [|discriminate].
      split; [|now left]. destruct images; [reflexivity|cbn in H0; lia].
  - intros [-> [-> | ->]]; reflexivity.
Qed.

(** * The input pipeline *)

Section Batching.

Context {A : Type}.

Lemma batch_from_concat (fuel bs : nat) (ds : list A) :
  (1 <= bs)%nat -> (length ds <= fuel)%nat ->
  concat (batch_from fuel bs ds) = ds.
Proof.
  intros Hbs. revert ds. induction fuel as [|fuel IH]; intros ds Hf.
  - destruct ds; [reflexivity|cbn in Hf; lia].
  - destruct ds as [|x ds]; [reflexivity|].
    cbn [batch_from concat]. rewrite IH.
    + apply firstn_skipn.
    + rewrite length_skipn. cbn [length] in *. lia.
Qed.

Lemma batch_from_sizes (fuel bs : nat) (ds : list A) :
  (1 <= bs)%nat ->
  Forall (fun b => (1 <= length b <= bs)%nat) (batch_from fuel bs ds).
Proof.
  intros Hbs. revert ds. induction fuel as [|fuel IH]; intros ds.
  - constructor.
  - destruct ds as [|x ds]; [constructor|].
    cbn [batch_from]. constructor; [|apply IH].
    rewrite length_firstn. cbn [length]. lia.
Qed.

(** Every batch but the last is full. *)
Lemma batch_from_full (fuel bs : nat) (ds : list A) k :
  (S k < length (batch_from fuel bs ds))%nat ->
  length (nth k (batch_from fuel bs ds) []) = bs.
Proof.
  revert ds k. induction fuel as [|fuel IH]; intros ds k Hk.
  - cbn in Hk. lia.
  - destruct ds as [|x ds]; [cbn in Hk; lia|].
    cbn [batch_from length] in Hk. cbn [batch_from].
    destruct k as [|k].
    + cbn [nth]. rewrite length_firstn.
      destruct (Nat.le_gt_cases bs (length (x :: ds))) as [Hle|Hgt]; [lia|].
      exfalso. rewrite skipn_all2 in Hk by lia.
      destruct fuel; cbn in Hk; lia.
    + cbn [nth]. apply IH. lia.
Qed.

Lemma batch_from_length (fuel bs : nat) (ds : list A) :
  (1 <= bs)%nat -> (length ds <= fuel)%nat ->
  length (batch_from fuel bs ds) = ((length ds + bs - 1) / bs)%nat.
Proof.
  intros Hbs. revert ds. induction fuel as [|fuel IH]; intros ds Hf.
  - destruct ds; [|cbn in Hf; lia]. cbn [batch_from length].
    symmetry. apply Nat.div_small. lia.
  - destruct ds as [|x ds].
    + cbn [batch_from length]. symmetry. apply Nat.div_small. lia.
    + cbn [batch_from length]. rewrite IH
        by (rewrite length_skipn; cbn [length] in *; lia).
      rewrite length_skipn. set (n := length (x :: ds)).
      assert (Hn : (1 <= n)%nat) by (unfold n; cbn; lia).
      change (S (length ds)) with n.
      destruct (Nat.le_gt_cases bs n) as [Hle|Hgt].
      * replace (n + bs - 1)%nat with ((n - bs + bs - 1) + 1 * bs)%nat by lia.
        rewrite Nat.div_add by lia. lia.
      * replace (n - bs)%nat with 0%nat by lia.
        rewrite (Nat.div_small (0 + bs - 1)) by lia.
        assert (Hq : ((n + bs - 1) / bs = 1)%nat).
        { symmetry. apply (Nat.div_unique _ _ 1%nat (n - 1)%nat); lia. }
        lia.
Qed.

End Batching.

Section Shuffling.

Context {A : Type}.

Lemma buffer_split (buffer : list A) (i : nat) (d : A) :
  (i < length buffer)%nat ->
  buffer = firstn i buffer ++ nth i buffer d :: skipn (S i) buffer.
Proof.
  revert i. induction buffer as [|x l IH]; intros i Hi; [cbn in Hi; lia|].
  destruct i as [|i]; [reflexivity|].
  cbn [firstn skipn nth app]. f_equal. apply IH. cbn in Hi. lia.
Qed.

(** One pass of the shuffle yields every element of the buffer and of the
    rest of the input exactly once. *)
Lemma shuffle_emit_permutation (n : nat) :
  forall (buffer rest : list A) (g : tf.generator),
    (buffer = [] -> rest = []) ->
    n = (length buffer + length rest)%nat ->
    Permutation (fst (shuffle_emit n buffer rest g)) (buffer ++ rest).
Proof.
  induction n as [|n IH]; intros buffer rest g Hinv Hn.
  - destruct buffer; [|cbn in Hn; lia]. rewrite (Hinv eq_refl). constructor.
  - destruct buffer as [|d b'].
    { rewrite (Hinv eq_refl). constructor. }
    cbn [shuffle_emit]. set (buffer := d :: b') in *.
    assert (Hpos : (0 < Z.of_nat (length buffer))%Z)
      by (unfold buffer; cbn [length]; lia).
    set (i := Z.to_nat (tf.uniform_src g (tf.pos g) mod Z.of_nat (length buffer))).
    assert (Hi : (i < length buffer)%nat).
    { unfold i.
      pose proof (Z.mod_pos_bound (tf.uniform_src g (tf.pos g))
                    (Z.of_nat (length buffer)) Hpos).
      lia. }
    pose proof (buffer_split buffer i d Hi) as Hsplit.
    set (x := nth i buffer d) in *.
    set (F := firstn i buffer) in *. set (S' := skipn (S i) buffer) in *.
    assert (Hlen : length buffer = (length F + S (length S'))%nat).
    { rewrite Hsplit at 1. rewrite length_app. reflexivity. }
    destruct rest as [|r rest'].
    + specialize (IH (remove_at i buffer) [] (tf.advance 1 g)).
      cbn [tl] in *.
      destruct (shuffle_emit n (remove_at i buffer) [] (tf.advance 1 g))
        as [out g'].
      cbn [fst] in *. unfold remove_at in IH. fold F S' in IH.
      clearbody x F S' i. clearbody buffer. subst buffer.
      rewrite !app_nil_r in *.
      apply Permutation_cons_app. apply IH; [intros; reflexivity|].
      rewrite length_app in *. cbn [length] in *. lia.
    + specialize (IH (replace_at i r buffer) rest' (tf.advance 1 g)).
      cbn [tl] in *.
      destruct (shuffle_emit n (replace_at i r buffer) rest' (tf.advance 1 g))
        as [out g'].
      cbn [fst] in *. unfold replace_at in IH. fold F S' in IH.
      clearbody x F S' i. clearbody buffer. subst buffer.
      assert (IH' : Permutation out ((F ++ r :: S') ++ rest')).
      { apply IH.
        - intros Hnil. destruct F; discriminate.
        - rewrite !length_app in *. cbn [length] in *. lia. }
      rewrite <- app_assoc. cbn [app].
      apply Permutation_cons_app.
      rewrite IH', <- app_assoc. cbn [app].
      apply Permutation_app_head.
      rewrite (Permutation_middle S' rest' r). reflexivity.
Qed.

Lemma dataset_shuffle_permutation (buffer_size : nat) (ds : list A) g :
  (1 <= buffer_size)%nat ->
  Permutation (fst (dataset_shuffle buffer_size ds g)) ds.
Proof.
  intros Hb. unfold dataset_shuffle.
  rewrite <- (firstn_skipn buffer_size ds) at 4.
  apply shuffle_emit_permutation.
  - destruct buffer_size; [lia|]. destruct ds; [reflexivity|discriminate].
  - rewrite <- length_app, firstn_skipn. reflexivity.
Qed.

End Shuffling.

Lemma dataset_map_prepare_batch (T : Z) (ab : list R) :
  (1 <= T)%Z -> Z.of_nat (length ab) = (T + 1)%Z ->
  forall batches g,
  exists out g',
    dataset_map (prepare_batch T ab) batches g = Ok (out, g')
    /\ Forall2 (noised_from ab T) batches out.
Proof.
  intros HT Hab. induction batches as [|X batches IH]; intros g.
  - exists [], g. split; [reflexivity|constructor].
  - cbn [dataset_map].
    destruct (prepare_batch_returns T ab X g HT Hab)
      as (t & noise & g1 & Hp & Hlt & Ht & _ & Hsn).
    rewrite Hp. cbn [bind].
    destruct (IH g1) as (out & g' & Hm & Hall).
    rewrite Hm. cbn [bind]. eexists _, g'. split; [reflexivity|].
    constructor; [|exact Hall].
    unfold noised_from. cbn [fst snd X_noisy time]. auto.
Qed.

Lemma noised_from_size ab T X element :
  noised_from ab T X element ->
  tf.shape_of (X_noisy (fst element)) = tf.shape_of X
  /\ length (X_noisy (fst element)) = length X.
Proof.
  intros (Hx & Hl & _ & Hs).
  assert (Hshape : tf.shape_of (X_noisy (fst element)) = tf.shape_of X).
  { rewrite Hx, blend_shape.
    - apply shape_of_scale_pixels.
    - rewrite length_map. unfold scale_pixels. now rewrite length_map.
    - now rewrite shape_of_scale_pixels. }
  split; [exact Hshape|now apply shape_eq_length].
Qed.

(** [subtract_noise] applied to an element of the dataset gives back the
    rescaled batch it was made from. *)
Lemma recover_noised ab T X element :
  Z.of_nat (length ab) = (T + 1)%Z ->
  (forall t, (t <= Z.to_nat T)%nat -> 0 < ab.[t]) ->
  noised_from ab T X element ->
  recover ab element = Ok (scale_pixels X).
Proof.
  intros Hab Hpos Hn. destruct (noised_from_size ab T X element Hn) as [Hsx _].
  destruct Hn as (Hx & Hl & Ht & Hs). unfold recover.
  assert (HlX : length (scale_pixels X) = length X) by apply length_map.
  apply subtract_noise_inverts.
  - eapply Forall_impl; [|exact Ht]. cbn beta. intros ti Hti.
    split; [lia|]. apply Hpos. lia.
  - congruence.
  - now rewrite shape_of_scale_pixels.
  - now rewrite shape_of_scale_pixels.
  - intros b k Hb Hk. rewrite Hx, blend_entry; try assumption.
    + now rewrite (nth_map_in_range _ _ b 0%Z) by lia.
    + rewrite length_map. congruence.
    + now rewrite shape_of_scale_pixels.
Qed.

Lemma mapM_Forall2 {A B C} (f : B -> result C) (h : A -> C)
    (l : list A) (out : list B) :
  Forall2 (fun a b => f b = Ok (h a)) l out -> mapM f out = Ok (map h l).
Proof.
  induction 1 as [|a b l out Hab _ IH]; [reflexivity|].
  cbn [mapM map]. rewrite Hab. cbn [bind]. rewrite IH. reflexivity.
Qed.

Lemma list_sum_lengths {A} (l : list (list A)) :
  list_sum (map (@length A) l) = length (concat l).
Proof.
  induction l as [|x l IH]; [reflexivity|].
  cbn [map concat]. rewrite length_app, <- IH. reflexivity.
Qed.

(** The elements of one pass, before the noise: the batches of the images
    in the order the shuffle, if any, left them. *)
Lemma prepare_dataset_returns (T : Z) (ab : list R) (X : tensor)
    (batch_size : Z) (shuffle : bool) (g : tf.generator) :
  (1 <= T)%Z -> Z.of_nat (length ab) = (T + 1)%Z -> (1 <= batch_size)%Z ->
  exists ds out g',
    prepare_dataset T ab X batch_size shuffle g = Ok (out, g')
    /\ Permutation ds X /\ (shuffle = false -> ds = X)
    /\ Forall2 (noised_from ab T)
               (batch_from (length ds) (Z.to_nat batch_size) ds) out.
Proof.
  intros HT Hab Hbs. unfold prepare_dataset.
  set (sg := if shuffle then dataset_shuffle (Z.to_nat 10000) X g else (X, g)).
  assert (Hperm : Permutation (fst sg) X).
  { unfold sg. destruct shuffle; [|reflexivity].
    apply dataset_shuffle_permutation. lia. }
  assert (Hid : shuffle = false -> fst sg = X) by (unfold sg; now intros ->).
  destruct sg as [ds g0]. cbn [fst] in *.
  unfold dataset_batch. destruct (Z.leb_spec batch_size 0); [lia|].
  cbn [bind].
  destruct (dataset_map_prepare_batch T ab HT Hab
              (batch_from (length ds) (Z.to_nat batch_size) ds) g0)
    as (out & g' & Hm & Hall).
  exists ds, out, g'. auto.
Qed.

Lemma Forall2_nth_rel {A B} (P : A -> B -> Prop) (l : list A) (out : list B) :
  Forall2 P l out ->
  length l = length out
  /\ forall k da db, (k < length out)%nat -> P (nth k l da) (nth k out db).
Proof.
  induction 1 as [|a b l out Hab _ [IHl IHn]].
  - split; [reflexivity|]. intros k da db Hk. cbn in Hk. lia.
  - split; [cbn [length]; lia|].
    intros [|k] da db Hk; [exact Hab|]. cbn [nth]. apply IHn.
    cbn [length] in Hk. lia.
Qed.

Lemma Forall2_map_eq {A B C} (f : A -> C) (h : B -> C) (l : list A) (out : list B) :
  Forall2 (fun a b => h b = f a) l out -> map h out = map f l.
Proof. induction 1; cbn [map]; congruence. Qed.

(** X16.  For [T >= 1], an [alpha_cumprod] of [T + 1] entries and
    [batch_size >= 1], one pass over [prepare_dataset(X, batch_size,
    shuffle)] yields [ceil(len(X) / batch_size)] elements and does not
    raise.  Every element holds between 1 and [batch_size] noisy images,
    every one but the last exactly [batch_size]; it has one step in [1..T]
    per image and a noise tensor of the shape of its images; and the
    elements hold [len(X)] images in all.  With [batch_size <= 0] the
    pass raises [InvalidArgumentError]. *)
Theorem prepare_dataset_batches (T : Z) (alpha_bar : list R) (X : tensor)
    (batch_size : Z) (shuffle : bool) (g : tf.generator) :
  (1 <= T)%Z -> Z.of_nat (length alpha_bar) = (T + 1)%Z ->
  ((batch_size <= 0)%Z ->
     prepare_dataset T alpha_bar X batch_size shuffle g
     = Raise InvalidArgumentError)
  /\ ((1 <= batch_size)%Z ->
      exists out g',
        prepare_dataset T alpha_bar X batch_size shuffle g = Ok (out, g')
        /\ Z.of_nat (length out)
           = ((Z.of_nat (length X) + batch_size - 1) / batch_size)%Z
        /\ Forall (fun el =>
                     (1 <= Z.of_nat (length (X_noisy (fst el))) <= batch_size)%Z
                     /\ length (time (fst el)) = length (X_noisy (fst el))
                     /\ Forall (fun ti => (1 <= ti <= T)%Z) (time (fst el))
                     /\ tf.shape_of (snd el) = tf.shape_of (X_noisy (fst el)))
                  out
        /\ (forall k d, (S k < length out)%nat ->
              Z.of_nat (length (X_noisy (fst (nth k out d)))) = batch_size)
        /\ list_sum (map (fun el => length (X_noisy (fst el))) out) = length X).
Proof.
  intros HT Hab. split.
  - intros Hbs. unfold prepare_dataset.
    destruct (if shuffle then _ else _) as [ds g0].
    unfold dataset_batch. destruct (Z.leb_spec batch_size 0); [reflexivity|lia].
  - intros Hbs.
    destruct (prepare_dataset_returns T alpha_bar X batch_size shuffle g
                HT Hab Hbs) as (ds & out & g' & Hp & Hperm & _ & Hall).
    set (bs := Z.to_nat batch_size) in *.
    assert (Hbs' : (1 <= bs)%nat) by (unfold bs; lia).
    set (batches := batch_from (length ds) bs ds) in *.
    destruct (Forall2_nth_rel _ _ _ Hall) as [Hlen Hnth].
    assert (HlX : length ds = length X) by now apply Permutation_length.
    exists out, g'. split; [exact Hp|]. split; [|split; [|split]].
    + assert (Hbl : length out = ((length X + bs - 1) / bs)%nat).
      { rewrite <- Hlen, <- HlX. unfold batches.
        apply batch_from_length; lia. }
      rewrite Hbl.
      rewrite Nat2Z.inj_div, Nat2Z.inj_sub, Nat2Z.inj_add by lia.
      unfold bs. rewrite Z2Nat.id by lia. reflexivity.
    + pose proof (batch_from_sizes (length ds) bs ds Hbs') as Hsz.
      fold batches in Hsz. clear Hnth Hlen Hp.
      induction Hall as [|b el l out' Hbel _ IH]; [constructor|].
      inversion Hsz as [|? ? Hb Hrest]; subst.
      constructor; [|now apply IH].
      destruct (noised_from_size _ _ _ _ Hbel) as [Hs Hl'].
      destruct Hbel as (_ & Hlt & Htr & Hsn).
      rewrite Hl'. unfold bs in Hb. split; [lia|].
      split; [congruence|]. split; [exact Htr|congruence].
    + intros k d Hk.
      destruct (noised_from_size _ _ _ _ (Hnth k [] d ltac:(lia))) as [_ ->].
      pose proof (batch_from_full (length ds) bs ds k) as Hfull.
      fold batches in Hfull. unfold tensor in *. specialize (Hfull ltac:(lia)).
      transitivity (Z.of_nat bs); [f_equal; exact Hfull|unfold bs; lia].
    + rewrite (Forall2_map_eq (@length (list R)) _ batches out).
      * rewrite list_sum_lengths. rewrite <- HlX. f_equal.
        unfold batches. apply batch_from_concat; lia.
      * eapply Forall2_impl; [|exact Hall]. cbn beta. intros b el Hbel.
        now destruct (noised_from_size _ _ _ _ Hbel).
Qed.

Lemma prepare_dataset_batches_witness :
  exists out g',
    prepare_dataset 2 [1; 1 / 2; 1 / 4] [[0]; [1]; [1 / 2]] 2 true
                    demo_generator
    = Ok (out, g')
    /\ Z.of_nat (length out) = ((3 + 2 - 1) / 2)%Z.
Proof.
  destruct (prepare_dataset_batches 2 [1; 1 / 2; 1 / 4] [[0]; [1]; [1 / 2]] 2
              true demo_generator ltac:(lia) ltac:(reflexivity)) as [_ H].
  destruct (H ltac:(lia)) as (out & g' & H1 & H2 & _).
  exists out, g'. split; [exact H1|exact H2].
Defined.

Lemma concat_scale_pixels (l : list tensor) :
  concat (map scale_pixels l) = scale_pixels (concat l).
Proof.
  induction l as [|X l IH]; [reflexivity|].
  cbn [map concat]. rewrite IH. unfold scale_pixels. now rewrite map_app.
Qed.

(** X17.  No image is lost or repeated on the way through the dataset: with
    the [alpha_cumprod] of the cosine schedule ([T >= 1], [s >= 0],
    [max_beta] in (0,1)) and [batch_size >= 1], [subtract_noise] applied
    to every element of a pass, as the notebook does to the first one,
    succeeds, and the batches it returns, put end to end, are the rescaled
    images of [X]: in the order of [X] without shuffling, in some other
    order with it. *)
Theorem prepare_dataset_recovers (T : Z) (s max_beta : R) (X : tensor)
    (batch_size : Z) (shuffle : bool) (g : tf.generator) :
  (1 <= T)%Z -> 0 <= s -> 0 < max_beta < 1 -> (1 <= batch_size)%Z ->
  let alpha_bar := alpha_cumprod (variance_schedule T s max_beta) in
  exists out g' originals,
    prepare_dataset T alpha_bar X batch_size shuffle g = Ok (out, g')
    /\ mapM (recover alpha_bar) out = Ok originals
    /\ Permutation (concat originals) (scale_pixels X)
    /\ (shuffle = false -> concat originals = scale_pixels X).
Proof.
  intros HT Hs Hb Hbs alpha_bar.
  pose proof (variance_schedule_lengths T s max_beta) as (Hla & Hlen & _).
  cbn zeta in Hla, Hlen. fold alpha_bar in Hlen.
  assert (Hab : Z.of_nat (length alpha_bar) = (T + 1)%Z) by lia.
  assert (Hpos : forall t, (t <= Z.to_nat T)%nat -> 0 < alpha_bar.[t]).
  { intros t Ht.
    apply (cumprod_unit_interval (alpha (variance_schedule T s max_beta))).
    - now apply variance_schedule_alpha_unit.
    - lia. }
  destruct (prepare_dataset_returns T alpha_bar X batch_size shuffle g
              HT Hab Hbs) as (ds & out & g' & Hp & Hperm & Hid & Hall).
  set (batches := batch_from (length ds) (Z.to_nat batch_size) ds) in *.
  exists out, g', (map scale_pixels batches).
  assert (Hcat : concat (map scale_pixels batches) = scale_pixels ds).
  { rewrite concat_scale_pixels. f_equal.
    unfold batches. apply batch_from_concat; lia. }
  split; [exact Hp|]. split; [|split].
  - apply mapM_Forall2. eapply Forall2_impl; [|exact Hall]. cbn beta.
    intros b el Hbel. now apply (recover_noised alpha_bar T).
  - rewrite Hcat. unfold scale_pixels. now apply Permutation_map.
  - intros Hsh. now rewrite Hcat, (Hid Hsh).
Qed.

Lemma prepare_dataset_recovers_witness :
  exists out g' originals,
    prepare_dataset 2 (alpha_cumprod (variance_schedule 2 0 (1 / 2)))
                    [[0]; [1]; [1 / 2]] 2 false demo_generator
    = Ok (out, g')
    /\ mapM (recover (alpha_cumprod (variance_schedule 2 0 (1 / 2)))) out
       = Ok originals
    /\ concat originals = scale_pixels [[0]; [1]; [1 / 2]].
Proof.
  destruct (prepare_dataset_recovers 2 0 (1 / 2) [[0]; [1]; [1 / 2]] 2 false
              demo_generator ltac:(lia) ltac:(lra) ltac:(lra) ltac:(lia))
    as (out & g' & originals & H1 & H2 & _ & H4).
  exists out, g', originals. split; [exact H1|]. split; [exact H2|].
  now apply H4.
Defined.

(** * Loading the images *)

Lemma slice_neg_app {A} (k : nat) (a : list A) :
  slice_to_neg k a ++ slice_from_neg k a = a.
Proof. apply firstn_skipn. Qed.

Lemma length_slice_from_neg {A} (k : nat) (a : list A) :
  length (slice_from_neg k a) = Nat.min k (length a).
Proof. unfold slice_from_neg. rewrite length_skipn. lia. Qed.

Lemma length_slice_to_neg {A} (k : nat) (a : list A) :
  length (slice_to_neg k a) = (length a - k)%nat.
Proof. unfold slice_to_neg. rewrite length_firstn. lia. Qed.

Lemma length_to_unit_range X : length (to_unit_range X) = length X.
Proof. apply length_map. Qed.

(** X18.  The split of the loaded data loses and repeats nothing: the
    training part followed by the validation part is the rescaled data in
    its order, and likewise for the labels.  The validation part holds the
    last [min 5000 n] of the [n] images, so that with at most 5000 images
    the training part is empty; with as many labels as images the two
    parts pair every image with its own label count for count. *)
Theorem load_data_split (X_train_full : list (list Z))
    (y_train_full : list Z) :
  let d := load_data X_train_full y_train_full in
  let n := length X_train_full in
  X_train d ++ X_valid d = to_unit_range X_train_full
  /\ y_train d ++ y_valid d = y_train_full
  /\ length (X_valid d) = Nat.min 5000 n
  /\ length (X_train d) = (n - 5000)%nat
  /\ ((n <= 5000)%nat -> X_train d = [])
  /\ (length y_train_full = n ->
        length (y_train d) = length (X_train d)
        /\ length (y_valid d) = length (X_valid d)).
Proof.
  cbn zeta. unfold load_data. cbn [X_train X_valid y_train y_valid].
  split; [apply slice_neg_app|].
  split; [apply slice_neg_app|].
  split; [now rewrite length_slice_from_neg, length_to_unit_range|].
  split; [now rewrite length_slice_to_neg, length_to_unit_range|].
  split.
  - intros Hn. apply length_zero_iff_nil.
    rewrite length_slice_to_neg, length_to_unit_range. lia.
  - intros Hy.
    rewrite !length_slice_to_neg, !length_slice_from_neg,
      length_to_unit_range, Hy.
    split; reflexivity.
Qed.

(** X19.  Images of bytes ([0..255]) leave the loading cell with every pixel
    in [[0, 1]], and the rescaling [prepare_batch] starts with then puts
    every pixel of the training and of the validation images in
    [[-1, 1]]. *)
Theorem load_data_pixel_range (X_train_full : list (list Z))
    (y_train_full : list Z) :
  Forall (Forall (fun p => (0 <= p <= 255)%Z)) X_train_full ->
  let d := load_data X_train_full y_train_full in
  Forall (Forall (fun v => 0 <= v <= 1)) (X_train d ++ X_valid d)
  /\ Forall (Forall (fun v => -1 <= v <= 1)) (scale_pixels (X_train d))
  /\ Forall (Forall (fun v => -1 <= v <= 1)) (scale_pixels (X_valid d)).
Proof.
  intros Hbytes. cbn zeta.
  assert (Hunit : Forall (Forall (fun v => 0 <= v <= 1))
                    (to_unit_range X_train_full)).
  { unfold to_unit_range. apply Forall_map.
    eapply Forall_impl; [|exact Hbytes].
    intros img Himg. apply Forall_map.
    eapply Forall_impl; [|exact Himg].
    intros p [Hlo Hhi]. cbn beta.
    apply IZR_le in Hlo, Hhi. lra. }
  assert (Hscaled : forall X, Forall (Forall (fun v => 0 <= v <= 1)) X ->
            Forall (Forall (fun v => -1 <= v <= 1)) (scale_pixels X)).
  { intros X HX. unfold scale_pixels. apply Forall_map.
    eapply Forall_impl; [|exact HX].
    intros img Himg. apply Forall_map.
    eapply Forall_impl; [|exact Himg].
    intros v Hv. cbn beta. lra. }
  assert (Hparts : Forall (Forall (fun v => 0 <= v <= 1))
                     (X_train (load_data X_train_full y_train_full)
                      ++ X_valid (load_data X_train_full y_train_full))).
  { unfold load_data. cbn [X_train X_valid]. now rewrite slice_neg_app. }
  split; [exact Hparts|].
  apply Forall_app in Hparts. destruct Hparts as [Htr Hva].
  split; apply Hscaled; assumption.
Qed.

Lemma load_data_pixel_range_witness :
  let d := load_data [[0; 255]; [128; 7]]%Z [5; 3]%Z in
  Forall (Forall (fun v => 0 <= v <= 1)) (X_train d ++ X_valid d)
  /\ Forall (Forall (fun v => -1 <= v <= 1)) (scale_pixels (X_train d))
  /\ Forall (Forall (fun v => -1 <= v <= 1)) (scale_pixels (X_valid d)).
Proof.
  apply (load_data_pixel_range [[0; 255]; [128; 7]]%Z [5; 3]%Z).
  repeat constructor; lia.
Defined.

(** * Building the network *)

Lemma TimeEncoding_odd (T embed_size : Z) :
  (embed_size mod 2 <> 0)%Z ->
  TimeEncoding T embed_size = Raise (AssertionError "embed_size must be even").
Proof.
  intros Hodd. unfold TimeEncoding.
  destruct (Z.eqb_spec (embed_size mod 2) 0) as [He|_]; [contradiction|].
  reflexivity.
Qed.

Lemma TimeEncoding_alloc_fails (T embed_size : Z) :
  (embed_size mod 2 = 0)%Z -> (T < -1)%Z \/ (embed_size < 0)%Z ->
  TimeEncoding T embed_size = Raise ValueError.
Proof.
  intros Hev Hneg. unfold TimeEncoding. rewrite Hev. cbn [Z.eqb negb].
  rewrite (surjective_pairing (npm.meshgrid _ _)). unfold npm.empty.
  destruct (Z.ltb_spec (T + 1) 0); [reflexivity|].
  destruct (Z.ltb_spec embed_size 0); [reflexivity|]. lia.
Qed.

Lemma TimeEncoding_built (T embed_size : Z) :
  (embed_size mod 2 = 0)%Z -> (-1 <= T)%Z -> (0 <= embed_size)%Z ->
  TimeEncoding T embed_size = Ok (encoding_table T embed_size).
Proof.
  intros Hev HT HE. destruct (Z.eq_dec T (-1)) as [->|Hne].
  - rewrite TimeEncoding_no_rows by assumption. reflexivity.
  - apply TimeEncoding_returns; lia.
Qed.

(** The adapted time encoding has the channels of the first convolution. *)
Lemma first_time_shape (time_enc : Z) :
  add_to_every_pixel (layers.Dense 16 time_enc) (mkShape 32 32 16)
  = Ok (mkShape 32 32 16).
Proof. reflexivity. Qed.

(** The shapes on the way down: each block halves the image and stacks the
    shape it had before pooling. *)
Lemma down_blocks_shapes (time_enc : Z) :
  for_each (down_block time_enc) [32; 64; 128]%Z
    (mkShape 32 32 16, mkShape 32 32 16, [])
  = Ok (mkShape 4 4 128, mkShape 4 4 128,
        [mkShape 32 32 32; mkShape 16 16 64; mkShape 8 8 128]).
Proof. reflexivity. Qed.

(** The shapes on the way up: each block doubles the image and appends the
    channels of the stacked shape of the same size; the stack ends empty. *)
Lemma up_blocks_shapes (time_enc : Z) :
  for_each (up_block time_enc) [64; 32; 16]%Z
    (mkShape 4 4 128, mkShape 4 4 128,
     [mkShape 32 32 32; mkShape 16 16 64; mkShape 8 8 128])
  = Ok (mkShape 32 32 48, mkShape 32 32 48, []).
Proof. reflexivity. Qed.

(** X20.  Whether the network can be built depends on the globals [T] and
    [embed_size] through the time-encoding layer only.  With a positive even
    [embed_size] and [T >= -1] every layer accepts the shape it is given
    (the two inputs of each [add] and [concatenate] agree, the stack of
    cross skips never runs dry) and the model maps images of shape
    [[28, 28, 1]] to outputs of the same shape, the [image_size] numbers per
    image [generate] works on.  With an odd [embed_size] building raises
    the assertion error of the time encoding, with an even one and
    [T < -1] or [embed_size < 0] a [ValueError]. *)
Theorem build_diffusion_model_outcome (T embed_size : Z) :
  ((embed_size mod 2 = 0)%Z -> (0 < embed_size)%Z -> (-1 <= T)%Z ->
     build_diffusion_model T embed_size
     = Ok (mkModel (mkShape 28 28 1) (mkShape 28 28 1))
     /\ forall m, build_diffusion_model T embed_size = Ok m ->
          outputs m = X_noisy_input m
          /\ (height (outputs m) * width (outputs m) * channels (outputs m)
              = Z.of_nat image_size)%Z)
  /\ ((embed_size mod 2 <> 0)%Z ->
        build_diffusion_model T embed_size
        = Raise (AssertionError "embed_size must be even"))
  /\ ((embed_size mod 2 = 0)%Z -> (T < -1)%Z \/ (embed_size < 0)%Z ->
        build_diffusion_model T embed_size = Raise ValueError).
Proof.
  split; [|split].
  - intros Hev HE HT.
    assert (Hbuilt : build_diffusion_model T embed_size
                     = Ok (mkModel (mkShape 28 28 1) (mkShape 28 28 1))).
    { unfold build_diffusion_model.
      rewrite TimeEncoding_built by lia. cbn [bind]. cbn zeta.
      change (layers.Conv2D 16 3 1 layers.valid
                (layers.ZeroPadding2D (3, 3)%Z (mkShape 28 28 1)))
        with (Ok (mkShape 32 32 16)).
      unfold layers.BatchNormalization, layers.Activation.
      cbn [bind]. rewrite first_time_shape.
      cbn [bind]. rewrite down_blocks_shapes. cbn [bind].
      rewrite up_blocks_shapes. reflexivity. }
    split; [exact Hbuilt|].
    intros m Hm. rewrite Hbuilt in Hm. injection Hm as <-.
    split; reflexivity.
  - intros Hodd. unfold build_diffusion_model.
    now rewrite TimeEncoding_odd.
  - intros Hev Hneg. unfold build_diffusion_model.
    now rewrite TimeEncoding_alloc_fails.
Qed.

Lemma build_diffusion_model_outcome_witness :
  build_diffusion_model 4000 64
  = Ok (mkModel (mkShape 28 28 1) (mkShape 28 28 1))
  /\ build_diffusion_model 4000 63
     = Raise (AssertionError "embed_size must be even")
  /\ build_diffusion_model (-2) 64 = Raise ValueError.
Proof.
  destruct (build_diffusion_model_outcome 4000 64) as [Hok _].
  destruct (build_diffusion_model_outcome 4000 63) as [_ [Hodd _]].
  destruct (build_diffusion_model_outcome (-2) 64) as [_ [_ Hneg]].
  split; [apply (Hok ltac:(reflexivity) ltac:(lia) ltac:(lia))|].
  split; [apply Hodd; discriminate|].
  apply Hneg; [reflexivity | lia].
Defined.

(** * The schedule as stored in float32 *)

(** ** Rounding to the nearest integer and to binary32 *)

Lemma Int_part_bounds (x : R) : IZR (Int_part x) <= x < IZR (Int_part x) + 1.
Proof. destruct (base_Int_part x). lra. Qed.

Lemma round_half_even_near (x : R) :
  x - 1 / 2 <= IZR (round_half_even x) <= x + 1 / 2.
Proof.
  unfold round_half_even. pose proof (Int_part_bounds x) as Hb.
  destruct (Rlt_dec (x - IZR (Int_part x)) (1 / 2)) as [Hlo|Hlo]; [lra|].
  destruct (Rlt_dec (1 / 2) (x - IZR (Int_part x))) as [Hhi|Hhi].
  - rewrite plus_IZR. lra.
  - destruct (Z.even (Int_part x)); [lra|]. rewrite plus_IZR. lra.
Qed.

Lemma round_half_even_le (x : R) (k : Z) :
  x < IZR k + 1 / 2 -> (round_half_even x <= k)%Z.
Proof.
  intros Hx. pose proof (round_half_even_near x) as [_ Hn].
  apply Z.lt_succ_r, lt_IZR. rewrite succ_IZR. lra.
Qed.

Lemma round_half_even_ge (x : R) (k : Z) :
  IZR k - 1 / 2 < x -> (k <= round_half_even x)%Z.
Proof.
  intros Hx. pose proof (round_half_even_near x) as [Hn _].
  apply Z.lt_pred_le, lt_IZR. unfold Z.pred. rewrite plus_IZR. lra.
Qed.

Lemma round_half_even_tie_odd (k : Z) :
  Z.even k = false -> round_half_even (IZR k + 1 / 2) = (k + 1)%Z.
Proof.
  intros Hodd. unfold round_half_even.
  assert (Hk : Int_part (IZR k + 1 / 2) = k).
  { symmetry. apply Int_part_spec. lra. }
  rewrite Hk.
  destruct (Rlt_dec (IZR k + 1 / 2 - IZR k) (1 / 2)); [lra|].
  destruct (Rlt_dec (1 / 2) (IZR k + 1 / 2 - IZR k)); [lra|].
  now rewrite Hodd.
Qed.

Lemma round_half_even_IZR (k : Z) : round_half_even (IZR k) = k.
Proof.
  apply Z.le_antisymm.
  - apply round_half_even_le. lra.
  - apply round_half_even_ge. lra.
Qed.

(** [2^k <= x < 2^(k+1)] puts [x] in the binade of exponent [k]. *)
Lemma ln_powerRZ (k : Z) : ln (powerRZ 2 k) = IZR k * ln 2.
Proof.
  rewrite powerRZ_Rpower by lra. unfold Rpower. apply ln_exp.
Qed.

Lemma ln2_pos : 0 < ln 2.
Proof. rewrite <- ln_1. apply ln_increasing; lra. Qed.

Lemma log2_floor_ge (x : R) (k : Z) :
  powerRZ 2 k <= x -> (k <= Int_part (ln x / ln 2))%Z.
Proof.
  intros Hx. pose proof ln2_pos as H2.
  assert (Hp : 0 < powerRZ 2 k) by (apply powerRZ_lt; lra).
  assert (Hl : IZR k <= ln x / ln 2).
  { apply Rmult_le_reg_r with (ln 2); [exact H2|].
    unfold Rdiv. rewrite Rmult_assoc, Rinv_l, Rmult_1_r by lra.
    rewrite <- ln_powerRZ.
    destruct Hx as [Hx|<-]; [left; apply ln_increasing; lra | right; reflexivity]. }
  pose proof (Int_part_bounds (ln x / ln 2)) as Hb.
  apply Z.lt_succ_r, lt_IZR. rewrite succ_IZR. lra.
Qed.

Lemma log2_floor_lt (x : R) (k : Z) :
  0 < x -> x < powerRZ 2 k -> (Int_part (ln x / ln 2) < k)%Z.
Proof.
  intros H0 Hx. pose proof ln2_pos as H2.
  assert (Hl : ln x / ln 2 < IZR k).
  { apply Rmult_lt_reg_r with (ln 2); [exact H2|].
    unfold Rdiv. rewrite Rmult_assoc, Rinv_l, Rmult_1_r by lra.
    rewrite <- ln_powerRZ. apply ln_increasing; lra. }
  pose proof (Int_part_bounds (ln x / ln 2)) as Hb.
  apply lt_IZR. lra.
Qed.

Lemma log2_floor_pow (x : R) :
  0 < x ->
  powerRZ 2 (Int_part (ln x / ln 2)) <= x
  < powerRZ 2 (Int_part (ln x / ln 2) + 1).
Proof.
  intros H0. pose proof ln2_pos as H2.
  pose proof (Int_part_bounds (ln x / ln 2)) as [Hlo Hhi].
  set (E := Int_part (ln x / ln 2)) in *.
  rewrite !powerRZ_Rpower by lra. unfold Rpower.
  rewrite <- (exp_ln x) at 1 2 by exact H0.
  split.
  - assert (IZR E * ln 2 <= ln x).
    { apply Rmult_le_compat_r with (r := ln 2) in Hlo; [|lra].
      unfold Rdiv in Hlo. rewrite Rmult_assoc, Rinv_l, Rmult_1_r in Hlo by lra.
      exact Hlo. }
    destruct H as [H| ->]; [left; now apply exp_increasing | right; reflexivity].
  - apply exp_increasing. rewrite plus_IZR.
    apply Rmult_lt_compat_r with (r := ln 2) in Hhi; [|lra].
    unfold Rdiv in Hhi. rewrite Rmult_assoc, Rinv_l, Rmult_1_r in Hhi by lra.
    exact Hhi.
Qed.

Lemma float32_exponent_pos (x : R) :
  0 < x -> float32_exponent x = Z.max (-126) (Int_part (ln x / ln 2)).
Proof. intros H. unfold float32_exponent. now rewrite Rabs_pos_eq by lra. Qed.

Lemma float32_exponent_binade (x : R) (k : Z) :
  (-126 <= k)%Z -> powerRZ 2 k <= x < powerRZ 2 (k + 1) ->
  float32_exponent x = k.
Proof.
  intros Hk [Hlo Hhi].
  assert (H0 : 0 < x).
  { apply Rlt_le_trans with (powerRZ 2 k); [apply powerRZ_lt; lra | exact Hlo]. }
  rewrite float32_exponent_pos by exact H0.
  pose proof (log2_floor_ge x k Hlo).
  pose proof (log2_floor_lt x (k + 1) H0 Hhi). lia.
Qed.

Lemma float32_0 : float32 0 = 0.
Proof. unfold float32. destruct (Req_EM_T 0 0); [reflexivity | contradiction]. Qed.

Lemma float32_pos_eq (x : R) :
  0 < x ->
  float32 x
  = IZR (round_half_even (x / powerRZ 2 (float32_exponent x - 23)))
    * powerRZ 2 (float32_exponent x - 23).
Proof.
  intros H. unfold float32. destruct (Req_EM_T x 0); [lra | reflexivity].
Qed.

Lemma float32_nonneg (x : R) : 0 <= x -> 0 <= float32 x.
Proof.
  intros [H| <-]; [|rewrite float32_0; lra].
  rewrite float32_pos_eq by exact H.
  set (ulp := powerRZ 2 (float32_exponent x - 23)).
  assert (Hu : 0 < ulp) by (apply powerRZ_lt; lra).
  apply Rmult_le_pos; [|lra]. apply IZR_le.
  apply round_half_even_ge.
  assert (0 < x / ulp) by (apply Rdiv_lt_0_compat; assumption). lra.
Qed.

Lemma float32_1 : float32 1 = 1.
Proof.
  rewrite float32_pos_eq by lra.
  rewrite (float32_exponent_binade 1 0) by (simpl; lra || lia).
  change (powerRZ 2 (0 - 23)) with (/ 2 ^ 23).
  replace (1 / / 2 ^ 23) with (IZR (2 ^ 23)).
  - rewrite round_half_even_IZR. rewrite pow_IZR. simpl; lra.
  - rewrite pow_IZR. simpl. lra.
Qed.

Lemma float32_rounds_to_1 (x : R) :
  1 - / 2 ^ 25 <= x <= 1 -> float32 x = 1.
Proof.
  intros [Hlo [Hhi| ->]]; [|apply float32_1].
  assert (Hh : / 2 ^ 25 < / 2) by lra.
  rewrite float32_pos_eq by lra.
  rewrite (float32_exponent_binade x (-1));
    [|lia|change (powerRZ 2 (-1)) with (/ 2 ^ 1);
          change (powerRZ 2 (-1 + 1)) with 1; lra].
  change (powerRZ 2 (-1 - 23)) with (/ 2 ^ 24).
  assert (Hr : round_half_even (x / / 2 ^ 24) = (2 ^ 24)%Z).
  { destruct (Req_dec x (1 - / 2 ^ 25)) as [->|Hne].
    - replace ((1 - / 2 ^ 25) / / 2 ^ 24) with (IZR (2 ^ 24 - 1) + 1 / 2)
        by (rewrite minus_IZR; simpl; lra).
      rewrite round_half_even_tie_odd by reflexivity. reflexivity.
    - apply Z.le_antisymm.
      + apply round_half_even_le. simpl. lra.
      + apply round_half_even_ge. simpl. lra. }
  rewrite Hr. simpl. lra.
Qed.

Lemma pow2_le (a b : Z) : (a <= b)%Z -> powerRZ 2 a <= powerRZ 2 b.
Proof.
  intros H. rewrite !powerRZ_Rpower by lra.
  apply Rle_Rpower; [lra | now apply IZR_le].
Qed.

Lemma IZR_2_24 : IZR (2 ^ 24) = 2 ^ 24.
Proof. now rewrite pow_IZR. Qed.

Lemma pow2_split (e : Z) : powerRZ 2 (e + 1) = powerRZ 2 (e - 23) * 2 ^ 24.
Proof.
  replace (e + 1)%Z with (e - 23 + 24)%Z by lia.
  rewrite powerRZ_add by lra. reflexivity.
Qed.

(** Below [2^k] the cast stays at or below [2^k]. *)
Lemma float32_small (x : R) (k : Z) :
  (-125 <= k)%Z -> 0 < x < powerRZ 2 k -> float32 x <= powerRZ 2 k.
Proof.
  intros Hk [H0 Hx]. rewrite float32_pos_eq by exact H0.
  rewrite float32_exponent_pos by exact H0.
  pose proof (log2_floor_lt x k H0 Hx) as HE.
  pose proof (log2_floor_pow x H0) as [_ Hup].
  set (E := Int_part (ln x / ln 2)) in *.
  set (e := Z.max (-126) E).
  assert (He : (E <= e <= k - 1)%Z) by (unfold e; lia).
  set (ulp := powerRZ 2 (e - 23)).
  assert (Hu : 0 < ulp) by (apply powerRZ_lt; lra).
  assert (Hxe : x < ulp * 2 ^ 24).
  { unfold ulp. rewrite <- pow2_split.
    apply Rlt_le_trans with (1 := Hup). apply pow2_le. lia. }
  assert (Hq : x / ulp < 2 ^ 24).
  { apply Rmult_lt_reg_r with ulp; [exact Hu|].
    unfold Rdiv. rewrite Rmult_assoc, Rinv_l, Rmult_1_r by lra. lra. }
  assert (Hr : (round_half_even (x / ulp) <= 2 ^ 24)%Z).
  { apply round_half_even_le. rewrite IZR_2_24. lra. }
  apply IZR_le in Hr. rewrite IZR_2_24 in Hr.
  apply Rle_trans with (2 ^ 24 * ulp).
  - apply Rmult_le_compat_r; lra.
  - rewrite Rmult_comm. unfold ulp. rewrite <- pow2_split. apply pow2_le. lia.
Qed.

Lemma float32_below_1 (x : R) :
  0 <= x < 1 - / 2 ^ 25 -> float32 x <= 1 - / 2 ^ 24.
Proof.
  intros [[H0| <-] Hx]; [|rewrite float32_0; lra].
  destruct (Rlt_le_dec x (/ 2)) as [Hs|Hs].
  - apply Rle_trans with (powerRZ 2 (-1)).
    + apply float32_small; [lia|].
      change (powerRZ 2 (-1)) with (/ 2 ^ 1). lra.
    + change (powerRZ 2 (-1)) with (/ 2 ^ 1). lra.
  - rewrite float32_pos_eq by exact H0.
    rewrite (float32_exponent_binade x (-1));
      [|lia|change (powerRZ 2 (-1)) with (/ 2 ^ 1);
            change (powerRZ 2 (-1 + 1)) with 1; lra].
    change (powerRZ 2 (-1 - 23)) with (/ 2 ^ 24).
    assert (Hr : (round_half_even (x / / 2 ^ 24) <= 2 ^ 24 - 1)%Z).
    { apply round_half_even_le. rewrite minus_IZR. simpl. lra. }
    apply IZR_le in Hr. rewrite minus_IZR in Hr.
    simpl in Hr |- *. lra.
Qed.

Lemma float32_unit (x : R) : 0 <= x <= 1 -> 0 <= float32 x <= 1.
Proof.
  intros [H0 H1]. split; [now apply float32_nonneg|].
  destruct (Rlt_le_dec x (1 - / 2 ^ 25)) as [Hs|Hs].
  - pose proof (float32_below_1 x (conj H0 Hs)). lra.
  - rewrite float32_rounds_to_1; lra.
Qed.


(** ** The first ratio of the cosine policy for large [T] *)

Lemma PI_upper : PI <= 334 / 100.
Proof.
  pose proof (PI_ineq 2) as [_ H].
  unfold sum_f_R0, tg_alt, PI_tg in H. simpl in H. lra.
Qed.

Lemma sin_sq_le (x : R) : 0 <= x <= 1 -> sin x ^ 2 <= x ^ 2.
Proof.
  intros [[H0| <-] H1]; [|rewrite sin_0; lra].
  assert (Hs : 0 < sin x).
  { apply sin_gt_0; [exact H0|]. pose proof PI2_3_2. lra. }
  pose proof (sin_lt_x x H0). nra.
Qed.

Lemma cos_f_first_ratio (T : Z) :
  (10000 <= T)%Z -> 1 - / 2 ^ 25 <= cos_f T 0 1 / cos_f T 0 0 <= 1.
Proof.
  intros HT. apply IZR_le in HT.
  assert (H0 : cos_f T 0 0 = 1).
  { unfold cos_f, cos_angle.
    replace ((0 / IZR T + 0) / (1 + 0) * PI / 2) with 0 by (field; lra).
    rewrite cos_0. lra. }
  rewrite H0. unfold cos_f, cos_angle.
  set (x := (1 / IZR T + 0) / (1 + 0) * PI / 2).
  assert (Hx : 0 <= x <= 167 / 1000000).
  { assert (x = PI / 2 * / IZR T) by (unfold x; field; lra).
    pose proof PI_upper. pose proof PI_RGT_0.
    assert (0 < / IZR T <= / 10000).
    { split; [apply Rinv_0_lt_compat; lra|].
      apply Rinv_le_contravar; lra. }
    nra. }
  pose proof (sin_sq_le x ltac:(lra)) as Hs.
  pose proof (sin2_cos2 x) as Hsc. unfold Rsqr in Hsc.
  assert (Hxx : x ^ 2 <= / 2 ^ 25) by (simpl; nra).
  simpl in Hs, Hxx |- *. nra.
Qed.

(** ** Entries of the stored schedule *)

Lemma length_cumprod_float32_from acc l :
  length (cumprod_float32_from acc l) = length l.
Proof. revert acc. induction l; intros; simpl; auto. Qed.

Lemma length_cumprod_float32 l : length (cumprod_float32 l) = length l.
Proof. destruct l; simpl; auto using length_cumprod_float32_from. Qed.

Lemma variance_schedule_float32_alpha (T : Z) (s max_beta : R) :
  alpha (variance_schedule_float32 T s max_beta)
  = map float32 (alpha (variance_schedule T s max_beta)).
Proof. reflexivity. Qed.

Lemma variance_schedule_float32_cumprod (T : Z) (s max_beta : R) :
  alpha_cumprod (variance_schedule_float32 T s max_beta)
  = cumprod_float32 (alpha (variance_schedule_float32 T s max_beta)).
Proof. reflexivity. Qed.

Lemma variance_schedule_float32_lengths (T : Z) (s max_beta : R) :
  let sch := variance_schedule_float32 T s max_beta in
  length (alpha sch) = S (Z.to_nat T)
  /\ length (alpha_cumprod sch) = S (Z.to_nat T).
Proof.
  cbn zeta. rewrite variance_schedule_float32_cumprod, length_cumprod_float32.
  rewrite variance_schedule_float32_alpha, length_map.
  pose proof (variance_schedule_lengths T s max_beta) as [Hl _].
  cbn zeta in Hl. auto.
Qed.

Lemma variance_schedule_float32_entry (T : Z) (s max_beta : R) (t : nat) :
  (t <= Z.to_nat T)%nat ->
  (alpha (variance_schedule_float32 T s max_beta)).[t]
  = float32 (alpha (variance_schedule T s max_beta)).[t].
Proof.
  intros Ht. rewrite variance_schedule_float32_alpha.
  apply nth_map_in_range.
  pose proof (variance_schedule_lengths T s max_beta) as [Hl _].
  cbn zeta in Hl. rewrite Hl. lia.
Qed.

Lemma variance_schedule_entry_clipped (T : Z) (s max_beta : R) (t : nat) :
  0 <= max_beta -> (t <= Z.to_nat T)%nat ->
  1 - max_beta <= (alpha (variance_schedule T s max_beta)).[t] <= 1.
Proof.
  intros Hb Ht.
  pose proof (schedule_alpha_clipped T s max_beta _ Hb (or_introl eq_refl))
    as Hc.
  eapply (proj1 (Forall_forall _ _) Hc). apply nth_In.
  pose proof (variance_schedule_lengths T s max_beta) as [Hl _].
  cbn zeta in Hl. rewrite Hl. lia.
Qed.




(** Where the exact first ratio is within [2^-25] of 1, the stored first
    step and the stored running product at index 1 are exactly 1. *)
Lemma stored_first_step_lost (T : Z) (s max_beta : R) :
  (1 <= T)%Z ->
  1 - / 2 ^ 25 <= (alpha (variance_schedule T s max_beta)).[1] ->
  let sch := variance_schedule_float32 T s max_beta in
  (alpha sch).[1] = 1 /\ (alpha_cumprod sch).[0] = 1
  /\ (alpha_cumprod sch).[1] = 1.
Proof.
  intros HT Hnear. cbn zeta.
  assert (Hone : (alpha (variance_schedule T s max_beta)).[1] <= 1).
  { rewrite variance_schedule_alpha_S by lia. unfold np.clip.
    apply Rmin_r. }
  assert (Ha1 : (alpha (variance_schedule_float32 T s max_beta)).[1] = 1).
  { rewrite variance_schedule_float32_entry by lia.
    apply float32_rounds_to_1. lra. }
  split; [exact Ha1|].
  rewrite variance_schedule_float32_cumprod.
  pose proof (variance_schedule_float32_lengths T s max_beta) as [Hl _].
  cbn zeta in Hl.
  assert (Ha0 : (alpha (variance_schedule_float32 T s max_beta)).[0] = 1).
  { rewrite variance_schedule_float32_entry by lia.
    rewrite variance_schedule_alpha_0. apply float32_1. }
  destruct (alpha (variance_schedule_float32 T s max_beta))
    as [|a0 [|a1 rest]]; cbn [length] in Hl; try lia.
  cbn [nth] in Ha0, Ha1. subst a0 a1.
  cbn [cumprod_float32 cumprod_float32_from nth].
  split; [reflexivity|]. rewrite Rmult_1_l. apply float32_1.
Qed.

Lemma variance_schedule_first_ratio (T : Z) (max_beta : R) :
  (10000 <= T)%Z ->
  1 - / 2 ^ 25 <= (alpha (variance_schedule T 0 max_beta)).[1].
Proof.
  intros HT. rewrite variance_schedule_alpha_S by lia.
  pose proof (cos_f_first_ratio T HT) as [Hlo Hhi].
  change (Z.of_nat 1) with 1%Z. change (Z.of_nat 0) with 0%Z.
  unfold np.clip. apply Rmin_glb; [|lra].
  apply Rle_trans with (1 := Hlo). apply Rmax_l.
Qed.

(** ** Division safety of the reverse sampler *)





(** ** Where the cast keeps a step and where it loses it *)

(** X3.  For [T >= 1], [s >= 0] and [max_beta] in (0,1), the stored
    [alpha[t]] of the cosine policy, [t] in [1..T], is the float32 nearest
    to the exact clipped ratio; it lies in [[0, 1]], and it is below 1
    exactly when the exact ratio is below [1 - 2^-25].  The step is lost
    otherwise, and for [s = 0] that is the case of the first step of every
    [T >= 10000]: there [alpha[1] = 1] and [alpha_bar[1] = alpha_bar[0] = 1]
    as stored, so that [alpha_bar] is not strictly decreasing. *)
Theorem variance_schedule_float32_steps (T : Z) (s max_beta : R) (t : nat) :
  (1 <= T)%Z -> 0 <= s -> 0 < max_beta < 1 ->
  (1 <= t <= Z.to_nat T)%nat ->
  let ideal := variance_schedule T s max_beta in
  let sch := variance_schedule_float32 T s max_beta in
  (alpha sch).[t] = float32 (alpha ideal).[t]
  /\ 0 <= (alpha sch).[t] <= 1
  /\ ((alpha sch).[t] < 1 <-> (alpha ideal).[t] < 1 - / 2 ^ 25)
  /\ (s = 0 -> (10000 <= T)%Z ->
      (alpha sch).[1] = 1
      /\ (alpha_cumprod sch).[0] = 1 /\ (alpha_cumprod sch).[1] = 1).
Proof.
  intros HT Hs Hb Ht ideal sch.
  pose proof (variance_schedule_entry_clipped T s max_beta t
                ltac:(lra) ltac:(lia)) as Hexact. fold ideal in Hexact.
  assert (Hentry : (alpha sch).[t] = float32 (alpha ideal).[t])
    by (apply variance_schedule_float32_entry; lia).
  split; [exact Hentry|]. rewrite Hentry.
  split; [apply float32_unit; lra|].
  split.
  - split.
    + intros Hlt. destruct (Rlt_le_dec (alpha ideal).[t] (1 - / 2 ^ 25))
        as [Hbelow|Hnear]; [exact Hbelow|].
      rewrite float32_rounds_to_1 in Hlt by lra. lra.
    + intros Hbelow.
      pose proof (float32_below_1 (alpha ideal).[t] ltac:(lra)) as Hle.
      simpl in Hle |- *. lra.
  - intros -> HT'. apply stored_first_step_lost; [lia|].
    now apply variance_schedule_first_ratio.
Qed.

Lemma variance_schedule_float32_steps_witness :
  let sch := variance_schedule_float32 10000 0 (999 / 1000) in
  0 <= (alpha sch).[1] <= 1
  /\ (alpha_cumprod sch).[1] = (alpha_cumprod sch).[0].
Proof.
  destruct (variance_schedule_float32_steps 10000 0 (999 / 1000) 1
              ltac:(lia) ltac:(lra) ltac:(lra) ltac:(simpl; lia))
    as (_ & Hunit & _ & Hlost).
  destruct (Hlost eq_refl ltac:(lia)) as (_ & H0 & H1).
  cbn zeta. split; [exact Hunit|]. now rewrite H0, H1.
Defined.
